(** * A shallow embedding of the wordle suggester (package main, wordle.go)

    The Go program keeps a pool of five-letter candidate words, turns the
    feedback of a guess into a [constraints] value, filters the pool with
    it and ranks what is left.  This file embeds the constraint model, the
    diff ([applyDiffConstraint]), the feedback parser ([inputConstraints]),
    [satisfies], [filter], the scorer, [expectedNextSetSize], [sortWords]
    and [suggest], and proves the properties the specification states
    about them.  It then embeds the two modes of [main], the loader
    [initialCandidates] and the parser and simulation of the second
    document, and proves further properties of the code.

    Conventions.
    - A Go [byte] is a [Z] in [0, 256); byte subtraction wraps modulo 256.
    - A Go [string] is the list of its bytes.
    - A Go [int] is a [Z]; slice and array indices are [nat].
    - Fixed-size arrays ([5]byte, [5][26]bool, [5][255]int) are lists whose
      lengths are recorded by a well-formedness predicate.
    - A run-time panic (index or slice bound out of range) is the [Panic]
      outcome of the [result] monad: the index expressions of the source
      are checked [index] and [store] operations, but for the look-ups
      inside the comparison handed to [sort.Slice], which are total.
    - [sort.Slice] and the arithmetic of [float64] belong to the Go library
      and language; the ranking functions take them as parameters. *)

From Stdlib Require Import ZArith QArith Lqa Floats Uint63 Strings.String Strings.Byte.
From stdpp Require Import base numbers list.

Local Open Scope Z_scope.

(** ** Outcomes of a Go computation *)

Inductive result (A : Type) : Type :=
  | Ok (a : A)
  | Panic.
Arguments Ok {A} a.
Arguments Panic {A}.

Global Instance result_ret : MRet result := λ A a, Ok a.
Global Instance result_bind : MBind result := λ A B f m,
  match m with
  | Ok a => f a
  | Panic => Panic
  end.

(** [l[i]] as an rvalue. *)
Definition index {A} (l : list A) (i : nat) : result A :=
  match l !! i with
  | Some x => Ok x
  | None => Panic
  end.

(** [l[i] = x]. *)
Definition store {A} (l : list A) (i : nat) (x : A) : result (list A) :=
  if decide (i < length l)%nat then Ok (<[i:=x]> l) else Panic.

(** [l[lo:hi]] on a slice whose capacity is its length. *)
Definition slice {A} (l : list A) (lo hi : nat) : result (list A) :=
  if decide (lo ≤ hi ≤ length l)%nat then Ok (take (hi - lo) (drop lo l)) else Panic.

(** [for i := lo; i < lo + n; i++ { s = body i s }], without break or return. *)
Fixpoint forLoop {St : Type} (body : nat → St → result St) (lo n : nat) (s : St) : result St :=
  match n with
  | O => Ok s
  | S n' => s' ← body lo s; forLoop body (S lo) n' s'
  end.

(** ** Bytes and strings *)

Definition byte_sub (a b : Z) : Z := (a - b) mod 256.

Definition bytes (s : string) : list Z :=
  (λ b, Z.of_N (Byte.to_N b)) <$> list_byte_of_string s.

(** The letters and operators the source names. *)
Definition ch_a : Z := 97.
Definition ch_z : Z := 122.
Definition ch_plus : Z := 43.
Definition ch_minus : Z := 45.
Definition ch_tilde : Z := 126.

Definition lowercase (b : Z) : Prop := ch_a ≤ b ≤ ch_z.

(** A catalog word: exactly five lowercase ASCII letters, which is what
    [initialCandidates] lets through. *)
Definition wfWord (w : list Z) : Prop := length w = 5%nat ∧ Forall lowercase w.

Global Instance lowercase_dec b : Decision (lowercase b).
Proof. unfold lowercase. apply _. Defined.

Global Instance wfWord_dec w : Decision (wfWord w).
Proof. unfold wfWord. apply _. Defined.

(** ** The constraint model (first document of wordle.go) *)

Record constraints : Type := {
  position : list Z;                 (* [5]byte, 0 = not fixed *)
  notPosition : list (list bool);    (* [5][26]bool *)
  contains : list Z                  (* []byte *)
}.

Definition wfConstraints (c : constraints) : Prop :=
  length (position c) = 5%nat ∧
  length (notPosition c) = 5%nat ∧
  Forall (λ row, length row = 26%nat) (notPosition c).

Global Instance wfConstraints_dec c : Decision (wfConstraints c).
Proof. unfold wfConstraints. apply _. Defined.

Definition newConstraints : constraints :=
  {| position := replicate 5 0;
     notPosition := replicate 5 (replicate 26 false);
     contains := [] |}.

Definition clearConstraints (c : constraints) : constraints :=
  {| position := (λ _ : Z, 0) <$> position c;
     notPosition := (λ row : list bool, (λ _ : bool, false) <$> row) <$> notPosition c;
     contains := take 0 (contains c) |}.

Definition set_position (c : constraints) (p : list Z) : constraints :=
  {| position := p; notPosition := notPosition c; contains := contains c |}.
Definition set_notPosition (c : constraints) (np : list (list bool)) : constraints :=
  {| position := position c; notPosition := np; contains := contains c |}.
Definition set_contains (c : constraints) (cs : list Z) : constraints :=
  {| position := position c; notPosition := notPosition c; contains := cs |}.

(** [c.notPosition[i][b-'a'] = true]. *)
Definition exclude (c : constraints) (i : nat) (b : Z) : result constraints :=
  row ← index (notPosition c) i;
  row' ← store row (Z.to_nat (byte_sub b ch_a)) true;
  np ← store (notPosition c) i row';
  Ok (set_notPosition c np).

(** [c.notPosition[i][b-'a']]. *)
Definition excluded (c : constraints) (i : nat) (b : Z) : result bool :=
  row ← index (notPosition c) i;
  index row (Z.to_nat (byte_sub b ch_a)).

(** *** applyDiffConstraint *)

(** First loop: the [+] constraints. *)
Definition applyDiffConstraint_fixed (guess answer : list Z) (i : nat) (c : constraints)
  : result constraints :=
  g ← index guess i;
  a ← index answer i;
  if decide (g = a) then
    p ← store (position c) i g;
    Ok (set_position c p)
  else Ok c.

(** Inner loop computing [found] for the guess letter at [i]. *)
Definition applyDiffConstraint_found (c : constraints) (guess answer : list Z) (i : nat)
    (j : nat) (found : bool) : result bool :=
  p ← index (position c) j;
  if decide (p ≠ 0) then Ok found
  else
    a ← index answer j;
    g ← index guess i;
    if decide (a = g) then Ok true else Ok found.

(** Inner loop of the not-found branch. *)
Definition applyDiffConstraint_absent (guess : list Z) (i : nat) (j : nat) (c : constraints)
  : result constraints :=
  p ← index (position c) j;
  if decide (p = 0) then
    g ← index guess i;
    exclude c j g
  else Ok c.

(** Body of the second loop. *)
Definition applyDiffConstraint_rest (guess answer : list Z) (i : nat) (c : constraints)
  : result constraints :=
  p ← index (position c) i;
  if decide (p ≠ 0) then Ok c
  else
    found ← forLoop (applyDiffConstraint_found c guess answer i) 0 5 false;
    if found : bool then
      g ← index guess i;
      c' ← exclude c i g;
      g' ← index guess i;
      Ok (set_contains c' (contains c' ++ [g']))
    else
      forLoop (applyDiffConstraint_absent guess i) 0 5 c.

Definition applyDiffConstraint (c : constraints) (guess answer : list Z) : result constraints :=
  c1 ← forLoop (applyDiffConstraint_fixed guess answer) 0 5 c;
  forLoop (applyDiffConstraint_rest guess answer) 0 5 c1.

(** *** satisfies *)

(** First loop of [satisfies], from position [i], [n] positions to go;
    [Ok false] is the early [return false], [Ok true] means the loop ran
    to its end. *)
Fixpoint satisfies_positions (c : constraints) (word : list Z) (i n : nat) : result bool :=
  match n with
  | O => Ok true
  | S n' =>
      got ← index word i;
      want ← index (position c) i;
      if decide (want ≠ 0) then
        if decide (got ≠ want) then Ok false
        else satisfies_positions c word (S i) n'
      else
        no ← excluded c i got;
        if no : bool then Ok false
        else satisfies_positions c word (S i) n'
  end.

(** Inner loop of the second part: is [b] at some position that is not
    fixed?  The loop breaks at the first hit. *)
Fixpoint satisfies_found (c : constraints) (word : list Z) (b : Z) (i n : nat) : result bool :=
  match n with
  | O => Ok false
  | S n' =>
      p ← index (position c) i;
      if decide (p = 0) then
        w ← index word i;
        if decide (w = b) then Ok true
        else satisfies_found c word b (S i) n'
      else satisfies_found c word b (S i) n'
  end.

(** The loop over [c.contains]. *)
Fixpoint satisfies_contains (c : constraints) (word : list Z) (bs : list Z) : result bool :=
  match bs with
  | [] => Ok true
  | b :: bs' =>
      found ← satisfies_found c word b 0 5;
      if found : bool then satisfies_contains c word bs' else Ok false
  end.

Definition satisfies (c : constraints) (word : list Z) : result bool :=
  ok ← satisfies_positions c word 0 5;
  if ok : bool then satisfies_contains c word (contains c) else Ok false.

(** ** The specification's reading of a constraint model

    The specification names four parts of a model: [fixedPosition],
    [excludedAtPosition], [mustContain] and [mustNotContain].  The struct
    above stores the first three; it has no field for the fourth, a letter
    known to be absent being stored as an exclusion at every position that
    is not fixed. *)

Definition fixedPosition (c : constraints) (i : nat) : option Z :=
  match position c !! i with
  | Some l => if decide (l = 0) then None else Some l
  | None => None
  end.

(** [b] is one of the letters excluded at position [i]. *)
Definition excludedAtPosition (c : constraints) (i : nat) (b : Z) : Prop :=
  ∃ row, notPosition c !! i = Some row ∧ row !! Z.to_nat (byte_sub b ch_a) = Some true.

Definition mustContain (c : constraints) : list Z := contains c.

Definition mustNotContain (c : constraints) : list Z := [].

(** Consistency of a word with a model, in the specification's words. *)
Definition consistent (c : constraints) (w : list Z) : Prop :=
  (∀ i l, (i < 5)%nat → fixedPosition c i = Some l → w !! i = Some l) ∧
  (∀ i b, (i < 5)%nat → w !! i = Some b → excludedAtPosition c i b →
          fixedPosition c i = Some b) ∧
  (∀ b, b ∈ mustContain c →
        ∃ i, (i < 5)%nat ∧ w !! i = Some b ∧ fixedPosition c i = None) ∧
  (∀ b, b ∈ mustNotContain c → b ∉ w).

(** The same, as a boolean function of the stored arrays. *)
Definition positionOk (c : constraints) (w : list Z) (i : nat) : bool :=
  match position c !! i, w !! i with
  | Some want, Some got =>
      if decide (want ≠ 0) then bool_decide (got = want)
      else match notPosition c !! i with
           | Some row =>
               match row !! Z.to_nat (byte_sub got ch_a) with
               | Some no => negb no
               | None => false
               end
           | None => false
           end
  | _, _ => false
  end.

Definition foundUnfixed (c : constraints) (w : list Z) (b : Z) (i : nat) : bool :=
  match position c !! i, w !! i with
  | Some p, Some got => bool_decide (p = 0) && bool_decide (got = b)
  | _, _ => false
  end.

Definition consistentb (c : constraints) (w : list Z) : bool :=
  forallb (positionOk c w) (seq 0 5) &&
  forallb (λ b, existsb (foundUnfixed c w b) (seq 0 5)) (contains c).

(** ** What a diff records, position by position *)

(** Position [j] of the guess is not an exact match. *)
Definition unmatched (guess answer : list Z) (j : nat) : bool :=
  bool_decide (guess !! j ≠ answer !! j).

(** The letter the first loop leaves in [c.position[j]]. *)
Definition fixedLetter (guess answer : list Z) (j : nat) : Z :=
  if unmatched guess answer j then 0 else guess !!! j.

(** The [found] flag of the second loop at guess position [i]: the answer
    has the letter [guess[i]] at a position that is not an exact match. *)
Definition present (guess answer : list Z) (i : nat) : bool :=
  existsb (λ j, unmatched guess answer j && bool_decide (answer !! j = guess !! i))
          (seq 0 5).

(** Guess position [i] takes the [found] branch: its letter is appended to
    [c.contains] and excluded at position [i]. *)
Definition contained (guess answer : list Z) (i : nat) : bool :=
  unmatched guess answer i && present guess answer i.

(** Guess position [i] takes the other branch: its letter is excluded at
    every position that is not an exact match. *)
Definition absent (guess answer : list Z) (i : nat) : bool :=
  unmatched guess answer i && negb (present guess answer i).

(** The letters appended to [c.contains], in order. *)
Definition containedLetters (guess answer : list Z) (n : nat) : list Z :=
  omap (λ i, if contained guess answer i then guess !! i else None) (seq 0 n).

(** Letter [b] ends up excluded at position [j] by one of the first [n]
    guess positions. *)
Definition excludedBy (guess answer : list Z) (n : nat) (j : nat) (b : Z) : Prop :=
  ∃ i, (i < n)%nat ∧ guess !! i = Some b ∧
       ((contained guess answer i = true ∧ j = i) ∨
        (absent guess answer i = true ∧ (j < 5)%nat ∧ unmatched guess answer j = true)).

(** A model as [newConstraints] and [clearConstraints] leave it. *)
Definition cleared (c : constraints) : Prop :=
  wfConstraints c ∧
  (∀ j, (j < 5)%nat → position c !! j = Some 0) ∧
  (∀ j b, ¬ excludedAtPosition c j b) ∧
  contains c = [].

(** ** Candidate words and the filter *)

(** The struct [word]; [F] is the type of the [exp] field, [float64] in the
    source. *)
Record word (F : Type) : Type := {
  w_word : list Z;
  w_freq : Z;
  w_score : Z;
  w_exp : F
}.
Arguments w_word {F} _.
Arguments w_freq {F} _.
Arguments w_score {F} _.
Arguments w_exp {F} _.

(** The catalog [initialCandidates] builds holds five-letter lowercase
    words only. *)
Definition wfCatalog {F} (words : list (word F)) : Prop :=
  Forall (λ w, wfWord (w_word w)) words.

Global Instance wfCatalog_dec {F} (words : list (word F)) : Decision (wfCatalog words).
Proof. unfold wfCatalog. apply _. Defined.

(** One iteration of the loop of [filter]: the state is the backing array
    and the write index [i]; the element read is the one now stored at
    index [k]. *)
Definition filter_step {F} (c : constraints) (k : nat) (st : list (word F) * nat)
  : result (list (word F) * nat) :=
  w ← index st.1 k;
  ok ← satisfies c (w_word w);
  if ok : bool then
    words' ← store st.1 st.2 w;
    Ok (words', S st.2)
  else Ok st.

Definition filter {F} (c : constraints) (words : list (word F)) : result (list (word F)) :=
  st ← forLoop (filter_step c) 0 (length words) (words, 0%nat);
  slice st.1 0 st.2.

(** ** The feedback parser *)

(** [strings.Fields] of the Go library: the line is cut around every run of
    white space as [unicode.IsSpace] defines it.  Those are the six ASCII
    characters below and the UTF-8 encodings of U+0085, U+00A0, U+1680,
    U+2000 to U+200A, U+2028, U+2029, U+202F, U+205F and U+3000; none of
    these encodings can start inside another valid encoding, so the cut
    points are the places where the byte sequences occur. *)
Definition asciiSpace (b : Z) : bool :=
  bool_decide (b = 9 ∨ b = 10 ∨ b = 11 ∨ b = 12 ∨ b = 13 ∨ b = 32).

(** Number of bytes of the white-space character [s] starts with, 0 if it
    starts with none. *)
Definition spaceWidth (s : list Z) : nat :=
  match s with
  | b0 :: rest =>
      if asciiSpace b0 then 1%nat
      else match rest with
           | b1 :: rest' =>
               if bool_decide (b0 = 194 ∧ (b1 = 133 ∨ b1 = 160)) then 2%nat
               else match rest' with
                    | b2 :: _ =>
                        if bool_decide
                             ((b0 = 225 ∧ b1 = 154 ∧ b2 = 128) ∨
                              (b0 = 226 ∧ b1 = 128 ∧
                               (128 ≤ b2 ≤ 138 ∨ b2 = 168 ∨ b2 = 169 ∨ b2 = 175)) ∨
                              (b0 = 226 ∧ b1 = 129 ∧ b2 = 159) ∨
                              (b0 = 227 ∧ b1 = 128 ∧ b2 = 128))
                        then 3%nat else 0%nat
                    | [] => 0%nat
                    end
           | [] => 0%nat
           end
  | [] => 0%nat
  end.

(** [skip] bytes of a white-space character are still to be dropped; [cur]
    is the field being read, latest byte first. *)
Fixpoint Fields_from (s : list Z) (skip : nat) (cur : list Z) : list (list Z) :=
  let flush := match cur with [] => [] | _ => [reverse cur] end in
  match s with
  | [] => flush
  | b :: rest =>
      match skip with
      | S skip' => Fields_from rest skip' cur
      | O =>
          match spaceWidth s with
          | O => Fields_from rest 0 (b :: cur)
          | S w => flush ++ Fields_from rest w []
          end
      end
  end.

Definition Fields (line : list Z) : list (list Z) := Fields_from line 0 [].

(** The checking loop of [inputConstraints]; [Ok false] is its
    [return nil]. *)
Fixpoint inputConstraints_check (fields : list (list Z)) : result bool :=
  match fields with
  | [] => Ok true
  | field :: fields' =>
      if decide (length field ≠ 2%nat) then Ok false
      else
        op ← index field 0;
        b ← index field 1;
        if decide ((op ≠ ch_minus ∧ op ≠ ch_plus ∧ op ≠ ch_tilde) ∨ b < ch_a ∨ b > ch_z)
        then Ok false
        else inputConstraints_check fields'
  end.

(** The loop over the [+] and [~] fields; [i] is the index of the first
    field of the list. *)
Fixpoint inputConstraints_marks (fields : list (list Z)) (i : nat) (c : constraints)
  : result constraints :=
  match fields with
  | [] => Ok c
  | field :: fields' =>
      op ← index field 0;
      c' ← (if decide (op = ch_plus) then
              b ← index field 1;
              p ← store (position c) i b;
              Ok (set_position c p)
            else if decide (op = ch_tilde) then
              b ← index field 1;
              c1 ← exclude c i b;
              b' ← index field 1;
              Ok (set_contains c1 (contains c1 ++ [b']))
            else Ok c);
      inputConstraints_marks fields' (S i) c'
  end.

(** Inner loop of the [-] fields. *)
Definition inputConstraints_minus (field : list Z) (i : nat) (c : constraints)
  : result constraints :=
  p ← index (position c) i;
  if decide (p = 0) then
    b ← index field 1;
    exclude c i b
  else Ok c.

(** The loop over the [-] fields. *)
Fixpoint inputConstraints_absent (fields : list (list Z)) (c : constraints)
  : result constraints :=
  match fields with
  | [] => Ok c
  | field :: fields' =>
      op ← index field 0;
      c' ← (if decide (op ≠ ch_minus) then Ok c
            else forLoop (inputConstraints_minus field) 0 5 c);
      inputConstraints_absent fields' c'
  end.

(** [None] is the [nil] result. *)
Definition inputConstraints (line : list Z) : result (option constraints) :=
  let c := newConstraints in
  let fields := Fields line in
  if decide (length fields ≠ 5%nat) then Ok None
  else
    ok ← inputConstraints_check fields;
    if ok : bool then
      c1 ← inputConstraints_marks fields 0 c;
      c2 ← inputConstraints_absent fields c1;
      Ok (Some c2)
    else Ok None.

(** A well-formed feedback line, in the specification's words. *)
Definition wellFormedToken (t : list Z) : Prop :=
  ∃ op b, t = [op; b] ∧ (op = ch_plus ∨ op = ch_tilde ∨ op = ch_minus) ∧ lowercase b.

Definition wellFormedLine (line : list Z) : Prop :=
  length (Fields line) = 5%nat ∧ Forall wellFormedToken (Fields line).

(** ** The variant that ignores multiplicity

    The second document of wordle.go and the earlier program of the
    repository share, word for word, another constraint model and other
    [applyDiffConstraint], [satisfies], [clearConstraints] and [filter]
    functions: absent letters have a field of their own, a letter is
    looked for in the whole answer, and a required letter may sit at a
    fixed position. *)
Module Simple.

Record constraints : Type := {
  position : list Z;               (* [5]byte *)
  notPosition : list (list Z);     (* [5][]byte *)
  contains : list Z;               (* []byte *)
  notContains : list Z             (* []byte *)
}.

Definition newConstraints : constraints :=
  {| position := replicate 5 0;
     notPosition := replicate 5 [];
     contains := [];
     notContains := [] |}.

Definition clearConstraints (c : constraints) : constraints :=
  {| position := (λ _ : Z, 0) <$> position c;
     notPosition := (λ row : list Z, take 0 row) <$> notPosition c;
     contains := take 0 (contains c);
     notContains := take 0 (notContains c) |}.

(** [strings.ContainsRune(s, rune(b))] for a byte [b]: below 0x80 the
    byte itself is looked for, from 0x80 on its two-byte UTF-8
    encoding. *)
Definition ContainsRune (s : list Z) (r : Z) : bool :=
  if decide (r < 128) then bool_decide (r ∈ s)
  else existsb (λ i, bool_decide (s !! i = Some (192 + r / 64)) &&
                     bool_decide (s !! S i = Some (128 + r mod 64)))
               (seq 0 (length s)).

Definition applyDiffConstraint_step (guess answer : list Z) (i : nat) (c : constraints)
  : result constraints :=
  g ← index guess i;
  a ← index answer i;
  if decide (g = a) then
    g' ← index guess i;
    p ← store (position c) i g';
    Ok {| position := p; notPosition := notPosition c;
          contains := contains c; notContains := notContains c |}
  else
    row ← index (notPosition c) i;
    g1 ← index guess i;
    np ← store (notPosition c) i (row ++ [g1]);
    g2 ← index guess i;
    if negb (ContainsRune answer g2) then
      g3 ← index guess i;
      Ok {| position := position c; notPosition := np;
            contains := contains c; notContains := notContains c ++ [g3] |}
    else
      g3 ← index guess i;
      Ok {| position := position c; notPosition := np;
            contains := contains c ++ [g3]; notContains := notContains c |}.

Definition applyDiffConstraint (c : constraints) (guess answer : list Z)
  : result constraints :=
  forLoop (applyDiffConstraint_step guess answer) 0 5 c.

(** The loop over [c.notPosition[i]] in [satisfies]. *)
Fixpoint satisfies_not (got : Z) (bs : list Z) : bool :=
  match bs with
  | [] => true
  | b :: bs' => if decide (got = b) then false else satisfies_not got bs'
  end.

Fixpoint satisfies_positions (c : constraints) (word : list Z) (i n : nat) : result bool :=
  match n with
  | O => Ok true
  | S n' =>
      got ← index word i;
      want ← index (position c) i;
      if decide (want ≠ 0 ∧ got ≠ want) then Ok false
      else
        row ← index (notPosition c) i;
        if satisfies_not got row then satisfies_positions c word (S i) n'
        else Ok false
  end.

(** [word[0] != b && word[1] != b && ... && word[4] != b], evaluated from
    the left and only as far as needed. *)
Fixpoint noneIs (word : list Z) (b : Z) (i n : nat) : result bool :=
  match n with
  | O => Ok true
  | S n' =>
      w ← index word i;
      if decide (w ≠ b) then noneIs word b (S i) n' else Ok false
  end.

Fixpoint satisfies_contains (word : list Z) (bs : list Z) : result bool :=
  match bs with
  | [] => Ok true
  | b :: bs' =>
      none ← noneIs word b 0 5;
      if none : bool then Ok false else satisfies_contains word bs'
  end.

Fixpoint satisfies_notContains (word : list Z) (bs : list Z) : result bool :=
  match bs with
  | [] => Ok true
  | b :: bs' =>
      none ← noneIs word b 0 5;
      if none : bool then satisfies_notContains word bs' else Ok false
  end.

Definition satisfies (c : constraints) (word : list Z) : result bool :=
  ok ← satisfies_positions c word 0 5;
  if ok : bool then
    ok' ← satisfies_contains word (contains c);
    if ok' : bool then satisfies_notContains word (notContains c) else Ok false
  else Ok false.

Definition filter_step {F} (c : constraints) (k : nat) (st : list (word F) * nat)
  : result (list (word F) * nat) :=
  w ← index st.1 k;
  ok ← satisfies c (w_word w);
  if ok : bool then
    words' ← store st.1 st.2 w;
    Ok (words', S st.2)
  else Ok st.

Definition filter {F} (c : constraints) (words : list (word F)) : result (list (word F)) :=
  st ← forLoop (filter_step c) 0 (length words) (words, 0%nat);
  slice st.1 0 st.2.

End Simple.

(** ** Sample data *)

(** A catalog entry as [initialCandidates] appends it:
    [word{word: w, freq: freq}], the other fields zero. *)
Definition newWord {F} (zero : F) (w : string) (freq : Z) : word F :=
  {| w_word := bytes w; w_freq := freq; w_score := 0; w_exp := zero |}.

Definition sampleCatalog : list (word Q) :=
  [newWord 0%Q "glass" 50; newWord 0%Q "arose" 40; newWord 0%Q "sassy" 30;
   newWord 0%Q "gloss" 20; newWord 0%Q "slash" 10].

Definition scenarioCatalog : list (word Q) :=
  [newWord 0%Q "alpha" 5; newWord 0%Q "allot" 4; newWord 0%Q "apple" 3;
   newWord 0%Q "adieu" 2; newWord 0%Q "amber" 1].

(** The texts of a list of words. *)
Definition texts {F} (words : list (word F)) : list (list Z) := w_word <$> words.

(** ** The occurrence-counting rule of the specification

    Section 4.1 of the specification lets a guess letter that is not an
    exact match count as contained only while the answer still has an
    occurrence of it that no exact match consumed and no earlier such
    position of the guess claimed. *)

(** Occurrences of the letter [guess[i]] in the answer outside the exact
    matches. *)
Definition spec_available (guess answer : list Z) (i : nat) : nat :=
  length (List.filter
            (λ j, unmatched guess answer j && bool_decide (answer !! j = guess !! i))
            (seq 0 5)).

(** Earlier positions of the guess, not exact matches, with the same
    letter: each claims one occurrence. *)
Definition spec_claimedBefore (guess answer : list Z) (i : nat) : nat :=
  length (List.filter
            (λ k, unmatched guess answer k && bool_decide (guess !! k = guess !! i))
            (seq 0 i)).

Definition spec_contained (guess answer : list Z) (i : nat) : bool :=
  unmatched guess answer i &&
  bool_decide (spec_claimedBefore guess answer i < spec_available guess answer i)%nat.

Definition spec_containedLetters (guess answer : list Z) : list Z :=
  omap (λ i, if spec_contained guess answer i then guess !! i else None) (seq 0 5).

(** The model of the feedback line of the scenario in section 8 of the
    specification. *)
Definition scenarioModel : constraints :=
  match inputConstraints (bytes "+a -l -p -h -a") with
  | Ok (Some c) => c
  | _ => newConstraints
  end.

(** ** Scoring, the estimator and the suggester *)

(** The largest [int]: no slice is longer. *)
Definition maxInt : Z := 2 ^ 63 - 1.

Definition smallSetSize : nat := 500.
Definition topSetSize : nat := 20.

Definition set_score {F} (w : word F) (s : Z) : word F :=
  {| w_word := w_word w; w_freq := w_freq w; w_score := s; w_exp := w_exp w |}.
Definition set_exp {F} (w : word F) (e : F) : word F :=
  {| w_word := w_word w; w_freq := w_freq w; w_score := w_score w; w_exp := e |}.

(** [for i, r := range w]: on the ASCII strings the catalog holds, the runes
    of a string are its bytes and [i] is the byte index.  Strings with bytes
    from 0x80 on are outside this model. *)
Definition runes (w : list Z) : list (nat * Z) := imap (λ i r, (i, r)) w.

(** A [5][255]int array. *)
Definition wfTable (t : list (list Z)) : Prop :=
  length t = 5%nat ∧ Forall (λ row, length row = 255%nat) t.

Definition zeroTable : list (list Z) := replicate 5 (replicate 255 0).

(** [t[i][r] = f(t[i][r])]. *)
Definition updateCell (t : list (list Z)) (i : nat) (r : Z) (f : Z → Z)
  : result (list (list Z)) :=
  row ← index t i;
  v ← index row (Z.to_nat r);
  row' ← store row (Z.to_nat r) (f v);
  store t i row'.

(** [t[i][r] = v]. *)
Definition storeCell (t : list (list Z)) (i : nat) (r : Z) (v : Z)
  : result (list (list Z)) :=
  row ← index t i;
  row' ← store row (Z.to_nat r) v;
  store t i row'.

(** The inner loop of [letterFreqByPosition], over the runes of one word. *)
Fixpoint letterFreqByPosition_word (rs : list (nat * Z)) (freq : list (list Z))
  : result (list (list Z)) :=
  match rs with
  | [] => Ok freq
  | (i, r) :: rs' =>
      freq' ← updateCell freq i r (λ v, v + 1);
      letterFreqByPosition_word rs' freq'
  end.

Definition letterFreqByPosition_step {F} (words : list (word F)) (i : nat)
    (freq : list (list Z)) : result (list (list Z)) :=
  w ← index words i;
  letterFreqByPosition_word (runes (w_word w)) freq.

Definition letterFreqByPosition {F} (words : list (word F)) : result (list (list Z)) :=
  forLoop (letterFreqByPosition_step words) 0 (length words) zeroTable.

(** [score]. *)
Fixpoint score_from (posScore : list (list Z)) (rs : list (nat * Z)) (score : Z) : result Z :=
  match rs with
  | [] => Ok score
  | (i, r) :: rs' =>
      row ← index posScore i;
      v ← index row (Z.to_nat r);
      score_from posScore rs' (score + v)
  end.

Definition score (posScore : list (list Z)) (word : list Z) : result Z :=
  score_from posScore (runes word) 0.

(** *** What is asked of [sort.Slice]

    The library sorts the slice, not necessarily stably, by swapping its
    elements, provided [less] describes a transitive ordering: if [less]
    holds of [a], [b] and of [b], [c] it holds of [a], [c], and if it
    fails of [a], [b] and of [b], [c] it fails of [a], [c].  Only the
    elements of the slice are ever compared. *)
Definition strictWeakOn {A} (less : A → A → bool) (l : list A) : Prop :=
  (∀ a, a ∈ l → less a a = false) ∧
  (∀ a b c, a ∈ l → b ∈ l → c ∈ l →
            less a b = true → less b c = true → less a c = true) ∧
  (∀ a b c, a ∈ l → b ∈ l → c ∈ l →
            less a b = false → less b c = false → less a c = false).

(** No element is less than one that comes before it. *)
Definition sortedBy {A} (less : A → A → bool) (l : list A) : Prop :=
  ∀ i j a b, (i < j)%nat → l !! i = Some a → l !! j = Some b → less b a = false.

(** The comparison of the second sort of [sortWords], on the numeric values
    [p] and [q] of the [exp] fields of [a] and [b]. *)
Definition lessKey {F} (a b : word F) (p q : Q) : Prop :=
  (q < p)%Q ∨
  ((p == q)%Q ∧ (w_freq a < w_freq b ∨ (w_freq a = w_freq b ∧ w_score a < w_score b))).

(** *** An insertion sort and exact arithmetic

    Used further down to show that what is assumed of [sort.Slice] and of
    [float64] can be had. *)
Fixpoint insertSorted {A} (less : A → A → bool) (x : A) (l : list A) : list A :=
  match l with
  | [] => [x]
  | y :: l' => if less x y then x :: y :: l' else y :: insertSorted less x l'
  end.

Definition insertionSort (A : Type) (less : A → A → bool) (l : list A) : list A :=
  foldr (insertSorted less) [] l.

Definition Qgtb (x y : Q) : bool := negb (Qle_bool x y).

Section Ranking.

(** [float64] and the operations the source applies to it: the zero value,
    the conversion [float64(n)], [+], [-], [/], [==] and [>]. *)
Variable float64 : Type.
Variable fzero : float64.
Variable fofint : Z → float64.
Variables fadd fsub fdiv : float64 → float64 → float64.
Variables feqb fgtb : float64 → float64 → bool.

(** [sort.Slice] of the Go library, the comparison taken on elements. *)
Variable sortSlice : ∀ A : Type, (A → A → bool) → list A → list A.

Abbreviation wordF := (word float64).

(** [letterScoreByPosition]: the loop storing the ranks of one position. *)
Definition letterScoreByPosition_rank (order : list Z) (i : nat) (j : nat)
    (posScore : list (list Z)) : result (list (list Z)) :=
  b ← index order j;
  storeCell posScore i b (Z.of_nat j).

(** The [order] slice after the loop [order[j] = byte(j)]. *)
Definition identityOrder : list Z := Z.of_nat <$> seq 0 255.

(** The order holds bytes below 255 only, so the look-ups of the
    comparison are in range of the row. *)
Definition letterScoreByPosition_less (row : list Z) (a b : Z) : bool :=
  bool_decide (row !!! Z.to_nat a < row !!! Z.to_nat b).

Definition letterScoreByPosition_step (posFreq : list (list Z)) (i : nat)
    (posScore : list (list Z)) : result (list (list Z)) :=
  row ← index posFreq i;
  let order := sortSlice Z (letterScoreByPosition_less row) identityOrder in
  forLoop (letterScoreByPosition_rank order i) 0 (length order) posScore.

Definition letterScoreByPosition (posFreq : list (list Z)) : result (list (list Z)) :=
  forLoop (letterScoreByPosition_step posFreq) 0 5 zeroTable.

(** *** expectedNextSetSize *)

Definition expectedNextSetSize_count (c : constraints) (words : list wordF) (j : nat)
    (n : Z) : result Z :=
  w ← index words j;
  ok ← satisfies c (w_word w);
  if ok : bool then Ok (n + 1) else Ok n.

(** The running mean [avg + (float64(n)-avg)/float64(i+1)]. *)
Definition meanUpdate (avg : float64) (n : Z) (i : nat) : float64 :=
  fadd avg (fdiv (fsub (fofint n) avg) (fofint (Z.of_nat i + 1))).

(** One hypothesis; the state is the scratch model and [avg]. *)
Definition expectedNextSetSize_step (words : list wordF) (guess : list Z) (i : nat)
    (st : constraints * float64) : result (constraints * float64) :=
  let c0 := clearConstraints st.1 in
  w ← index words i;
  c ← applyDiffConstraint c0 guess (w_word w);
  n ← forLoop (expectedNextSetSize_count c words) 0 (length words) 0;
  Ok (c, meanUpdate st.2 n i).

Definition expectedNextSetSize (words : list wordF) (guess : list Z) : result float64 :=
  st ← forLoop (expectedNextSetSize_step words guess) 0 (length words)
         (newConstraints, fzero);
  Ok st.2.

(** *** sortWords *)

Definition sortWords_score (posScore : list (list Z)) (i : nat) (words : list wordF)
  : result (list wordF) :=
  w ← index words i;
  s ← score posScore (w_word w);
  store words i (set_score w s).

(** The comparison of the first sort. *)
Definition lessByScore (a b : wordF) : bool :=
  if decide (w_score a = w_score b) then bool_decide (w_freq a < w_freq b)
  else bool_decide (w_score a < w_score b).

(** The comparison of the second sort. *)
Definition lessByExp (a b : wordF) : bool :=
  if feqb (w_exp a) (w_exp b) then
    if decide (w_freq a = w_freq b) then bool_decide (w_score a < w_score b)
    else bool_decide (w_freq a < w_freq b)
  else fgtb (w_exp a) (w_exp b).

(** Number of words for which the estimator is run. *)
Definition shortlistSize (n : nat) : nat :=
  if decide (smallSetSize < n ∧ topSetSize < n)%nat then topSetSize else n.

(** [top[i].exp = expectedNextSetSize(words, top[i].word)], [top] being
    the slice [words[off:]] of the same array. *)
Definition sortWords_exp (off : nat) (i : nat) (words : list wordF)
  : result (list wordF) :=
  w ← index words (off + i);
  e ← expectedNextSetSize words (w_word w);
  w' ← index words (off + i);
  store words (off + i) (set_exp w' e).

(** The array of [words] after the call. *)
Definition sortWords (words : list wordF) : result (list wordF) :=
  posFreq ← letterFreqByPosition words;
  posScore ← letterScoreByPosition posFreq;
  words1 ← forLoop (sortWords_score posScore) 0 (length words) words;
  let words2 := sortSlice wordF lessByScore words1 in
  let n := shortlistSize (length words2) in
  let off := (length words2 - n)%nat in
  _ ← slice words2 off (length words2);
  words3 ← forLoop (sortWords_exp off) 0 n words2;
  top ← slice words3 off (length words3);
  Ok (take off words3 ++ sortSlice wordF lessByExp top).

(** *** suggest *)

(** What [suggest] prints: one line per word, then the candidate count. *)
Record suggestion : Type := {
  printed : list wordF;
  candidates : Z
}.

Definition suggest (words : list wordF) : result suggestion :=
  words' ← sortWords words;
  let n := 20%nat in
  let n := if decide (length words' ≤ n)%nat then length words' else n in
  shown ← slice words' (length words' - n) (length words');
  Ok {| printed := shown; candidates := Z.of_nat (length words') |}.

(** *** Reading the results *)

(** [x <= y] through the two comparisons the source uses. *)
Definition fle (x y : float64) : Prop := feqb x y = true ∨ fgtb y x = true.

(** [float64(l) <= v <= float64(h)]. *)
Definition within (l h : Z) (v : float64) : Prop :=
  fle (fofint l) v ∧ fle v (fofint h).

(** [b] is at least as preferred as [a]: it has the smaller [exp], or the
    same [exp] and the greater [freq], or the same of both and a [score]
    that is not smaller. *)
Definition prefers (a b : wordF) : Prop :=
  fgtb (w_exp a) (w_exp b) = true ∨
  (feqb (w_exp a) (w_exp b) = true ∧
   (w_freq a < w_freq b ∨ (w_freq a = w_freq b ∧ w_score a ≤ w_score b))).

End Ranking.

(** ** Two instances

    With exact rational arithmetic and the insertion sort everything asked
    of [float64] and [sort.Slice] above holds; with the binary64 numbers of
    the kernel the functions run on the very floats of the Go program. *)

Definition fleQ : Q → Q → Prop := fle Q Qeq_bool Qgtb.
Definition expectedNextSetSizeQ : list (word Q) → list Z → result Q :=
  expectedNextSetSize Q 0%Q inject_Z Qplus Qminus Qdiv.
Definition sortWordsQ : list (word Q) → result (list (word Q)) :=
  sortWords Q 0%Q inject_Z Qplus Qminus Qdiv Qeq_bool Qgtb insertionSort.
Definition suggestQ : list (word Q) → result (suggestion Q) :=
  suggest Q 0%Q inject_Z Qplus Qminus Qdiv Qeq_bool Qgtb insertionSort.

(** [float64(n)] for a count [n], which is never negative. *)
Definition float_of_count (n : Z) : float := PrimFloat.of_uint63 (Uint63.of_Z n).

Definition float_gtb (x y : float) : bool := PrimFloat.ltb y x.

Definition sortWords64 : list (word float) → result (list (word float)) :=
  sortWords float PrimFloat.zero float_of_count PrimFloat.add PrimFloat.sub PrimFloat.div
    PrimFloat.eqb float_gtb insertionSort.

Definition tieCatalog : list (word float) :=
  [newWord PrimFloat.zero "glass" 50; newWord PrimFloat.zero "arose" 40;
   newWord PrimFloat.zero "sassy" 30; newWord PrimFloat.zero "gloss" 20].

(** ** Reading the score tables *)

(** [t[i][r]], zero out of range. *)
Definition cell (t : list (list Z)) (i : nat) (r : Z) : Z :=
  match t !! i with
  | Some row => default 0 (row !! Z.to_nat r)
  | None => 0
  end.

(** Number of words of the pool with the letter [r] at position [i]. *)
Definition letterCount {F} (words : list (word F)) (i : nat) (r : Z) : Z :=
  Z.of_nat (length (List.filter (λ w, bool_decide (w_word w !! i = Some r)) words)).

(** A byte that indexes a row of a [5][255]int table. *)
Definition inRow (r : Z) : Prop := 0 ≤ r < 255.

(** Row [i] of [posScore] ranks the bytes by their frequency in row [i] of
    [posFreq]: the ranks are 255 different numbers from 0 to 254, and a
    byte that is more frequent has the higher rank. *)
Definition rankedRow (posFreq posScore : list (list Z)) (i : nat) : Prop :=
  (∀ r, inRow r → 0 ≤ cell posScore i r ≤ 254) ∧
  (∀ r r', inRow r → inRow r' → cell posScore i r = cell posScore i r' → r = r') ∧
  (∀ r r', inRow r → inRow r' → cell posFreq i r < cell posFreq i r' →
           cell posScore i r < cell posScore i r').

(** ** Reading the sorted pool *)

(** What the catalog holds of a word: its text and its frequency. *)
Definition entry {F} (w : word F) : list Z * Z := (w_word w, w_freq w).

(** The fields the first sort of [sortWords] looks at, with the text. *)
Definition scored {F} (w : word F) : list Z * Z * Z := (w_word w, w_freq w, w_score w).

(** The comparison of the first sort, on these fields. *)
Definition lessScored (a b : list Z * Z * Z) : bool :=
  if decide (a.2 = b.2) then bool_decide (a.1.2 < b.1.2)
  else bool_decide (a.2 < b.2).

(** The sum of the ranks of the five letters of a word. *)
Definition rankSum (posScore : list (list Z)) (w : list Z) : Z :=
  foldr (λ i acc, cell posScore i (w !!! i) + acc) 0 (seq 0 5).

(** ** The two modes of [main]

    [main] is modelled without the [-v] flag.  The frequency list is read
    by [initialCandidates]; what [main] does with the words it returns is
    given here. *)

(** [n++] on an [int]. *)
Definition incr (n : Z) : Z := if decide (n = maxInt) then - maxInt - 1 else n + 1.

(** The line [main] ends a simulation with: "passed in n guesses" or
    "failed in n guesses". *)
Inductive verdict : Type :=
  | Passed (n : Z)
  | Failed (n : Z).

(** What the interactive mode writes: the prompt, a call of [suggest], the
    help text. *)
Inductive event (F : Type) : Type :=
  | Prompt
  | Suggested (printed : list (word F)) (candidates : Z)
  | Help.
Arguments Prompt {F}.
Arguments Suggested {F} printed candidates.
Arguments Help {F}.

Section Play.

Variable float64 : Type.
Variable fzero : float64.
Variable fofint : Z → float64.
Variables fadd fsub fdiv : float64 → float64 → float64.
Variables feqb fgtb : float64 → float64 → bool.
Variable sortSlice : ∀ A : Type, (A → A → bool) → list A → list A.

Local Abbreviation wordF := (word float64).
Local Abbreviation sortWords' :=
  (sortWords float64 fzero fofint fadd fsub fdiv feqb fgtb sortSlice).
Local Abbreviation suggest' :=
  (suggest float64 fzero fofint fadd fsub fdiv feqb fgtb sortSlice).

(** The guess of one round of the simulation and the array of [words]
    after it: [sortWords] sorts the array in place. *)
Definition simulate_guess (guess0 : list Z) (n : Z) (words : list wordF)
  : result (list Z * list wordF) :=
  if decide (n = 0 ∧ guess0 ≠ []) then Ok (guess0, words)
  else
    words' ← sortWords' words;
    w ← index words' (length words' - 1);
    Ok (w_word w, words').

(** The loop [for len(words) > 0] of the simulation, run for at most
    [fuel] rounds; [None] when the rounds do not suffice.  [c] is the one
    model the loop clears and fills again. *)
Fixpoint simulate (fuel : nat) (answer guess0 : list Z) (c : constraints)
    (words : list wordF) (n : Z) : result (option verdict) :=
  match fuel with
  | O => Ok None
  | S fuel' =>
      if decide (0 < length words)%nat then
        '(guess, words1) ← simulate_guess guess0 n words;
        let n := incr n in
        if decide (guess = answer) then Ok (Some (Passed n))
        else
          let c := clearConstraints c in
          c' ← applyDiffConstraint c guess answer;
          words2 ← filter c' words1;
          simulate fuel' answer guess0 c' words2 n
      else Ok (Some (Failed n))
  end.

(** [main] with the flag [-answer]. *)
Definition main_answer (fuel : nat) (answer guess0 : list Z) (words : list wordF)
  : result (option verdict) :=
  simulate fuel answer guess0 newConstraints words 0.

(** The loop [for len(words) > 1] of the interactive mode on the lines
    that standard input still holds: the words left and what was
    written. *)
Fixpoint interact (input : list (list Z)) (words : list wordF)
  : result (list wordF * list (event float64)) :=
  if decide (1 < length words)%nat then
    match input with
    | [] => Ok (words, [Prompt])
    | line :: input' =>
        if decide (line = bytes "quit") then Ok (words, [Prompt])
        else
          c ← inputConstraints line;
          match c with
          | None =>
              r ← interact input' words;
              Ok (r.1, Prompt :: Help :: r.2)
          | Some c =>
              words1 ← filter c words;
              s ← suggest' words1;
              words2 ← sortWords' words1;
              r ← interact input' words2;
              Ok (r.1, Prompt :: Suggested (printed float64 s) (candidates float64 s) :: r.2)
          end
    end
  else Ok (words, []).

(** [main] without [-answer]: [suggest] sorts the array it is given. *)
Definition main_interactive (input : list (list Z)) (words : list wordF)
  : result (list wordF * list (event float64)) :=
  s ← suggest' words;
  words' ← sortWords' words;
  r ← interact input words';
  Ok (r.1, Suggested (printed float64 s) (candidates float64 s) :: r.2).

End Play.

Definition main_interactiveQ
  : list (list Z) → list (word Q) → result (list (word Q) * list (event Q)) :=
  main_interactive Q 0%Q inject_Z Qplus Qminus Qdiv Qeq_bool Qgtb insertionSort.

(** ** Reading the frequency list *)

(** [strings.IndexFunc(w, func(r rune) bool { return r < 'a' || r > 'z' })]:
    as long as the bytes read are lowercase letters the runes of [w] are
    its bytes, and a byte from 0x80 on starts a rune above ['z'] (the
    replacement rune when the encoding is not valid), so the index found is
    that of the first byte that is not a lowercase letter, -1 when there is
    none. *)
Fixpoint IndexFunc_from (w : list Z) (i : Z) : Z :=
  match w with
  | [] => -1
  | b :: w' => if decide (b < ch_a ∨ b > ch_z) then i else IndexFunc_from w' (i + 1)
  end.

Definition IndexFunc_notLower (w : list Z) : Z := IndexFunc_from w 0.

(** How a function that may call [os.Exit(1)] ends. *)
Inductive ending (A : Type) : Type :=
  | Returned (a : A)
  | Exited.
Arguments Returned {A} a.
Arguments Exited {A}.

Section Loading.

(** [strconv.Atoi] of the Go library, [None] when it returns an error. *)
Variable Atoi : list Z → option Z.

Context {F : Type}.

(** The zero value of [exp]. *)
Variable zero : F.

(** The body of the scanning loop on one line; [continue] returns the
    list as it is. *)
Definition initialCandidates_line (line : list Z) (words : list (word F))
  : result (ending (list (word F))) :=
  let fields := Fields line in
  w ← index fields 0;
  if decide (length w ≠ 5%nat ∨ IndexFunc_notLower w >= 0) then Ok (Returned words)
  else
    f ← index fields 1;
    match Atoi f with
    | None => Ok Exited
    | Some freq =>
        Ok (Returned (words ++ [{| w_word := w; w_freq := freq; w_score := 0;
                                   w_exp := zero |}]))
    end.

(** [for scanner.Scan()] on the lines the scanner still returns. *)
Fixpoint initialCandidates_scan (lines : list (list Z)) (words : list (word F))
  : result (ending (list (word F))) :=
  match lines with
  | [] => Ok (Returned words)
  | line :: lines' =>
      r ← initialCandidates_line line words;
      match r with
      | Exited => Ok Exited
      | Returned words' => initialCandidates_scan lines' words'
      end
  end.

(** [file] is [None] when [ioutil.ReadFile] fails; otherwise it gives the
    lines [scanner.Text()] returns one after the other and whether
    [scanner.Err()] reports an error once [scanner.Scan()] has returned
    false. *)
Definition initialCandidates (file : option (list (list Z) * bool))
  : result (ending (list (word F))) :=
  match file with
  | None => Ok Exited
  | Some (lines, scanErr) =>
      r ← initialCandidates_scan lines [];
      match r with
      | Exited => Ok Exited
      | Returned words => if scanErr : bool then Ok Exited else Ok (Returned words)
      end
  end.

(** The pair a line of the list stands for: a five-letter word and the
    number after it. *)
Definition lineEntry (line : list Z) : option (list Z * Z) :=
  match Fields line with
  | w :: f :: _ => if decide (wfWord w) then (λ freq, (w, freq)) <$> Atoi f else None
  | _ => None
  end.

(** A line the loop gets past: its first field is not a five-letter word,
    or a second field follows that [Atoi] reads. *)
Definition goodLine (line : list Z) : Prop :=
  match Fields line with
  | [] => False
  | [w] => ¬ wfWord w
  | w :: f :: _ => wfWord w → is_Some (Atoi f)
  end.

End Loading.

(** A reader of unsigned decimal numbers for the examples, in the place of
    [strconv.Atoi]. *)
Fixpoint readDigits (s : list Z) (acc : Z) : option Z :=
  match s with
  | [] => Some acc
  | d :: s' => if decide (48 ≤ d ≤ 57) then readDigits s' (10 * acc + (d - 48)) else None
  end.

Definition readDecimal (s : list Z) : option Z :=
  match s with
  | [] => None
  | _ => readDigits s 0
  end.

Global Instance goodLine_dec Atoi line : Decision (goodLine Atoi line).
Proof. unfold goodLine. destruct (Fields line) as [|w [|f fields]]; apply _. Defined.

(** A frequency list: two entries, a word that is too short, a word with
    a capital letter and nothing after it. *)
Definition sampleList : list (list Z) :=
  [bytes "glass 50"; bytes "the 1000"; bytes "arose 40 x"; bytes "Hello"].

(** ** Reading a feedback line *)

(** Field [i] of the line is the operator [op] followed by the letter
    [b]. *)
Definition tokenAt (line : list Z) (i : nat) (op b : Z) : Prop :=
  Fields line !! i = Some [op; b].

(** The letters of the [~] fields, in the order of the line. *)
Definition tildeLetters (fields : list (list Z)) : list Z :=
  omap (λ t, match t with
             | [op; b] => if decide (op = ch_tilde) then Some b else None
             | _ => None
             end) fields.

(** ** Reading the models of the variant that ignores multiplicity *)

(** The two arrays of a model have their five elements. *)
Definition simpleWf (c : Simple.constraints) : Prop :=
  length (Simple.position c) = 5%nat ∧ length (Simple.notPosition c) = 5%nat.

(** A word agrees with a model of that variant: it has the fixed
    letters, none of the letters excluded at a position, every required
    letter somewhere and no forbidden letter anywhere. *)
Definition simpleConsistent (c : Simple.constraints) (w : list Z) : Prop :=
  (∀ i got want, w !! i = Some got → Simple.position c !! i = Some want →
                 want ≠ 0 → got = want) ∧
  (∀ i got row, w !! i = Some got → Simple.notPosition c !! i = Some row → got ∉ row) ∧
  (∀ b, b ∈ Simple.contains c → b ∈ w) ∧
  (∀ b, b ∈ Simple.notContains c → b ∉ w).

(** The letters the diff of the variant appends to [contains] (when
    [inAnswer] is true) or to [notContains], from the first [k] positions
    of the guess. *)
Definition simpleLetters (inAnswer : bool) (guess answer : list Z) (k : nat) : list Z :=
  omap (λ j, match guess !! j with
             | Some g =>
                 if decide (guess !! j ≠ answer !! j ∧
                            bool_decide (g ∈ answer) = inAnswer)
                 then Some g else None
             | None => None
             end) (seq 0 k).

(** Whether [satisfies] of the variant returns true. *)
Definition simpleKeeps {F} (c : Simple.constraints) (w : word F) : bool :=
  match Simple.satisfies c (w_word w) with
  | Ok true => true
  | _ => false
  end.

(** ** The mean that [expectedNextSetSize] estimates *)

(** Number of words of the pool left by the feedback to [guess] when the
    answer is [answer]. *)
Definition survivors {F} (words : list (word F)) (guess answer : list Z) : Z :=
  match applyDiffConstraint newConstraints guess answer ≫= λ c, filter c words with
  | Ok out => Z.of_nat (length out)
  | Panic => 0
  end.

(** The sum of these numbers over the words of [answers], each one taken
    as the answer. *)
Definition totalSurvivors {F} (words answers : list (word F)) (guess : list Z) : Z :=
  foldr Z.add 0 ((λ w, survivors words guess (w_word w)) <$> answers).

(** ** The simulation of the variant that ignores multiplicity

    In the second document of wordle.go the functions from [suggest] to
    [expectedNextSetSize] have the text of the first, and call the
    [clearConstraints], [applyDiffConstraint] and [satisfies] of their own
    document; [main] simulates play with another loop. *)
Module SimpleRanking.
Section Ranking.

Variable float64 : Type.
Variable fzero : float64.
Variable fofint : Z → float64.
Variables fadd fsub fdiv : float64 → float64 → float64.
Variables feqb fgtb : float64 → float64 → bool.
Variable sortSlice : ∀ A : Type, (A → A → bool) → list A → list A.

Local Abbreviation wordF := (word float64).

Definition expectedNextSetSize_count (c : Simple.constraints) (words : list wordF) (j : nat)
    (n : Z) : result Z :=
  w ← index words j;
  ok ← Simple.satisfies c (w_word w);
  if ok : bool then Ok (n + 1) else Ok n.

Definition expectedNextSetSize_step (words : list wordF) (guess : list Z) (i : nat)
    (st : Simple.constraints * float64) : result (Simple.constraints * float64) :=
  let c0 := Simple.clearConstraints st.1 in
  w ← index words i;
  c ← Simple.applyDiffConstraint c0 guess (w_word w);
  n ← forLoop (expectedNextSetSize_count c words) 0 (length words) 0;
  Ok (c, meanUpdate float64 fofint fadd fsub fdiv st.2 n i).

Definition expectedNextSetSize (words : list wordF) (guess : list Z) : result float64 :=
  st ← forLoop (expectedNextSetSize_step words guess) 0 (length words)
         (Simple.newConstraints, fzero);
  Ok st.2.

Definition sortWords_exp (off : nat) (i : nat) (words : list wordF)
  : result (list wordF) :=
  w ← index words (off + i);
  e ← expectedNextSetSize words (w_word w);
  w' ← index words (off + i);
  store words (off + i) (set_exp w' e).

Definition sortWords (words : list wordF) : result (list wordF) :=
  posFreq ← letterFreqByPosition words;
  posScore ← letterScoreByPosition sortSlice posFreq;
  words1 ← forLoop (sortWords_score float64 posScore) 0 (length words) words;
  let words2 := sortSlice wordF (lessByScore float64) words1 in
  let n := shortlistSize (length words2) in
  let off := (length words2 - n)%nat in
  _ ← slice words2 off (length words2);
  words3 ← forLoop (sortWords_exp off) 0 n words2;
  top ← slice words3 off (length words3);
  Ok (take off words3 ++ sortSlice wordF (lessByExp float64 feqb fgtb) top).

(** The guess of one round, as in the first document. *)
Definition simulate_guess (guess0 : list Z) (n : Z) (words : list wordF)
  : result (list Z * list wordF) :=
  if decide (n = 0 ∧ guess0 ≠ []) then Ok (guess0, words)
  else
    words' ← sortWords words;
    w ← index words' (length words' - 1);
    Ok (w_word w, words').

(** The loop [for len(words) > 1] of the simulation, run for at most
    [fuel] rounds; the result is the number of guesses printed, [None]
    when the rounds do not suffice. *)
Fixpoint simulate (fuel : nat) (answer guess0 : list Z) (c : Simple.constraints)
    (words : list wordF) (n : Z) : result (option Z) :=
  match fuel with
  | O => Ok None
  | S fuel' =>
      if decide (1 < length words)%nat then
        '(guess, words1) ← simulate_guess guess0 n words;
        let c := Simple.clearConstraints c in
        c' ← Simple.applyDiffConstraint c guess answer;
        words2 ← Simple.filter c' words1;
        simulate fuel' answer guess0 c' words2 (incr n)
      else Ok (Some n)
  end.

(** [main] with the flag [-answer]. *)
Definition main_answer (fuel : nat) (answer guess0 : list Z) (words : list wordF)
  : result (option Z) :=
  simulate fuel answer guess0 Simple.newConstraints words 0.

End Ranking.
End SimpleRanking.




(** ** The feedback line of a diff *)

(** The operator that names the branch [applyDiffConstraint] takes at
    position [i] of the guess: [+] for the exact match of its first loop,
    [~] for the [found] branch of its second loop, [-] for the other. *)
Definition diffOp (guess answer : list Z) (i : nat) : Z :=
  if unmatched guess answer i then
    if present guess answer i then ch_tilde else ch_minus
  else ch_plus.

(** The line spells the diff of [guess] and [answer]: field [i] is the
    operator of position [i] followed by the letter guessed there. *)
Definition spellsDiff (line guess answer : list Z) : Prop :=
  ∀ i g, guess !! i = Some g → tokenAt line i (diffOp guess answer i) g.

(** ** The feedback parser of the variant that ignores multiplicity

    [inputConstraints] of the second document checks the fields as the
    first does, and then reads them in one loop. *)
Module SimpleInput.

(** The loop [for i, field := range fields]; [i] is the index of the
    first field of the list. *)
Fixpoint inputConstraints_fields (fields : list (list Z)) (i : nat) (c : Simple.constraints)
  : result Simple.constraints :=
  match fields with
  | [] => Ok c
  | field :: fields' =>
      op ← index field 0;
      b ← index field 1;
      c' ← (if decide (op = ch_minus) then
              Ok {| Simple.position := Simple.position c;
                    Simple.notPosition := Simple.notPosition c;
                    Simple.contains := Simple.contains c;
                    Simple.notContains := Simple.notContains c ++ [b] |}
            else if decide (op = ch_plus) then
              p ← store (Simple.position c) i b;
              Ok {| Simple.position := p;
                    Simple.notPosition := Simple.notPosition c;
                    Simple.contains := Simple.contains c;
                    Simple.notContains := Simple.notContains c |}
            else if decide (op = ch_tilde) then
              row ← index (Simple.notPosition c) i;
              np ← store (Simple.notPosition c) i (row ++ [b]);
              Ok {| Simple.position := Simple.position c;
                    Simple.notPosition := np;
                    Simple.contains := Simple.contains c ++ [b];
                    Simple.notContains := Simple.notContains c |}
            else Ok c);
      inputConstraints_fields fields' (S i) c'
  end.

(** [None] is the [nil] result. *)
Definition inputConstraints (line : list Z) : result (option Simple.constraints) :=
  let c := Simple.newConstraints in
  let fields := Fields line in
  if decide (length fields ≠ 5%nat) then Ok None
  else
    ok ← inputConstraints_check fields;
    if ok : bool then
      c' ← inputConstraints_fields fields 0 c;
      Ok (Some c')
    else Ok None.

End SimpleInput.

(** The operator that names the branch [applyDiffConstraint] of the
    variant takes at position [i] of the guess. *)
Definition simpleDiffOp (guess answer : list Z) (i : nat) : Z :=
  if decide (guess !! i = answer !! i) then ch_plus
  else if Simple.ContainsRune answer (guess !!! i) then ch_tilde
  else ch_minus.

Definition simpleSpellsDiff (line guess answer : list Z) : Prop :=
  ∀ i g, guess !! i = Some g → tokenAt line i (simpleDiffOp guess answer i) g.

(** The letters of the [-] fields, in the order of the line. *)
Definition minusLetters (fields : list (list Z)) : list Z :=
  omap (λ t, match t with
             | [op; b] => if decide (op = ch_minus) then Some b else None
             | _ => None
             end) fields.

(** ** The program *)

Section Program.

Variable float64 : Type.
Variable fzero : float64.
Variable fofint : Z → float64.
Variables fadd fsub fdiv : float64 → float64 → float64.
Variables feqb fgtb : float64 → float64 → bool.
Variable sortSlice : ∀ A : Type, (A → A → bool) → list A → list A.
Variable Atoi : list Z → option Z.


End Program.


(** * Proofs *)

(** ** The result monad and checked accesses *)

Lemma index_Ok {A} (l : list A) i x : l !! i = Some x → index l i = Ok x.
Proof. unfold index. by intros ->. Qed.

Lemma store_Ok {A} (l : list A) i x : (i < length l)%nat → store l i x = Ok (<[i:=x]> l).
Proof. intros Hi. unfold store. by rewrite decide_True. Qed.

(** Hoare-style rule for a loop whose body never panics under the invariant. *)
Lemma forLoop_inv {St} (I : nat → St → Prop) (body : nat → St → result St) n :
  ∀ lo s,
    I lo s →
    (∀ k s, (lo ≤ k < lo + n)%nat → I k s → ∃ s', body k s = Ok s' ∧ I (S k) s') →
    ∃ s', forLoop body lo n s = Ok s' ∧ I (lo + n)%nat s'.
Proof.
  induction n as [|n IH]; intros lo s HI Hbody; simpl.
  - exists s. by rewrite Nat.add_0_r.
  - destruct (Hbody lo s) as (s1 & -> & HI1); [lia | done |]. simpl.
    destruct (IH (S lo) s1 HI1) as (s2 & Hs2 & HI2).
    { intros k s' Hk. apply Hbody. lia. }
    exists s2. split; [done |]. by replace (lo + S n)%nat with (S lo + n)%nat by lia.
Qed.

(** ** Words *)

Lemma wfWord_lookup w i : wfWord w → (i < 5)%nat → ∃ b, w !! i = Some b ∧ lowercase b.
Proof.
  intros [Hlen Hall] Hi.
  destruct (lookup_lt_is_Some_2 w i) as [b Hb]; [lia |].
  exists b. split; [done |]. by eapply Forall_lookup_1.
Qed.

Lemma lowercase_offset b : lowercase b → (Z.to_nat (byte_sub b ch_a) < 26)%nat.
Proof.
  unfold lowercase, byte_sub, ch_a, ch_z. intros Hb.
  rewrite Z.mod_small by lia. lia.
Qed.

Lemma lowercase_offset_inj b1 b2 :
  lowercase b1 → lowercase b2 →
  Z.to_nat (byte_sub b1 ch_a) = Z.to_nat (byte_sub b2 ch_a) → b1 = b2.
Proof.
  unfold lowercase, byte_sub, ch_a, ch_z. intros H1 H2.
  rewrite !Z.mod_small by lia. lia.
Qed.

Lemma lowercase_nonzero b : lowercase b → b ≠ 0.
Proof. unfold lowercase, ch_a. lia. Qed.

(** ** [satisfies] computes consistency *)

Lemma wfConstraints_position c i :
  wfConstraints c → (i < 5)%nat → ∃ p, position c !! i = Some p.
Proof. intros (Hp & _) Hi. apply lookup_lt_is_Some_2. lia. Qed.

Lemma wfConstraints_row c i :
  wfConstraints c → (i < 5)%nat →
  ∃ row, notPosition c !! i = Some row ∧ length row = 26%nat.
Proof.
  intros (_ & Hn & Hrows) Hi.
  destruct (lookup_lt_is_Some_2 (notPosition c) i) as [row Hrow]; [lia |].
  exists row. split; [done |]. by eapply (Forall_lookup_1 _ _ _ _ Hrows).
Qed.

Lemma satisfies_positions_spec c w n :
  wfConstraints c → wfWord w →
  ∀ i, (i + n ≤ 5)%nat →
    satisfies_positions c w i n = Ok (forallb (positionOk c w) (seq i n)).
Proof.
  intros Hc Hw. induction n as [|n IH]; intros i Hi; [done |].
  destruct (wfWord_lookup w i Hw) as (got & Hgot & Hlow); [lia |].
  destruct (wfConstraints_position c i Hc) as [want Hwant]; [lia |].
  destruct (wfConstraints_row c i Hc) as (row & Hrow & Hlen); [lia |].
  destruct (lookup_lt_is_Some_2 row (Z.to_nat (byte_sub got ch_a))) as [no Hno].
  { rewrite Hlen. by apply lowercase_offset. }
  cbn [satisfies_positions seq forallb].
  unfold positionOk at 1. rewrite Hwant, Hgot.
  rewrite (index_Ok _ _ _ Hgot), (index_Ok _ _ _ Hwant). cbn [mbind result_bind].
  destruct (decide (want ≠ 0)) as [Hnz|Hz].
  - destruct (decide (got ≠ want)) as [Hne|Heq].
    + by rewrite bool_decide_eq_false_2.
    + rewrite bool_decide_eq_true_2 by (by apply dec_stable).
      rewrite IH by lia. done.
  - unfold excluded. rewrite (index_Ok _ _ _ Hrow). cbn [mbind result_bind].
    rewrite (index_Ok _ _ _ Hno), Hrow, Hno. cbn [mbind result_bind].
    destruct no; [done |]. rewrite IH by lia. done.
Qed.

Lemma satisfies_found_spec c w b n :
  wfConstraints c → wfWord w →
  ∀ i, (i + n ≤ 5)%nat →
    satisfies_found c w b i n = Ok (existsb (foundUnfixed c w b) (seq i n)).
Proof.
  intros Hc Hw. induction n as [|n IH]; intros i Hi; [done |].
  destruct (wfWord_lookup w i Hw) as (got & Hgot & Hlow); [lia |].
  destruct (wfConstraints_position c i Hc) as [p Hp]; [lia |].
  cbn [satisfies_found seq existsb].
  unfold foundUnfixed at 1. rewrite Hp, Hgot.
  rewrite (index_Ok _ _ _ Hp). cbn [mbind result_bind].
  destruct (decide (p = 0)) as [Hz|Hnz].
  - rewrite (index_Ok _ _ _ Hgot). cbn [mbind result_bind].
    rewrite (bool_decide_eq_true_2 _ Hz).
    destruct (decide (got = b)) as [Hb|Hb].
    + by rewrite (bool_decide_eq_true_2 _ Hb).
    + rewrite (bool_decide_eq_false_2 _ Hb). cbn [andb orb]. by apply IH; lia.
  - rewrite (bool_decide_eq_false_2 _ Hnz). cbn [andb orb]. by apply IH; lia.
Qed.

Lemma satisfies_contains_spec c w bs :
  wfConstraints c → wfWord w →
  satisfies_contains c w bs =
    Ok (forallb (λ b, existsb (foundUnfixed c w b) (seq 0 5)) bs).
Proof.
  intros Hc Hw. induction bs as [|b bs IH]; [done |].
  cbn [satisfies_contains forallb].
  rewrite (satisfies_found_spec c w b 5 Hc Hw 0%nat) by lia.
  cbn [mbind result_bind].
  destruct (existsb _ _); [by rewrite IH | done].
Qed.

Lemma satisfies_consistentb c w :
  wfConstraints c → wfWord w → satisfies c w = Ok (consistentb c w).
Proof.
  intros Hc Hw. unfold satisfies, consistentb.
  rewrite (satisfies_positions_spec c w 5 Hc Hw 0%nat) by lia.
  cbn [mbind result_bind].
  destruct (forallb (positionOk c w) _); [| done].
  by rewrite satisfies_contains_spec.
Qed.

Lemma fixedPosition_Some c i l :
  fixedPosition c i = Some l ↔ position c !! i = Some l ∧ l ≠ 0.
Proof.
  unfold fixedPosition. destruct (position c !! i) as [p|]; [| by split; [| intros []]].
  destruct (decide (p = 0)) as [->|Hp]; split; try done.
  - intros [[= <-] ?]. done.
  - intros [= ->]. done.
  - intros [[= ->] _]. done.
Qed.

Lemma fixedPosition_None c i p :
  position c !! i = Some p → fixedPosition c i = None ↔ p = 0.
Proof.
  unfold fixedPosition. intros ->. by destruct (decide (p = 0)).
Qed.

Lemma positionOk_true c w i got :
  wfConstraints c → (i < 5)%nat → w !! i = Some got → lowercase got →
  positionOk c w i = true ↔
    (∀ l, fixedPosition c i = Some l → got = l) ∧
    (excludedAtPosition c i got → fixedPosition c i = Some got).
Proof.
  intros Hc Hi Hgot Hlow.
  destruct (wfConstraints_position c i Hc Hi) as [want Hwant].
  destruct (wfConstraints_row c i Hc Hi) as (row & Hrow & Hlen).
  destruct (lookup_lt_is_Some_2 row (Z.to_nat (byte_sub got ch_a))) as [no Hno].
  { rewrite Hlen. by apply lowercase_offset. }
  unfold positionOk, excludedAtPosition. rewrite Hwant, Hgot, Hrow, Hno.
  setoid_rewrite fixedPosition_Some. rewrite Hwant.
  destruct (decide (want ≠ 0)) as [Hnz|Hz].
  - rewrite bool_decide_eq_true. split.
    + intros ->. split; [intros l [? _]; congruence | by intros _].
    + intros [H1 _]. by apply H1.
  - apply dec_stable in Hz. subst want. destruct no; simpl; split.
    + done.
    + intros [_ H2]. destruct H2 as [[= <-] H3]; [by exists row | done].
    + intros _. split; [intros l [[= <-] ?]; done |].
      intros (row' & [= <-] & ?). congruence.
    + done.
Qed.

Lemma foundUnfixed_true c w b i :
  foundUnfixed c w b i = true ↔ w !! i = Some b ∧ position c !! i = Some 0.
Proof.
  unfold foundUnfixed.
  destruct (position c !! i) as [p|], (w !! i) as [got|];
    try (split; [done | by intros []]).
  rewrite andb_true_iff, !bool_decide_eq_true.
  split; [intros [-> ->] | intros [[= ->] [= ->]]]; done.
Qed.

(** The boolean the code computes is the specification's consistency. *)
Lemma consistentb_consistent c w :
  wfConstraints c → wfWord w → consistentb c w = true ↔ consistent c w.
Proof.
  intros Hc Hw. unfold consistentb, consistent.
  rewrite andb_true_iff, !forallb_forall. split.
  - intros [Hpos Hcont]. split_and!.
    + intros i l Hi Hfix.
      destruct (wfWord_lookup w i Hw Hi) as (got & Hgot & Hlow).
      assert (positionOk c w i = true) as Hok by (apply Hpos, in_seq; lia).
      apply (positionOk_true c w i got) in Hok as [H1 _]; try done.
      rewrite Hgot. f_equal. by apply H1.
    + intros i b Hi Hb Hex.
      assert (lowercase b) as Hlow.
      { destruct Hw as [_ Hall]. by eapply Forall_lookup_1. }
      assert (positionOk c w i = true) as Hok by (apply Hpos, in_seq; lia).
      apply (positionOk_true c w i b) in Hok as [_ H2]; try done. by apply H2.
    + intros b Hb. unfold mustContain in Hb. apply list_elem_of_In in Hb.
      specialize (Hcont b Hb). apply existsb_exists in Hcont as (i & Hi & Hfound).
      apply in_seq in Hi. apply foundUnfixed_true in Hfound as [Hwb Hp0].
      exists i. split_and!; [lia | done |]. by apply (fixedPosition_None c i 0).
    + unfold mustNotContain. intros b Hb. by apply elem_of_nil in Hb.
  - intros (H1 & H2 & H3 & _). split.
    + intros i Hi. apply in_seq in Hi.
      destruct (wfWord_lookup w i Hw) as (got & Hgot & Hlow); [lia |].
      apply (positionOk_true c w i got); try done; [lia |]. split.
      * intros l Hl. specialize (H1 i l). rewrite Hgot in H1.
        assert (Some got = Some l) by (apply H1; [lia | done]). congruence.
      * intros Hex. apply (H2 i got); [lia | done | done].
    + intros b Hb. apply existsb_exists.
      destruct (H3 b) as (i & Hi & Hwb & Hnone).
      { unfold mustContain. by apply list_elem_of_In. }
      exists i. split; [apply in_seq; lia |].
      apply foundUnfixed_true. split; [done |].
      destruct (wfConstraints_position c i Hc Hi) as [p Hp].
      rewrite Hp. f_equal. by apply (fixedPosition_None c i p).
Qed.

(** ** [applyDiffConstraint] *)

Lemma exclude_spec c j g :
  wfConstraints c → (j < 5)%nat → lowercase g →
  ∃ c', exclude c j g = Ok c' ∧ wfConstraints c' ∧
        position c' = position c ∧ contains c' = contains c ∧
        ∀ j' b, lowercase b →
          excludedAtPosition c' j' b ↔ excludedAtPosition c j' b ∨ (j' = j ∧ b = g).
Proof.
  intros Hc Hj Hg.
  destruct (wfConstraints_row c j Hc Hj) as (row & Hrow & Hlen).
  pose proof (lowercase_offset g Hg) as Hoff.
  destruct Hc as (Hp & Hn & Hrows).
  eexists. split.
  { unfold exclude. rewrite (index_Ok _ _ _ Hrow). cbn [mbind result_bind].
    rewrite store_Ok by lia. cbn [mbind result_bind].
    rewrite store_Ok by lia. cbn [mbind result_bind]. reflexivity. }
  split_and!; try done.
  - split_and!; simpl; [done | by rewrite length_insert |].
    apply Forall_insert; [done |]. by rewrite length_insert.
  - intros j' b Hb. unfold excludedAtPosition. simpl.
    destruct (decide (j' = j)) as [->|Hne].
    + rewrite list_lookup_insert_eq by lia. split.
      * intros (row' & [= <-] & Hb').
        destruct (decide (Z.to_nat (byte_sub b ch_a) = Z.to_nat (byte_sub g ch_a))) as [He|He].
        -- right. split; [done |]. by apply lowercase_offset_inj.
        -- left. exists row. split; [done |].
           by rewrite list_lookup_insert_ne in Hb'.
      * intros [(row' & Hrow' & Hb') | [_ ->]].
        -- assert (row' = row) as -> by congruence.
           eexists. split; [done |].
           destruct (decide (Z.to_nat (byte_sub b ch_a) = Z.to_nat (byte_sub g ch_a))) as [He|He].
           ++ rewrite He. apply list_lookup_insert_eq. lia.
           ++ by rewrite list_lookup_insert_ne.
        -- eexists. split; [done |]. apply list_lookup_insert_eq. lia.
    + rewrite list_lookup_insert_ne by done. split; [by left |].
      intros [? | [? _]]; done.
Qed.

Section Diff.
Variables guess answer : list Z.
Hypothesis Hguess : wfWord guess.
Hypothesis Hanswer : wfWord answer.

Lemma unmatched_lookup j g a :
  guess !! j = Some g → answer !! j = Some a →
  unmatched guess answer j = bool_decide (g ≠ a).
Proof.
  intros Hg Ha. unfold unmatched. rewrite Hg, Ha.
  apply bool_decide_ext. split; [intros H ->; by apply H | congruence].
Qed.

Lemma fixedLetter_zero j :
  (j < 5)%nat → fixedLetter guess answer j = 0 ↔ unmatched guess answer j = true.
Proof.
  intros Hj. unfold fixedLetter.
  destruct (unmatched guess answer j); [done |].
  destruct (wfWord_lookup guess j Hguess Hj) as (g & Hg & Hlow).
  rewrite (list_lookup_total_correct _ _ _ Hg).
  split; [| done]. intros ->. by apply lowercase_nonzero in Hlow.
Qed.

(** The first loop fixes exactly the exact matches. *)
Lemma applyDiffConstraint_fixed_spec c :
  wfConstraints c → (∀ j, (j < 5)%nat → position c !! j = Some 0) →
  ∃ c1, forLoop (applyDiffConstraint_fixed guess answer) 0 5 c = Ok c1 ∧
        wfConstraints c1 ∧ notPosition c1 = notPosition c ∧
        contains c1 = contains c ∧
        ∀ j, (j < 5)%nat → position c1 !! j = Some (fixedLetter guess answer j).
Proof.
  intros Hc Hzero.
  destruct (forLoop_inv
    (λ k c1, wfConstraints c1 ∧ notPosition c1 = notPosition c ∧
             contains c1 = contains c ∧
             ∀ j, (j < 5)%nat →
               position c1 !! j =
                 Some (if decide (j < k)%nat then fixedLetter guess answer j else 0))
    (applyDiffConstraint_fixed guess answer) 5 0%nat c) as (c1 & Hrun & HI).
  - split_and!; try done; intros j Hj; rewrite decide_False by lia; by apply Hzero.
  - intros k s Hk (Hs & Hnp & Hcs & Hpos).
    destruct (wfWord_lookup guess k Hguess) as (g & Hg & Hglow); [lia |].
    destruct (wfWord_lookup answer k Hanswer) as (a & Ha & Halow); [lia |].
    unfold applyDiffConstraint_fixed.
    rewrite (index_Ok _ _ _ Hg), (index_Ok _ _ _ Ha). cbn [mbind result_bind].
    assert (fixedLetter guess answer k = if decide (g = a) then g else 0) as Hfl.
    { unfold fixedLetter. rewrite (unmatched_lookup k g a Hg Ha).
      rewrite (list_lookup_total_correct _ _ _ Hg).
      destruct (decide (g = a)) as [Heq|Hne].
      - rewrite bool_decide_eq_false_2; [done | by intros ?].
      - by rewrite bool_decide_eq_true_2. }
    destruct (decide (g = a)) as [Heq|Hne].
    + destruct Hs as (Hp & Hn & Hrows).
      rewrite store_Ok by lia. cbn [mbind result_bind].
      eexists. split; [done |]. split_and!; simpl; try done.
      * split_and!; simpl; [by rewrite length_insert | done | done].
      * intros j Hj. destruct (decide (j = k)) as [->|Hjk].
        -- rewrite list_lookup_insert_eq by lia. rewrite decide_True by lia.
           by rewrite Hfl.
        -- rewrite list_lookup_insert_ne by done. rewrite (Hpos j Hj).
           f_equal. repeat case_decide; try done; lia.
    + exists s. split; [done |]. split_and!; try done.
      intros j Hj. rewrite (Hpos j Hj). f_equal.
      destruct (decide (j = k)) as [->|Hjk].
      * rewrite decide_False by lia. rewrite decide_True by lia. by rewrite Hfl.
      * repeat case_decide; try done; lia.
  - exists c1. destruct HI as (? & ? & ? & Hpos). split_and!; try done.
    intros j Hj. rewrite (Hpos j Hj). by rewrite decide_True by lia.
Qed.

(** The inner loops of the second loop, on a model whose fixed positions
    are the exact matches. *)
Section Fixed.
Variable c : constraints.
Hypothesis Hc : wfConstraints c.
Hypothesis Hpos : ∀ j, (j < 5)%nat → position c !! j = Some (fixedLetter guess answer j).

Lemma applyDiffConstraint_found_spec i :
  (i < 5)%nat →
  forLoop (applyDiffConstraint_found c guess answer i) 0 5 false
    = Ok (present guess answer i).
Proof.
  intros Hi.
  set (f := λ j, unmatched guess answer j && bool_decide (answer !! j = guess !! i)).
  destruct (forLoop_inv (λ k found, found = existsb f (seq 0 k))
    (applyDiffConstraint_found c guess answer i) 5 0%nat false) as (b & Hrun & ->);
    [done | | done].
  intros k found Hk ->.
  destruct (wfWord_lookup guess i Hguess Hi) as (g & Hg & Hglow).
  destruct (wfWord_lookup answer k Hanswer) as (a & Ha & Halow); [lia |].
  unfold applyDiffConstraint_found.
  rewrite (index_Ok _ _ _ (Hpos k ltac:(lia))). cbn [mbind result_bind].
  rewrite seq_S, existsb_app. cbn [existsb Nat.add]. rewrite orb_false_r.
  assert (f k = unmatched guess answer k && bool_decide (a = g)) as ->.
  { subst f. cbv beta. rewrite Ha, Hg. f_equal.
    apply bool_decide_ext. split; congruence. }
  pose proof (fixedLetter_zero k ltac:(lia)) as Hz.
  destruct (decide (fixedLetter guess answer k ≠ 0)) as [Hnz|Hzero].
  - exists (existsb f (seq 0 k)). split; [done |].
    destruct (unmatched guess answer k); [| by rewrite orb_false_r].
    exfalso. apply Hnz. by apply Hz.
  - apply dec_stable in Hzero. apply Hz in Hzero. rewrite Hzero.
    rewrite (index_Ok _ _ _ Ha), (index_Ok _ _ _ Hg). cbn [mbind result_bind andb].
    destruct (decide (a = g)) as [->|Hne].
    + exists true. split; [done |]. rewrite bool_decide_eq_true_2 by done.
      by rewrite orb_true_r.
    + exists (existsb f (seq 0 k)). split; [done |].
      rewrite bool_decide_eq_false_2 by done. by rewrite orb_false_r.
Qed.

Lemma applyDiffConstraint_absent_spec i g :
  guess !! i = Some g →
  ∃ c', forLoop (applyDiffConstraint_absent guess i) 0 5 c = Ok c' ∧
        wfConstraints c' ∧ position c' = position c ∧ contains c' = contains c ∧
        ∀ j b, lowercase b →
          excludedAtPosition c' j b ↔
            excludedAtPosition c j b ∨
            ((j < 5)%nat ∧ unmatched guess answer j = true ∧ b = g).
Proof.
  intros Hg.
  assert (lowercase g) as Hglow.
  { destruct Hguess as [_ Hall]. by eapply Forall_lookup_1. }
  destruct (forLoop_inv
    (λ k c', wfConstraints c' ∧ position c' = position c ∧ contains c' = contains c ∧
             ∀ j b, lowercase b →
               excludedAtPosition c' j b ↔
                 excludedAtPosition c j b ∨
                 ((j < k)%nat ∧ unmatched guess answer j = true ∧ b = g))
    (applyDiffConstraint_absent guess i) 5 0%nat c) as (c' & Hrun & HI).
  - split_and!; try done. intros j b Hb. split; [by left |].
    intros [? | (? & _)]; [done | lia].
  - intros k s Hk (Hs & Hsp & Hsc & Hex).
    unfold applyDiffConstraint_absent.
    rewrite Hsp, (index_Ok _ _ _ (Hpos k ltac:(lia))). cbn [mbind result_bind].
    pose proof (fixedLetter_zero k ltac:(lia)) as Hz.
    destruct (decide (fixedLetter guess answer k = 0)) as [Hzero|Hnz].
    + rewrite (index_Ok _ _ _ Hg). cbn [mbind result_bind].
      destruct (exclude_spec s k g Hs ltac:(lia) Hglow)
        as (s' & -> & Hs' & Hs'p & Hs'c & Hs'ex).
      exists s'. split; [done |]. split_and!; try congruence.
      intros j b Hb. rewrite (Hs'ex j b Hb), (Hex j b Hb).
      apply Hz in Hzero. split.
      * intros [[? | (? & ? & ?)] | [-> ->]]; [by left | right | right];
          split_and!; try done; lia.
      * intros [? | (Hj & Hu & ->)]; [by left; left |].
        destruct (decide (j = k)) as [->|?]; [by right |].
        left; right. split_and!; try done; lia.
    + exists s. split; [done |]. split_and!; try done.
      intros j b Hb. rewrite (Hex j b Hb). split.
      * intros [? | (? & ? & ?)]; [by left | right]. split_and!; try done; lia.
      * intros [? | (Hj & Hu & ->)]; [by left |]. right.
        split_and!; try done.
        destruct (decide (j = k)) as [->|?]; [| lia].
        exfalso. apply Hnz. by apply Hz.
  - exists c'. destruct HI as (? & ? & ? & Hex). by split_and!.
Qed.
End Fixed.

Lemma containedLetters_S n :
  containedLetters guess answer (S n) =
    containedLetters guess answer n ++
      (if contained guess answer n then option_list (guess !! n) else []).
Proof.
  unfold containedLetters. rewrite seq_S, omap_app. f_equal. simpl.
  destruct (contained guess answer n); [| done]. by destruct (guess !! n).
Qed.

Lemma excludedBy_S n j b :
  excludedBy guess answer (S n) j b ↔
    excludedBy guess answer n j b ∨
    (guess !! n = Some b ∧
     ((contained guess answer n = true ∧ j = n) ∨
      (absent guess answer n = true ∧ (j < 5)%nat ∧ unmatched guess answer j = true))).
Proof.
  unfold excludedBy. split.
  - intros (i & Hi & Hb & Hcase).
    destruct (decide (i = n)) as [->|?]; [by right |].
    left. exists i. split_and!; try done; lia.
  - intros [(i & Hi & Hb & Hcase) | [Hb Hcase]].
    + exists i. split_and!; try done; lia.
    + exists n. split_and!; try done; lia.
Qed.

(** The second loop. *)
Lemma applyDiffConstraint_rest_spec c1 :
  wfConstraints c1 →
  (∀ j, (j < 5)%nat → position c1 !! j = Some (fixedLetter guess answer j)) →
  (∀ j b, ¬ excludedAtPosition c1 j b) →
  contains c1 = [] →
  ∃ c', forLoop (applyDiffConstraint_rest guess answer) 0 5 c1 = Ok c' ∧
        wfConstraints c' ∧
        (∀ j, (j < 5)%nat → position c' !! j = Some (fixedLetter guess answer j)) ∧
        contains c' = containedLetters guess answer 5 ∧
        ∀ j b, lowercase b →
          excludedAtPosition c' j b ↔ excludedBy guess answer 5 j b.
Proof.
  intros Hc1 Hpos1 Hnone Hcs1.
  destruct (forLoop_inv
    (λ k c, wfConstraints c ∧
            (∀ j, (j < 5)%nat → position c !! j = Some (fixedLetter guess answer j)) ∧
            contains c = containedLetters guess answer k ∧
            ∀ j b, lowercase b →
              excludedAtPosition c j b ↔ excludedBy guess answer k j b)
    (applyDiffConstraint_rest guess answer) 5 0%nat c1) as (c' & Hrun & HI).
  - split_and!; try done. intros j b Hb. split; [by intros ?%Hnone |].
    intros (i & Hi & _). lia.
  - intros k c Hk (Hc & Hpos & Hcs & Hex).
    destruct (wfWord_lookup guess k Hguess) as (g & Hg & Hglow); [lia |].
    pose proof (fixedLetter_zero k ltac:(lia)) as Hz.
    unfold applyDiffConstraint_rest.
    rewrite (index_Ok _ _ _ (Hpos k ltac:(lia))). cbn [mbind result_bind].
    destruct (decide (fixedLetter guess answer k ≠ 0)) as [Hnz|Hzero].
    + assert (unmatched guess answer k = false) as Hu.
      { destruct (unmatched guess answer k) eqn:E; [| done].
        exfalso. apply Hnz. by apply Hz. }
      exists c. split; [done |]. split_and!; try done.
      * rewrite containedLetters_S. unfold contained. rewrite Hu. simpl.
        by rewrite app_nil_r.
      * intros j b Hb. rewrite excludedBy_S, (Hex j b Hb).
        unfold contained, absent. rewrite Hu. simpl.
        split; [by left |]. intros [? | [_ [[? _] | [? _]]]]; done.
    + apply dec_stable in Hzero. apply Hz in Hzero as Hu.
      rewrite (applyDiffConstraint_found_spec c Hpos k) by lia.
      cbn [mbind result_bind].
      destruct (present guess answer k) eqn:Hpres.
      * rewrite (index_Ok _ _ _ Hg). cbn [mbind result_bind].
        destruct (exclude_spec c k g Hc ltac:(lia) Hglow)
          as (c2 & -> & Hc2 & Hc2p & Hc2c & Hc2ex).
        cbn [mbind result_bind]. eexists. split; [done |].
        split_and!.
        -- done.
        -- simpl. by rewrite Hc2p.
        -- simpl. rewrite containedLetters_S. unfold contained.
           rewrite Hu, Hpres, Hg, Hc2c, Hcs. done.
        -- intros j b Hb. rewrite excludedBy_S.
           unfold contained, absent. rewrite Hu, Hpres, Hg. simpl.
           change (excludedAtPosition c2 j b ↔
             excludedBy guess answer k j b ∨
             Some g = Some b ∧ (true = true ∧ j = k ∨
                                false = true ∧ (j < 5)%nat ∧
                                unmatched guess answer j = true)).
           rewrite (Hc2ex j b Hb), (Hex j b Hb). split.
           ++ intros [? | [-> ->]]; [by left | right]. split; [done | by left].
           ++ intros [? | [[= ->] [[_ ->] | [? _]]]]; [by left | by right | done].
      * destruct (applyDiffConstraint_absent_spec c Hc Hpos k g Hg)
          as (c2 & -> & Hc2 & Hc2p & Hc2c & Hc2ex).
        exists c2. split; [done |]. split_and!.
        -- done.
        -- by rewrite Hc2p.
        -- rewrite containedLetters_S. unfold contained.
           rewrite Hu, Hpres, Hc2c, Hcs. simpl. by rewrite app_nil_r.
        -- intros j b Hb. rewrite excludedBy_S.
           unfold contained, absent. rewrite Hu, Hpres, Hg. simpl.
           rewrite (Hc2ex j b Hb), (Hex j b Hb). split.
           ++ intros [? | (? & ? & ->)]; [by left | right].
              split; [done | by right].
           ++ intros [? | [[= ->] [[? _] | (_ & ? & ?)]]]; [by left | done | by right].
  - exists c'. destruct HI as (? & ? & ? & ?). by split_and!.
Qed.

(** What [applyDiffConstraint] leaves in a cleared model. *)
Lemma applyDiffConstraint_spec c :
  cleared c →
  ∃ c', applyDiffConstraint c guess answer = Ok c' ∧
        wfConstraints c' ∧
        (∀ j, (j < 5)%nat → position c' !! j = Some (fixedLetter guess answer j)) ∧
        contains c' = containedLetters guess answer 5 ∧
        ∀ j b, lowercase b →
          excludedAtPosition c' j b ↔ excludedBy guess answer 5 j b.
Proof.
  intros (Hc & Hzero & Hnone & Hcs).
  destruct (applyDiffConstraint_fixed_spec c Hc Hzero)
    as (c1 & Hrun1 & Hc1 & Hnp1 & Hcs1 & Hpos1).
  destruct (applyDiffConstraint_rest_spec c1 Hc1 Hpos1) as (c' & Hrun2 & H2).
  - intros j b. unfold excludedAtPosition. rewrite Hnp1. apply Hnone.
  - by rewrite Hcs1.
  - exists c'. split; [| done].
    unfold applyDiffConstraint. rewrite Hrun1. done.
Qed.
End Diff.

Lemma newConstraints_cleared : cleared newConstraints.
Proof.
  split_and!; try done.
  - split_and!; try done. simpl. by repeat constructor.
  - intros j Hj. simpl. do 5 (destruct j as [|j]; [done |]). lia.
  - intros j b (row & Hrow & Hb). unfold newConstraints in Hrow. cbn [notPosition] in Hrow.
    apply list_elem_of_lookup_2 in Hrow. apply elem_of_replicate in Hrow as [-> _].
    apply list_elem_of_lookup_2 in Hb. by apply elem_of_replicate in Hb as [? _].
Qed.

Lemma clearConstraints_cleared c : wfConstraints c → cleared (clearConstraints c).
Proof.
  intros (Hp & Hn & Hrows). split_and!.
  - split_and!; simpl; [by rewrite length_fmap | by rewrite length_fmap |].
    apply Forall_fmap. apply Forall_forall. intros row Hrow. simpl.
    rewrite length_fmap. rewrite Forall_forall in Hrows. by apply Hrows.
  - intros j Hj. simpl. rewrite list_lookup_fmap.
    destruct (lookup_lt_is_Some_2 (position c) j) as [p ->]; [lia | done].
  - intros j b (row & Hrow & Hb). simpl in Hrow.
    rewrite list_lookup_fmap in Hrow.
    destruct (notPosition c !! j) as [row0|]; [| done].
    simpl in Hrow. injection Hrow as <-.
    rewrite list_lookup_fmap in Hb. by destruct (row0 !! _).
  - done.
Qed.

Lemma present_true guess answer i :
  present guess answer i = true ↔
    ∃ j, (j < 5)%nat ∧ unmatched guess answer j = true ∧ answer !! j = guess !! i.
Proof.
  unfold present. rewrite existsb_exists. split.
  - intros (j & Hj & Hb). apply in_seq in Hj.
    apply andb_true_iff in Hb as [Hu He]. apply bool_decide_eq_true in He.
    exists j. split_and!; [lia | done | done].
  - intros (j & Hj & Hu & He). exists j. split; [apply in_seq; lia |].
    rewrite Hu. by apply bool_decide_eq_true.
Qed.

Lemma elem_of_containedLetters guess answer n b :
  b ∈ containedLetters guess answer n ↔
    ∃ i, (i < n)%nat ∧ contained guess answer i = true ∧ guess !! i = Some b.
Proof.
  unfold containedLetters. rewrite list_elem_of_omap. split.
  - intros (i & Hi & Hb). apply elem_of_seq in Hi.
    destruct (contained guess answer i) eqn:E; [| done].
    exists i. split_and!; [lia | done | done].
  - intros (i & Hi & Hc & Hb). exists i. split; [apply elem_of_seq; lia |].
    by rewrite Hc.
Qed.

Lemma unmatched_true guess answer j :
  unmatched guess answer j = true ↔ guess !! j ≠ answer !! j.
Proof. unfold unmatched. apply bool_decide_eq_true. Qed.

Lemma unmatched_false guess answer j :
  unmatched guess answer j = false ↔ guess !! j = answer !! j.
Proof.
  unfold unmatched. rewrite bool_decide_eq_false. split; [apply dec_stable | by intros ? ?].
Qed.

(** The answer is consistent with the model its own diff builds. *)
Lemma applyDiffConstraint_sound c guess answer :
  wfWord guess → wfWord answer → cleared c →
  ∃ c', applyDiffConstraint c guess answer = Ok c' ∧ wfConstraints c' ∧
        consistent c' answer.
Proof.
  intros Hguess Hanswer Hclr.
  destruct (applyDiffConstraint_spec guess answer Hguess Hanswer c Hclr)
    as (c' & Hrun & Hc' & Hpos & Hcs & Hex).
  exists c'. split_and!; try done. unfold consistent. split_and!.
  - intros i l Hi Hfix. apply fixedPosition_Some in Hfix as [Hl Hnz].
    rewrite (Hpos i Hi) in Hl. injection Hl as Hl.
    unfold fixedLetter in Hl. destruct (unmatched guess answer i) eqn:Hu; [done |].
    apply unmatched_false in Hu. rewrite <- Hu.
    destruct (wfWord_lookup guess i Hguess Hi) as (g & Hg & _).
    rewrite (list_lookup_total_correct _ _ _ Hg) in Hl. congruence.
  - intros i b Hi Hb Hexcl. exfalso.
    assert (lowercase b) as Hlow.
    { destruct Hanswer as [_ Hall]. by eapply Forall_lookup_1. }
    apply (Hex i b Hlow) in Hexcl as (k & Hk & Hgk & Hcase).
    destruct Hcase as [[Hcont ->] | (Habs & _ & Hu)].
    + apply andb_true_iff in Hcont as [Hu _]. apply unmatched_true in Hu. congruence.
    + apply andb_true_iff in Habs as [_ Hnp]. apply negb_true_iff in Hnp.
      assert (present guess answer k = true); [| congruence].
      apply present_true. exists i. split_and!; [done | done | congruence].
  - intros b Hb. unfold mustContain in Hb. rewrite Hcs in Hb.
    apply elem_of_containedLetters in Hb as (k & Hk & Hcont & Hgk).
    apply andb_true_iff in Hcont as [_ Hpres].
    apply present_true in Hpres as (j & Hj & Hu & Haj).
    exists j. split_and!; [done | congruence |].
    apply (fixedPosition_None c' j _ (Hpos j Hj)).
    by apply fixedLetter_zero.
  - intros b Hb. by apply elem_of_nil in Hb.
Qed.

(** ** [filter] *)

Lemma slice_prefix {A} (l : list A) i : (i ≤ length l)%nat → slice l 0 i = Ok (take i l).
Proof.
  intros Hi. unfold slice. rewrite decide_True by lia.
  by rewrite Nat.sub_0_r, drop_0.
Qed.

(** The in-place loop keeps, in order, the words [satisfies] accepts. *)
Lemma filter_List_filter {F} c (words : list (word F)) :
  wfConstraints c → wfCatalog words →
  filter c words = Ok (List.filter (λ w, consistentb c (w_word w)) words).
Proof.
  intros Hc Hwords.
  set (keep := λ w : word F, consistentb c (w_word w)).
  destruct (forLoop_inv
    (λ k (st : list (word F) * nat),
       (st.2 ≤ k)%nat ∧ length st.1 = length words ∧
       take st.2 st.1 = List.filter keep (take k words) ∧
       drop k st.1 = drop k words)
    (filter_step c) (length words) 0%nat (words, 0%nat)) as (st & Hrun & HI).
  - by split_and!.
  - intros k [arr i] Hk (Hik & Hlen & Htake & Hdrop). simpl in *.
    destruct (lookup_lt_is_Some_2 words k) as [w Hw]; [lia |].
    assert (arr !! k = Some w) as Harr.
    { rewrite <- (Nat.add_0_r k), <- lookup_drop, Hdrop, lookup_drop.
      by rewrite Nat.add_0_r. }
    assert (wfWord (w_word w)) as Hwf.
    { by eapply (Forall_lookup_1 _ _ _ _ Hwords). }
    unfold filter_step. simpl.
    rewrite (index_Ok _ _ _ Harr). cbn [mbind result_bind].
    rewrite (satisfies_consistentb c _ Hc Hwf). cbn [mbind result_bind].
    rewrite (take_S_r _ _ _ Hw), List.filter_app. cbn [List.filter].
    fold (keep w). destruct (keep w).
    + rewrite store_Ok by lia. cbn [mbind result_bind].
      eexists. split; [done |]. simpl. split_and!.
      * lia.
      * by rewrite length_insert.
      * rewrite <- Htake.
        rewrite (take_S_r _ _ w) by (apply list_lookup_insert_eq; lia).
        by rewrite take_insert_ge by lia.
      * rewrite drop_insert_lt by lia.
        replace (S k) with (k + 1)%nat by lia.
        by rewrite <- !(drop_drop _ 1 k), Hdrop.
    + exists (arr, i). split; [done |]. simpl. split_and!.
      * lia.
      * done.
      * by rewrite app_nil_r.
      * replace (S k) with (k + 1)%nat by lia.
        by rewrite <- !(drop_drop _ 1 k), Hdrop.
  - destruct st as [arr i]. destruct HI as (Hik & Hlen & Htake & _). simpl in *.
    unfold filter. rewrite Hrun. cbn [mbind result_bind]. simpl.
    rewrite slice_prefix by lia. rewrite Htake.
    by rewrite firstn_all.
Qed.

Lemma wfCatalog_filter {F} (keep : word F → bool) words :
  wfCatalog words → wfCatalog (List.filter keep words).
Proof.
  unfold wfCatalog. rewrite !Forall_forall. intros H w Hw.
  apply list_elem_of_In, List.filter_In in Hw as [Hw _]. by apply H, list_elem_of_In.
Qed.

Lemma List_filter_idem {A} (keep : A → bool) l :
  List.filter keep (List.filter keep l) = List.filter keep l.
Proof.
  induction l as [|x l IH]; [done |]. simpl.
  destruct (keep x) eqn:E; [| done]. simpl. by rewrite E, IH.
Qed.

(** ** [inputConstraints] *)

Lemma inputConstraints_check_true fields :
  Forall wellFormedToken fields → inputConstraints_check fields = Ok true.
Proof.
  induction 1 as [|t fields (op & b & -> & Hop & Hb) _ IH]; [done |].
  cbn [inputConstraints_check length]. rewrite decide_False by (by intros ?).
  cbn [index lookup list_lookup mbind result_bind].
  rewrite decide_False; [done |].
  unfold lowercase, ch_a, ch_z, ch_plus, ch_tilde, ch_minus in *. lia.
Qed.

Lemma inputConstraints_check_false fields :
  ¬ Forall wellFormedToken fields → inputConstraints_check fields = Ok false.
Proof.
  induction fields as [|t fields IH]; intros Hnot.
  { exfalso. apply Hnot. constructor. }
  cbn [inputConstraints_check].
  destruct (decide (length t ≠ 2%nat)) as [?|Hlen]; [done |].
  apply dec_stable in Hlen.
  destruct t as [|op [|b [|? ?]]]; try done.
  cbn [index lookup list_lookup mbind result_bind].
  destruct (decide _) as [?|Hok]; [done |].
  apply IH. intros Hall. apply Hnot. constructor; [| done].
  exists op, b. split; [done |].
  unfold lowercase, ch_a, ch_z, ch_plus, ch_tilde, ch_minus in *. lia.
Qed.

Lemma set_contains_wf c cs : wfConstraints c → wfConstraints (set_contains c cs).
Proof. done. Qed.

Lemma inputConstraints_marks_Ok fields :
  Forall wellFormedToken fields →
  ∀ i c, (i + length fields ≤ 5)%nat → wfConstraints c →
    ∃ c', inputConstraints_marks fields i c = Ok c' ∧ wfConstraints c'.
Proof.
  induction 1 as [|t fields (op & b & -> & Hop & Hb) _ IH]; intros i c Hi Hc.
  { by exists c. }
  cbn [length] in Hi. cbn [inputConstraints_marks].
  cbn [index lookup list_lookup mbind result_bind].
  destruct (decide (op = ch_plus)) as [?|Hnp].
  - pose proof Hc as (Hp & Hn & Hrows).
    rewrite store_Ok by lia. cbn [mbind result_bind].
    apply IH; [lia |]. split_and!; simpl; [by rewrite length_insert | done | done].
  - destruct (decide (op = ch_tilde)) as [?|Hnt].
    + destruct (exclude_spec c i b Hc ltac:(lia) Hb) as (c1 & -> & Hc1 & _).
      cbn [mbind result_bind]. apply IH; [lia |]. by apply set_contains_wf.
    + cbn [mbind result_bind]. apply IH; [lia | done].
Qed.

Lemma inputConstraints_minus_Ok op b c :
  lowercase b → wfConstraints c →
  ∃ c', forLoop (inputConstraints_minus [op; b]) 0 5 c = Ok c' ∧ wfConstraints c'.
Proof.
  intros Hb Hc.
  destruct (forLoop_inv (λ _ c', wfConstraints c') (inputConstraints_minus [op; b])
              5 0%nat c) as (c' & Hrun & Hc'); [done | | by exists c'].
  intros k s Hk Hs. unfold inputConstraints_minus.
  destruct (wfConstraints_position s k Hs) as [p Hp]; [lia |].
  rewrite (index_Ok _ _ _ Hp). cbn [mbind result_bind].
  destruct (decide (p = 0)); [| by exists s].
  cbn [index lookup list_lookup mbind result_bind].
  destruct (exclude_spec s k b Hs ltac:(lia) Hb) as (s' & -> & Hs' & _).
  by exists s'.
Qed.

Lemma inputConstraints_absent_Ok fields :
  Forall wellFormedToken fields →
  ∀ c, wfConstraints c →
    ∃ c', inputConstraints_absent fields c = Ok c' ∧ wfConstraints c'.
Proof.
  induction 1 as [|t fields (op & b & -> & Hop & Hb) _ IH]; intros c Hc.
  { by exists c. }
  cbn [inputConstraints_absent].
  cbn [index lookup list_lookup mbind result_bind].
  destruct (decide (op ≠ ch_minus)) as [?|_].
  - cbn [mbind result_bind]. by apply IH.
  - destruct (inputConstraints_minus_Ok op b c Hb Hc) as (c1 & -> & Hc1).
    cbn [mbind result_bind]. by apply IH.
Qed.

Lemma newConstraints_wf : wfConstraints newConstraints.
Proof. apply newConstraints_cleared. Qed.

Lemma inputConstraints_wellFormed line :
  wellFormedLine line →
  ∃ c, inputConstraints line = Ok (Some c) ∧ wfConstraints c.
Proof.
  intros [Hlen Hall]. unfold inputConstraints.
  rewrite decide_False by (by intros ?).
  rewrite (inputConstraints_check_true _ Hall). cbn [mbind result_bind].
  destruct (inputConstraints_marks_Ok _ Hall 0%nat newConstraints)
    as (c1 & -> & Hc1); [lia | apply newConstraints_wf |].
  cbn [mbind result_bind].
  destruct (inputConstraints_absent_Ok _ Hall c1 Hc1) as (c2 & -> & Hc2).
  by exists c2.
Qed.

Lemma inputConstraints_malformed line :
  ¬ wellFormedLine line → inputConstraints line = Ok None.
Proof.
  intros Hnot. unfold inputConstraints.
  destruct (decide (length (Fields line) ≠ 5%nat)) as [?|Hlen]; [done |].
  apply dec_stable in Hlen.
  rewrite inputConstraints_check_false; [done |].
  intros Hall. apply Hnot. by split.
Qed.

(** ** Insertion sort meets what is asked of [sort.Slice] *)

Lemma insertSorted_Permutation {A} (less : A → A → bool) x l :
  insertSorted less x l ≡ₚ x :: l.
Proof.
  induction l as [|y l IH]; [done |]. simpl.
  destruct (less x y); [done |]. rewrite IH. apply Permutation_swap.
Qed.

Lemma insertionSort_Permutation {A} (less : A → A → bool) l :
  insertionSort A less l ≡ₚ l.
Proof.
  induction l as [|x l IH]; [done |]. unfold insertionSort in *. simpl.
  by rewrite insertSorted_Permutation, IH.
Qed.

Lemma sortedBy_nil {A} (less : A → A → bool) : sortedBy less [].
Proof. intros i j a b _ Hi. by rewrite lookup_nil in Hi. Qed.

Lemma sortedBy_cons {A} (less : A → A → bool) x l :
  sortedBy less (x :: l) ↔ (∀ y, y ∈ l → less y x = false) ∧ sortedBy less l.
Proof.
  split.
  - intros Hs. split.
    + intros y [k Hk]%list_elem_of_lookup. apply (Hs 0%nat (S k)); [lia | done | done].
    + intros i j a b Hij Ha Hb. apply (Hs (S i) (S j)); [lia | done | done].
  - intros [Hx Hl] i j a b Hij Ha Hb.
    destruct j as [|j]; [lia |]. simpl in Hb.
    destruct i as [|i].
    + injection Ha as <-. apply Hx. by eapply list_elem_of_lookup_2.
    + apply (Hl i j); [lia | done | done].
Qed.

Lemma insertSorted_sortedBy {A} (less : A → A → bool) x l :
  strictWeakOn less (x :: l) → sortedBy less l → sortedBy less (insertSorted less x l).
Proof.
  intros (Hirr & Htr & Hneg). induction l as [|y l IH]; intros Hs.
  { apply sortedBy_cons. split; [by intros ? ?%elem_of_nil | apply sortedBy_nil]. }
  apply sortedBy_cons in Hs as [Hy Hl]. simpl.
  assert (x ∈ x :: y :: l) as Hx by apply list_elem_of_here.
  assert (y ∈ x :: y :: l) as Hyin by apply list_elem_of_further, list_elem_of_here.
  destruct (less x y) eqn:Hxy.
  - assert (less y x = false) as Hyx.
    { destruct (less y x) eqn:E; [| done].
      rewrite <- (Hirr x Hx). symmetry. by apply (Htr x y x). }
    apply sortedBy_cons. split; [| apply sortedBy_cons; by split].
    intros z [->|Hz]%elem_of_cons; [done |].
    apply (Hneg z y x); [by do 2 apply list_elem_of_further | done | done | by apply Hy | done].
  - apply sortedBy_cons. split.
    + intros z Hz. rewrite insertSorted_Permutation in Hz.
      apply elem_of_cons in Hz as [->|Hz]; [done | by apply Hy].
    + apply IH; [| | | done].
      * intros a Ha. apply Hirr. apply elem_of_cons in Ha as [->|Ha]; [done |].
        by do 2 apply list_elem_of_further.
      * intros a b c Ha Hb Hc. apply Htr.
        all: match goal with H : ?u ∈ _ :: _ |- ?u ∈ _ =>
               apply elem_of_cons in H as [->|H];
               [done | by do 2 apply list_elem_of_further] end.
      * intros a b c Ha Hb Hc. apply Hneg.
        all: match goal with H : ?u ∈ _ :: _ |- ?u ∈ _ =>
               apply elem_of_cons in H as [->|H];
               [done | by do 2 apply list_elem_of_further] end.
Qed.

Lemma strictWeakOn_subset {A} (less : A → A → bool) l l' :
  (∀ a, a ∈ l' → a ∈ l) → strictWeakOn less l → strictWeakOn less l'.
Proof.
  intros Hsub (Hirr & Htr & Hneg). split_and!.
  - intros a Ha. by apply Hirr, Hsub.
  - intros a b c Ha Hb Hc. apply Htr; by apply Hsub.
  - intros a b c Ha Hb Hc. apply Hneg; by apply Hsub.
Qed.

Lemma insertionSort_sortedBy {A} (less : A → A → bool) l :
  strictWeakOn less l → sortedBy less (insertionSort A less l).
Proof.
  induction l as [|x l IH]; intros Hswo; [apply sortedBy_nil |].
  unfold insertionSort in *. simpl. apply insertSorted_sortedBy.
  - eapply strictWeakOn_subset; [| done]. intros a Ha.
    apply elem_of_cons in Ha as [->|Ha]; [apply list_elem_of_here |].
    apply list_elem_of_further. by rewrite (insertionSort_Permutation less l) in Ha.
  - apply IH. eapply strictWeakOn_subset; [| done].
    intros a Ha. by apply list_elem_of_further.
Qed.

(** ** The score tables *)

Lemma updateCell_Ok t i r f :
  wfTable t → (i < 5)%nat → 0 ≤ r < 255 →
  ∃ t', updateCell t i r f = Ok t' ∧ wfTable t'.
Proof.
  intros [Hlen Hrows] Hi Hr.
  destruct (lookup_lt_is_Some_2 t i) as [row Hrow]; [lia |].
  assert (length row = 255%nat) as Hrl by (by eapply (Forall_lookup_1 _ _ _ _ Hrows)).
  destruct (lookup_lt_is_Some_2 row (Z.to_nat r)) as [v Hv]; [lia |].
  unfold updateCell. rewrite (index_Ok _ _ _ Hrow). cbn [mbind result_bind].
  rewrite (index_Ok _ _ _ Hv). cbn [mbind result_bind].
  rewrite store_Ok by lia. cbn [mbind result_bind].
  rewrite store_Ok by lia. eexists. split; [done |]. split.
  - by rewrite length_insert.
  - apply Forall_insert; [done |]. by rewrite length_insert.
Qed.

Lemma storeCell_Ok t i r v :
  wfTable t → (i < 5)%nat → 0 ≤ r < 255 →
  ∃ t', storeCell t i r v = Ok t' ∧ wfTable t'.
Proof.
  intros [Hlen Hrows] Hi Hr.
  destruct (lookup_lt_is_Some_2 t i) as [row Hrow]; [lia |].
  assert (length row = 255%nat) as Hrl by (by eapply (Forall_lookup_1 _ _ _ _ Hrows)).
  unfold storeCell. rewrite (index_Ok _ _ _ Hrow). cbn [mbind result_bind].
  rewrite store_Ok by lia. cbn [mbind result_bind].
  rewrite store_Ok by lia. eexists. split; [done |]. split.
  - by rewrite length_insert.
  - apply Forall_insert; [done |]. by rewrite length_insert.
Qed.

Lemma zeroTable_wf : wfTable zeroTable.
Proof. split; [done |]. unfold zeroTable. simpl. by repeat constructor. Qed.

Lemma runes_wfWord w :
  wfWord w → Forall (λ ir : nat * Z, (ir.1 < 5)%nat ∧ 0 ≤ ir.2 < 255) (runes w).
Proof.
  intros [Hlen Hlow]. apply Forall_lookup. intros k [i r] Hk.
  unfold runes in Hk. rewrite list_lookup_imap in Hk.
  destruct (w !! k) as [b|] eqn:Hb; [| done]. injection Hk as <- <-. simpl.
  pose proof (lookup_lt_Some _ _ _ Hb) as Hlt.
  pose proof (Forall_lookup_1 _ _ _ _ Hlow Hb) as Hbl.
  unfold lowercase, ch_a, ch_z in Hbl. lia.
Qed.

Lemma letterFreqByPosition_word_Ok rs :
  Forall (λ ir : nat * Z, (ir.1 < 5)%nat ∧ 0 ≤ ir.2 < 255) rs →
  ∀ freq, wfTable freq →
    ∃ freq', letterFreqByPosition_word rs freq = Ok freq' ∧ wfTable freq'.
Proof.
  induction 1 as [|[i r] rs [Hi Hr] _ IH]; intros freq Hfreq; [by exists freq |].
  simpl in Hi, Hr. cbn [letterFreqByPosition_word].
  destruct (updateCell_Ok freq i r (λ v, v + 1) Hfreq Hi Hr) as (freq1 & -> & Hfreq1).
  cbn [mbind result_bind]. by apply IH.
Qed.

Lemma letterFreqByPosition_Ok {F} (words : list (word F)) :
  wfCatalog words → ∃ freq, letterFreqByPosition words = Ok freq ∧ wfTable freq.
Proof.
  intros Hwords.
  destruct (forLoop_inv (λ _ freq, wfTable freq) (letterFreqByPosition_step words)
              (length words) 0%nat zeroTable) as (freq & Hrun & Hfreq);
    [apply zeroTable_wf | | by exists freq].
  intros k freq Hk Hfreq. unfold letterFreqByPosition_step.
  destruct (lookup_lt_is_Some_2 words k) as [w Hw]; [lia |].
  rewrite (index_Ok _ _ _ Hw). cbn [mbind result_bind].
  apply letterFreqByPosition_word_Ok; [| done].
  apply runes_wfWord. by eapply (Forall_lookup_1 _ _ _ _ Hwords).
Qed.

Lemma score_from_Ok posScore rs :
  wfTable posScore →
  Forall (λ ir : nat * Z, (ir.1 < 5)%nat ∧ 0 ≤ ir.2 < 255) rs →
  ∀ s, ∃ s', score_from posScore rs s = Ok s'.
Proof.
  intros [Hlen Hrows]. induction 1 as [|[i r] rs [Hi Hr] _ IH]; intros s; [by exists s |].
  simpl in Hi, Hr. cbn [score_from].
  destruct (lookup_lt_is_Some_2 posScore i) as [row Hrow]; [lia |].
  assert (length row = 255%nat) as Hrl by (by eapply (Forall_lookup_1 _ _ _ _ Hrows)).
  destruct (lookup_lt_is_Some_2 row (Z.to_nat r)) as [v Hv]; [lia |].
  rewrite (index_Ok _ _ _ Hrow). cbn [mbind result_bind].
  rewrite (index_Ok _ _ _ Hv). cbn [mbind result_bind]. apply IH.
Qed.

Lemma score_Ok posScore w :
  wfTable posScore → wfWord w → ∃ s, score posScore w = Ok s.
Proof. intros Ht Hw. apply score_from_Ok; [done | by apply runes_wfWord]. Qed.

(** ** Ranking *)

Section RankingProofs.

Variable float64 : Type.
Variable fzero : float64.
Variable fofint : Z → float64.
Variables fadd fsub fdiv : float64 → float64 → float64.
Variables feqb fgtb : float64 → float64 → bool.
Variable sortSlice : ∀ A : Type, (A → A → bool) → list A → list A.

Local Abbreviation wordF := (word float64).
Local Abbreviation fle' := (fle float64 feqb fgtb).
Local Abbreviation within' := (within float64 fofint feqb fgtb).
Local Abbreviation meanUpdate' := (meanUpdate float64 fofint fadd fsub fdiv).
Local Abbreviation expectedNextSetSize' :=
  (expectedNextSetSize float64 fzero fofint fadd fsub fdiv).
Local Abbreviation lessByExp' := (lessByExp float64 feqb fgtb).
Local Abbreviation prefers' := (prefers float64 feqb fgtb).
Local Abbreviation sortWords' :=
  (sortWords float64 fzero fofint fadd fsub fdiv feqb fgtb sortSlice).
Local Abbreviation suggest' :=
  (suggest float64 fzero fofint fadd fsub fdiv feqb fgtb sortSlice).

(** [sort.Slice] only swaps elements. *)
Hypothesis sortSlice_Permutation :
  ∀ (A : Type) (less : A → A → bool) (l : list A), sortSlice A less l ≡ₚ l.

(** It sorts when [less] is a transitive ordering of the elements. *)
Hypothesis sortSlice_sorted :
  ∀ (A : Type) (less : A → A → bool) (l : list A),
    strictWeakOn less l → sortedBy less (sortSlice A less l).

(** IEEE 754 binary64, round to nearest: the first value of the running
    mean is the first sample, [0 + (x - 0)/1 = x], and the conversion
    from [int] is monotone. *)
Hypothesis mean_first :
  ∀ l n h : Z, l ≤ n ≤ h → within' l h (meanUpdate' fzero n 0).

(** Later values stay between the bounds of the old mean and the sample:
    with [1 <= avg, x] the difference [x - avg] is zero or normal, its
    rounding error is at most one half ulp, and dividing by [k >= 2]
    at least halves it, so [avg + (x - avg)/k] lies between [avg] and
    [x] before the last rounding, which is monotone and keeps the
    representable bounds. *)
Hypothesis mean_next :
  ∀ (l n h : Z) (avg : float64) (i : nat),
    1 ≤ l → l ≤ n ≤ h → h ≤ maxInt → (1 ≤ i)%nat →
    within' l h avg → within' l h (meanUpdate' avg n i).

(** [==] and [>] are the comparisons of a rational label [fkey] of the
    floats: the value of a finite float, a rational beyond the finite
    floats for an infinity, none for a NaN. *)
Variable fkey : float64 → option Q.
Hypothesis feqb_key :
  ∀ x y, feqb x y = true ↔ ∃ p q, fkey x = Some p ∧ fkey y = Some q ∧ (p == q)%Q.
Hypothesis fgtb_key :
  ∀ x y, fgtb x y = true ↔ ∃ p q, fkey x = Some p ∧ fkey y = Some q ∧ (q < p)%Q.

(** *** letterScoreByPosition *)

Lemma identityOrder_bound : Forall (λ b, 0 ≤ b < 255) identityOrder.
Proof.
  unfold identityOrder. apply Forall_fmap, Forall_forall.
  intros k Hk%elem_of_seq. simpl. lia.
Qed.

Lemma letterScoreByPosition_step_Ok posFreq i posScore :
  wfTable posFreq → wfTable posScore → (i < 5)%nat →
  ∃ t, letterScoreByPosition_step sortSlice posFreq i posScore = Ok t ∧ wfTable t.
Proof.
  intros [Hlen Hrows] Hscore Hi.
  destruct (lookup_lt_is_Some_2 posFreq i) as [row Hrow]; [lia |].
  unfold letterScoreByPosition_step.
  rewrite (index_Ok _ _ _ Hrow). cbn [mbind result_bind].
  set (order := sortSlice Z (letterScoreByPosition_less row) identityOrder).
  assert (Forall (λ b, 0 ≤ b < 255) order) as Hord.
  { unfold order. rewrite sortSlice_Permutation. apply identityOrder_bound. }
  destruct (forLoop_inv (λ _ t, wfTable t) (letterScoreByPosition_rank order i)
              (length order) 0%nat posScore) as (t & Hrun & Ht);
    [done | | by exists t].
  intros k t Hk Ht. unfold letterScoreByPosition_rank.
  destruct (lookup_lt_is_Some_2 order k) as [b Hb]; [lia |].
  rewrite (index_Ok _ _ _ Hb). cbn [mbind result_bind].
  apply storeCell_Ok; [done | done |].
  by apply (Forall_lookup_1 _ _ _ _ Hord Hb).
Qed.

Lemma letterScoreByPosition_Ok posFreq :
  wfTable posFreq →
  ∃ t, letterScoreByPosition sortSlice posFreq = Ok t ∧ wfTable t.
Proof.
  intros Hfreq.
  destruct (forLoop_inv (λ _ t, wfTable t) (letterScoreByPosition_step sortSlice posFreq)
              5 0%nat zeroTable) as (t & Hrun & Ht);
    [apply zeroTable_wf | | by exists t].
  intros k t Hk Ht. apply letterScoreByPosition_step_Ok; [done | done | lia].
Qed.

(** *** expectedNextSetSize *)

Lemma expectedNextSetSize_count_spec c (words : list wordF) :
  wfConstraints c → wfCatalog words →
  forLoop (expectedNextSetSize_count float64 c words) 0 (length words) 0 =
    Ok (Z.of_nat (length (List.filter (λ w, consistentb c (w_word w)) words))).
Proof.
  intros Hc Hwords.
  set (keep := λ w : wordF, consistentb c (w_word w)).
  destruct (forLoop_inv
    (λ k n, n = Z.of_nat (length (List.filter keep (take k words))))
    (expectedNextSetSize_count float64 c words) (length words) 0%nat 0)
    as (n & Hrun & Hn); [done | |].
  - intros k n Hk ->.
    destruct (lookup_lt_is_Some_2 words k) as [w Hw]; [lia |].
    assert (wfWord (w_word w)) as Hwf by (by eapply (Forall_lookup_1 _ _ _ _ Hwords)).
    unfold expectedNextSetSize_count.
    rewrite (index_Ok _ _ _ Hw). cbn [mbind result_bind].
    rewrite (satisfies_consistentb c _ Hc Hwf). cbn [mbind result_bind].
    rewrite (take_S_r _ _ _ Hw), List.filter_app, length_app. cbn [List.filter].
    fold (keep w). destruct (keep w); eexists; (split; [done |]); simpl; lia.
  - rewrite Hrun, Hn. simpl. by rewrite firstn_all.
Qed.

Lemma filter_length_bounds {A} (keep : A → bool) l x :
  x ∈ l → keep x = true →
  (1 ≤ length (List.filter keep l) ≤ length l)%nat.
Proof.
  intros Hx Hk. split; [| apply List.filter_length_le].
  assert (x ∈ List.filter keep l) as Hin.
  { apply list_elem_of_In, List.filter_In. split; [by apply list_elem_of_In | done]. }
  destruct (List.filter keep l); [by apply elem_of_nil in Hin | simpl; lia].
Qed.

(** The estimator returns, and its value lies between 1 and the size of
    the pool. *)
Lemma expectedNextSetSize_within (words : list wordF) guess :
  words ≠ [] → Z.of_nat (length words) ≤ maxInt → wfCatalog words → wfWord guess →
  ∃ v, expectedNextSetSize' words guess = Ok v ∧
       within' 1 (Z.of_nat (length words)) v.
Proof.
  intros Hne Hmax Hwords Hguess.
  set (N := Z.of_nat (length words)) in *.
  destruct (forLoop_inv
    (λ i (st : constraints * float64),
       wfConstraints st.1 ∧ (i = 0%nat → st.2 = fzero) ∧
       ((1 ≤ i)%nat → within' 1 N st.2))
    (expectedNextSetSize_step float64 fofint fadd fsub fdiv words guess)
    (length words) 0%nat (newConstraints, fzero)) as (st & Hrun & HI).
  - split_and!; [apply newConstraints_wf | done | simpl; lia].
  - intros i [c avg] Hi (Hc & Hzero & Hin). simpl in *.
    destruct (lookup_lt_is_Some_2 words i) as [w Hw]; [lia |].
    assert (wfWord (w_word w)) as Hwf by (by eapply (Forall_lookup_1 _ _ _ _ Hwords)).
    unfold expectedNextSetSize_step. simpl.
    rewrite (index_Ok _ _ _ Hw). cbn [mbind result_bind].
    destruct (applyDiffConstraint_sound (clearConstraints c) guess (w_word w))
      as (c' & -> & Hc' & Hcons); [done | done | by apply clearConstraints_cleared |].
    cbn [mbind result_bind].
    rewrite (expectedNextSetSize_count_spec c' words Hc' Hwords).
    cbn [mbind result_bind].
    eexists. split; [done |]. simpl. split_and!; [done | lia |]. intros _.
    pose proof (filter_length_bounds (λ w0 : wordF, consistentb c' (w_word w0)) words w)
      as Hb.
    destruct Hb as [Hb1 Hb2];
      [by eapply list_elem_of_lookup_2 | by apply consistentb_consistent |].
    destruct (decide (i = 0%nat)) as [->|Hnz].
    + rewrite (Hzero eq_refl). apply mean_first. unfold N. lia.
    + apply mean_next; [lia | unfold N; lia | done | lia | apply Hin; lia].
  - destruct st as [c v]. destruct HI as (_ & _ & Hin). simpl in *.
    exists v. split.
    + unfold expectedNextSetSize. rewrite Hrun. done.
    + apply Hin. destruct words; [done | simpl; lia].
Qed.

(** *** The comparison of the second sort *)

Lemma fle_key x y : fle' x y → ∃ p q, fkey x = Some p ∧ fkey y = Some q ∧ (p <= q)%Q.
Proof.
  intros [H|H].
  - apply feqb_key in H as (p & q & ? & ? & ?). exists p, q. split_and!; [done..|lra].
  - apply fgtb_key in H as (q & p & ? & ? & ?). exists p, q. split_and!; [done..|lra].
Qed.

Lemma within_key l h v : within' l h v → ∃ q, fkey v = Some q.
Proof. intros [H _]. apply fle_key in H as (p & q & _ & ? & _). by exists q. Qed.

Lemma lessByExp_key a b p q :
  fkey (w_exp a) = Some p → fkey (w_exp b) = Some q →
  lessByExp' a b = true ↔ lessKey a b p q.
Proof.
  intros Hp Hq. unfold lessByExp, lessKey.
  destruct (feqb (w_exp a) (w_exp b)) eqn:Heq.
  - apply feqb_key in Heq as (p' & q' & Hp' & Hq' & Hpq).
    assert (p' = p) as -> by congruence. assert (q' = q) as -> by congruence.
    destruct (decide (w_freq a = w_freq b)) as [Hf|Hf];
      rewrite bool_decide_eq_true; split.
    + intros ?. right. split; [done |]. right. by split.
    + intros [? | [_ [? | [_ ?]]]]; [lra | lia | done].
    + intros ?. right. split; [done |]. by left.
    + intros [? | [_ [? | [? _]]]]; [lra | done | done].
  - assert (¬ (p == q)%Q) as Hne.
    { intros Hpq. assert (feqb (w_exp a) (w_exp b) = true); [| congruence].
      apply feqb_key. by exists p, q. }
    rewrite fgtb_key. split.
    + intros (p' & q' & Hp' & Hq' & Hlt).
      assert (p' = p) as -> by congruence. assert (q' = q) as -> by congruence.
      by left.
    + intros [Hlt | [? _]]; [by exists p, q | done].
Qed.

Lemma lessByExp_strictWeakOn (l : list wordF) :
  (∀ w, w ∈ l → ∃ q, fkey (w_exp w) = Some q) → strictWeakOn lessByExp' l.
Proof.
  intros Hkeys. split_and!.
  - intros a [p Hp]%Hkeys. apply not_true_is_false.
    rewrite (lessByExp_key a a p p Hp Hp). unfold lessKey.
    intros [? | [_ [? | [_ ?]]]]; [lra | lia | lia].
  - intros a b c [p Hp]%Hkeys [q Hq]%Hkeys [r Hr]%Hkeys.
    rewrite (lessByExp_key a b p q Hp Hq), (lessByExp_key b c q r Hq Hr),
      (lessByExp_key a c p r Hp Hr).
    unfold lessKey.
    intros [H1 | [H1 H1']] [H2 | [H2 H2']]; [left; lra | left; lra | left; lra |].
    right. split; [lra | lia].
  - intros a b c [p Hp]%Hkeys [q Hq]%Hkeys [r Hr]%Hkeys.
    rewrite <- !not_true_iff_false.
    rewrite (lessByExp_key a b p q Hp Hq), (lessByExp_key b c q r Hq Hr),
      (lessByExp_key a c p r Hp Hr).
    unfold lessKey. intros H1 H2 H3.
    assert (p <= q)%Q as Hpq by (destruct (Qlt_le_dec q p); [by destruct H1; left | done]).
    assert (q <= r)%Q as Hqr by (destruct (Qlt_le_dec r q); [by destruct H2; left | done]).
    destruct H3 as [H3 | [H3 H3']]; [lra |].
    assert (p == q)%Q as Epq by lra. assert (q == r)%Q as Eqr by lra.
    assert (¬ (w_freq a < w_freq b ∨ w_freq a = w_freq b ∧ w_score a < w_score b)) as N1.
    { intros ?. apply H1. by right. }
    assert (¬ (w_freq b < w_freq c ∨ w_freq b = w_freq c ∧ w_score b < w_score c)) as N2.
    { intros ?. apply H2. by right. }
    lia.
Qed.

Lemma lessByExp_false_prefers a b :
  (∃ p, fkey (w_exp a) = Some p) → (∃ q, fkey (w_exp b) = Some q) →
  lessByExp' b a = false → prefers' a b.
Proof.
  intros [p Hp] [q Hq]. rewrite <- not_true_iff_false.
  rewrite (lessByExp_key b a q p Hq Hp). unfold lessKey, prefers. intros Hnot.
  destruct (Qlt_le_dec q p) as [Hlt|Hle].
  - left. apply fgtb_key. by exists p, q.
  - assert (p == q)%Q as Heq.
    { destruct (Qlt_le_dec p q); [destruct Hnot; by left | lra]. }
    right. split; [apply feqb_key; by exists p, q |].
    assert (¬ (w_freq b < w_freq a ∨ w_freq b = w_freq a ∧ w_score b < w_score a)) as N.
    { intros ?. apply Hnot. right. split; [lra | done]. }
    lia.
Qed.

(** *** sortWords *)

Lemma wfCatalog_texts {F} (ws : list (word F)) :
  wfCatalog ws ↔ Forall wfWord (texts ws).
Proof. unfold wfCatalog, texts. by rewrite Forall_fmap. Qed.

Lemma texts_insert_same {F} (ws : list (word F)) k w w' :
  ws !! k = Some w → w_word w' = w_word w → texts (<[k:=w']> ws) = texts ws.
Proof.
  intros Hk Hw. unfold texts. rewrite list_fmap_insert.
  apply list_insert_id. rewrite list_lookup_fmap, Hk. simpl. by rewrite Hw.
Qed.

Lemma texts_length {F} (ws : list (word F)) : length (texts ws) = length ws.
Proof. unfold texts. by rewrite length_fmap. Qed.

Lemma slice_suffix {A} (l : list A) off :
  (off ≤ length l)%nat → slice l off (length l) = Ok (drop off l).
Proof.
  intros Hoff. unfold slice. rewrite decide_True by lia.
  rewrite take_ge; [done |]. rewrite length_drop. lia.
Qed.

Lemma shortlistSize_le n : (shortlistSize n ≤ n)%nat.
Proof. unfold shortlistSize, smallSetSize, topSetSize. case_decide; lia. Qed.

Lemma sortWords_score_loop posScore (words : list wordF) :
  wfTable posScore → wfCatalog words →
  ∃ words1, forLoop (sortWords_score float64 posScore) 0 (length words) words = Ok words1 ∧
            texts words1 = texts words.
Proof.
  intros Ht Hwords.
  destruct (forLoop_inv (λ _ ws, texts ws = texts words)
              (sortWords_score float64 posScore) (length words) 0%nat words)
    as (ws & Hrun & Hws); [done | | by exists ws].
  intros k ws Hk Hws.
  destruct (lookup_lt_is_Some_2 ws k) as [w Hw].
  { rewrite <- texts_length, Hws, texts_length. lia. }
  assert (wfWord (w_word w)) as Hwf.
  { apply wfCatalog_texts in Hwords. rewrite <- Hws in Hwords.
    apply wfCatalog_texts in Hwords. by eapply (Forall_lookup_1 _ _ _ _ Hwords). }
  unfold sortWords_score. rewrite (index_Ok _ _ _ Hw). cbn [mbind result_bind].
  destruct (score_Ok posScore (w_word w) Ht Hwf) as [sc ->]. cbn [mbind result_bind].
  rewrite store_Ok by (by eapply lookup_lt_Some).
  eexists. split; [done |]. by rewrite (texts_insert_same ws k w).
Qed.

Lemma sortWords_exp_loop (words2 : list wordF) off n :
  wfCatalog words2 → Z.of_nat (length words2) ≤ maxInt → (off + n = length words2)%nat →
  ∃ words3, forLoop (sortWords_exp float64 fzero fofint fadd fsub fdiv off) 0 n words2
              = Ok words3 ∧
            texts words3 = texts words2 ∧
            ∀ k w, (off ≤ k)%nat → words3 !! k = Some w →
                   within' 1 (Z.of_nat (length words2)) (w_exp w).
Proof.
  intros Hwords Hmax Hlen.
  destruct (forLoop_inv
    (λ i ws, texts ws = texts words2 ∧
             ∀ k w, (off ≤ k < off + i)%nat → ws !! k = Some w →
                    within' 1 (Z.of_nat (length words2)) (w_exp w))
    (sortWords_exp float64 fzero fofint fadd fsub fdiv off) n 0%nat words2)
    as (ws & Hrun & Hws & Hexp).
  - split; [done |]. intros k w Hk. lia.
  - intros i ws Hi [Hws Hexp].
    assert (length ws = length words2) as Hwl.
    { by rewrite <- texts_length, Hws, texts_length. }
    assert (wfCatalog ws) as Hwf.
    { apply wfCatalog_texts. rewrite Hws. by apply wfCatalog_texts. }
    destruct (lookup_lt_is_Some_2 ws (off + i)) as [w Hw]; [lia |].
    unfold sortWords_exp. rewrite (index_Ok _ _ _ Hw). cbn [mbind result_bind].
    destruct (expectedNextSetSize_within ws (w_word w)) as (e & -> & Hin).
    { intros ->. by rewrite lookup_nil in Hw. }
    { by rewrite Hwl. }
    { done. }
    { by eapply (Forall_lookup_1 _ _ _ _ Hwf). }
    cbn [mbind result_bind]. rewrite store_Ok by lia.
    eexists. split; [done |]. split.
    + by rewrite (texts_insert_same ws (off + i) w).
    + intros k w' Hk Hw'. destruct (decide (k = (off + i)%nat)) as [->|Hne].
      * rewrite list_lookup_insert_eq in Hw' by lia. injection Hw' as <-.
        simpl. by rewrite <- Hwl.
      * rewrite list_lookup_insert_ne in Hw' by done. apply (Hexp k); [lia | done].
  - exists ws. split_and!; [done | done |].
    intros k w Hk Hw. apply (Hexp k); [| done].
    pose proof (lookup_lt_Some _ _ _ Hw) as Hlt.
    rewrite <- texts_length, Hws, texts_length in Hlt. lia.
Qed.

(** [sortWords] returns; the array holds the same words; from the start
    of the shortlist on, a word is never preferred to a later one. *)
Lemma sortWords_spec (words : list wordF) :
  wfCatalog words → Z.of_nat (length words) ≤ maxInt →
  ∃ words', sortWords' words = Ok words' ∧
            length words' = length words ∧
            texts words' ≡ₚ texts words ∧
            ∀ i j a b,
              (length words - shortlistSize (length words) ≤ i)%nat → (i < j)%nat →
              words' !! i = Some a → words' !! j = Some b → prefers' a b.
Proof.
  intros Hwords Hmax. unfold sortWords.
  destruct (letterFreqByPosition_Ok words Hwords) as (posFreq & -> & Hfreq).
  cbn [mbind result_bind].
  destruct (letterScoreByPosition_Ok posFreq Hfreq) as (posScore & -> & Hscore).
  cbn [mbind result_bind].
  destruct (sortWords_score_loop posScore words Hscore Hwords) as (words1 & -> & Ht1).
  cbn [mbind result_bind].
  set (words2 := sortSlice wordF (lessByScore float64) words1).
  assert (texts words2 ≡ₚ texts words) as Ht2.
  { rewrite <- Ht1. unfold texts, words2. by rewrite sortSlice_Permutation. }
  assert (length words2 = length words) as Hl2.
  { rewrite <- !texts_length. by rewrite Ht2. }
  assert (wfCatalog words2) as Hwf2.
  { apply wfCatalog_texts. rewrite Ht2. by apply wfCatalog_texts. }
  pose proof (shortlistSize_le (length words2)) as Hn.
  set (n := shortlistSize (length words2)) in *.
  set (off := (length words2 - n)%nat).
  rewrite slice_suffix by lia. cbn [mbind result_bind].
  destruct (sortWords_exp_loop words2 off n Hwf2) as (words3 & -> & Ht3 & Hexp);
    [by rewrite Hl2 | unfold off; lia |].
  cbn [mbind result_bind].
  assert (length words3 = length words2) as Hl3.
  { by rewrite <- texts_length, Ht3, texts_length. }
  rewrite slice_suffix by lia. cbn [mbind result_bind].
  set (top := drop off words3).
  set (top' := sortSlice wordF lessByExp' top).
  assert (top' ≡ₚ top) as Hperm by apply sortSlice_Permutation.
  assert (∀ w, w ∈ top → ∃ q, fkey (w_exp w) = Some q) as Hkeys.
  { intros w [k Hk]%list_elem_of_lookup. unfold top in Hk. rewrite lookup_drop in Hk.
    eapply within_key, (Hexp (off + k)%nat); [lia | done]. }
  eexists. split; [done |]. split_and!.
  - rewrite length_app, length_take, Hperm. unfold top. rewrite length_drop. lia.
  - rewrite <- Ht2, <- Ht3. unfold texts. rewrite Hperm. unfold top.
    by rewrite take_drop.
  - intros i j a b Hi Hij Ha Hb.
    assert (length (take off words3) = off) as Hlt by (rewrite length_take; lia).
    rewrite <- Hl2 in Hi. fold n in Hi. fold off in Hi.
    rewrite lookup_app_r in Ha by lia. rewrite lookup_app_r in Hb by lia.
    rewrite Hlt in Ha, Hb.
    apply lessByExp_false_prefers.
    + apply Hkeys. rewrite <- Hperm. by eapply list_elem_of_lookup_2.
    + apply Hkeys. rewrite <- Hperm. by eapply list_elem_of_lookup_2.
    + apply (sortSlice_sorted wordF lessByExp' top
               (lessByExp_strictWeakOn top Hkeys) (i - off)%nat (j - off)%nat);
        [lia | done | done].
Qed.

Lemma sortWords_nil : sortWords' [] = Ok [].
Proof.
  unfold sortWords. cbn [letterFreqByPosition length forLoop mbind result_bind].
  destruct (letterScoreByPosition_Ok zeroTable zeroTable_wf) as (posScore & -> & _).
  cbn [mbind result_bind forLoop].
  assert (∀ less, sortSlice wordF less [] = []) as Hnil.
  { intros less. apply Permutation_nil_r. apply sortSlice_Permutation. }
  rewrite (Hnil (lessByScore float64)). cbn [length].
  change (shortlistSize 0) with 0%nat. cbn.
  unfold slice. rewrite decide_True by (simpl; lia). cbn. by rewrite Hnil.
Qed.

Lemma suggest_spec (words : list wordF) :
  wfCatalog words → Z.of_nat (length words) ≤ maxInt →
  ∃ words' s, sortWords' words = Ok words' ∧ suggest' words = Ok s ∧
              printed float64 s = drop (length words' - 20 `min` length words') words' ∧
              candidates float64 s = Z.of_nat (length words').
Proof.
  intros Hwords Hmax.
  destruct (sortWords_spec words Hwords Hmax) as (words' & Hsort & Hlen & _).
  exists words'. unfold suggest. rewrite Hsort. cbn [mbind result_bind].
  assert ((if decide (length words' ≤ 20)%nat then length words' else 20%nat)
          = (20 `min` length words')%nat) as -> by (case_decide; lia).
  rewrite slice_suffix by lia. cbn [mbind result_bind].
  eexists. by split_and!.
Qed.

(** *** The properties of the specification about ranking *)

(** C10 — Bound on the estimator: for a non-empty catalog of
    five-lowercase-letter words and a five-lowercase-letter guess,
    [expectedNextSetSize] returns a value between 1 and the size of the
    catalog; for each hypothetical answer of the catalog the model built
    by diffing the guess against it is satisfied by between 1 and all of
    the words. *)
Theorem expectedNextSetSize_between_one_and_size
    (words : list (word float64)) (guess : list Z) :
  words ≠ [] → Z.of_nat (length words) ≤ maxInt → wfCatalog words → wfWord guess →
  (∃ v, expectedNextSetSize float64 fzero fofint fadd fsub fdiv words guess = Ok v ∧
        fle float64 feqb fgtb (fofint 1) v ∧
        fle float64 feqb fgtb v (fofint (Z.of_nat (length words)))) ∧
  (∀ c0 w, wfConstraints c0 → w ∈ words →
     ∃ c n, applyDiffConstraint (clearConstraints c0) guess (w_word w) = Ok c ∧
            forLoop (expectedNextSetSize_count float64 c words) 0 (length words) 0 = Ok n ∧
            1 ≤ n ≤ Z.of_nat (length words)).
Proof.
  intros Hne Hmax Hwords Hguess. split.
  - destruct (expectedNextSetSize_within words guess Hne Hmax Hwords Hguess)
      as (v & Hv & Hlo & Hhi).
    by exists v.
  - intros c0 w Hc0 Hw.
    assert (wfWord (w_word w)) as Hwf.
    { unfold wfCatalog in Hwords. rewrite Forall_forall in Hwords. by apply Hwords. }
    destruct (applyDiffConstraint_sound (clearConstraints c0) guess (w_word w))
      as (c & Hrun & Hc & Hcons); [done | done | by apply clearConstraints_cleared |].
    exists c. eexists. split_and!; [done | by apply expectedNextSetSize_count_spec | |].
    + pose proof (filter_length_bounds (λ w0 : wordF, consistentb c (w_word w0)) words w
                    Hw) as Hb.
      destruct Hb as [Hb1 Hb2]; [by apply consistentb_consistent | lia].
    + pose proof (filter_length_bounds (λ w0 : wordF, consistentb c (w_word w0)) words w
                    Hw) as Hb.
      destruct Hb as [Hb1 Hb2]; [by apply consistentb_consistent | lia].
Qed.

(** C9 — Empty-pool safety: on a catalog of size 0 neither [sortWords],
    nor [expectedNextSetSize], nor [suggest] panics (no index out of
    range; the only division is the floating-point one of the estimator,
    which is not reached); [suggest] prints no word and reports zero
    candidates. *)
Theorem suggest_empty_pool :
  sortWords float64 fzero fofint fadd fsub fdiv feqb fgtb sortSlice [] = Ok [] ∧
  (∀ guess, expectedNextSetSize float64 fzero fofint fadd fsub fdiv [] guess = Ok fzero) ∧
  suggest float64 fzero fofint fadd fsub fdiv feqb fgtb sortSlice [] =
    Ok {| printed := []; candidates := 0 |}.
Proof.
  split_and!.
  - apply sortWords_nil.
  - done.
  - unfold suggest. rewrite sortWords_nil. cbn [mbind result_bind length].
    unfold slice. rewrite decide_True by (simpl; lia). done.
Qed.

(** C7 (amended) — After [sortWords] the shortlist, that is the last
    [shortlistSize] words of the array, is ordered so that of two of its
    words the later one has the smaller [exp], or the same [exp] and the
    greater [freq], or the same of both and a [score] that is not
    smaller: the most preferred word is last, fewer expected remaining
    candidates win, and ties go to the more frequent and then to the
    higher-scoring word.  [suggest] prints the last 20 words of the array,
    or all of them if there are fewer, which all belong to the shortlist,
    and the size of the pool. *)
Theorem sortWords_orders_shortlist (words : list (word float64)) :
  wfCatalog words → Z.of_nat (length words) ≤ maxInt →
  ∃ sorted s,
    sortWords float64 fzero fofint fadd fsub fdiv feqb fgtb sortSlice words = Ok sorted ∧
    suggest float64 fzero fofint fadd fsub fdiv feqb fgtb sortSlice words = Ok s ∧
    length sorted = length words ∧
    texts sorted ≡ₚ texts words ∧
    (∀ i j a b,
       (length words - shortlistSize (length words) ≤ i)%nat → (i < j)%nat →
       sorted !! i = Some a → sorted !! j = Some b → prefers float64 feqb fgtb a b) ∧
    printed float64 s = drop (length words - 20 `min` length words) sorted ∧
    (20 `min` length words ≤ shortlistSize (length words))%nat ∧
    candidates float64 s = Z.of_nat (length words).
Proof.
  intros Hwords Hmax.
  destruct (sortWords_spec words Hwords Hmax) as (words' & Hsort & Hlen & Hperm & Hord).
  destruct (suggest_spec words Hwords Hmax) as (words'' & s & Hsort' & Hsug & Hpr & Hcand).
  assert (words'' = words') as -> by congruence.
  exists words', s. rewrite Hlen in Hpr, Hcand. split_and!; try done.
  unfold shortlistSize, smallSetSize, topSetSize. case_decide; lia.
Qed.

(** *** What a diff does to the guess itself *)

Lemma wfWord_neq_unmatched guess answer :
  wfWord guess → wfWord answer → guess ≠ answer →
  ∃ i, (i < 5)%nat ∧ unmatched guess answer i = true.
Proof.
  intros [Hlg _] [Hla _] Hne.
  destruct guess as [|g0 [|g1 [|g2 [|g3 [|g4 [|]]]]]]; try done.
  destruct answer as [|a0 [|a1 [|a2 [|a3 [|a4 [|]]]]]]; try done.
  destruct (decide (g0 = a0)) as [-> | H0];
    [| exists 0%nat; split; [lia | apply unmatched_true; simpl; congruence]].
  destruct (decide (g1 = a1)) as [-> | H1];
    [| exists 1%nat; split; [lia | apply unmatched_true; simpl; congruence]].
  destruct (decide (g2 = a2)) as [-> | H2];
    [| exists 2%nat; split; [lia | apply unmatched_true; simpl; congruence]].
  destruct (decide (g3 = a3)) as [-> | H3];
    [| exists 3%nat; split; [lia | apply unmatched_true; simpl; congruence]].
  destruct (decide (g4 = a4)) as [-> | H4];
    [| exists 4%nat; split; [lia | apply unmatched_true; simpl; congruence]].
  done.
Qed.

Lemma applyDiffConstraint_rejects_guess c guess answer c' :
  wfWord guess → wfWord answer → cleared c → guess ≠ answer →
  applyDiffConstraint c guess answer = Ok c' → consistentb c' guess = false.
Proof.
  intros Hguess Hanswer Hclr Hne Hrun'.
  destruct (applyDiffConstraint_spec guess answer Hguess Hanswer c Hclr)
    as (c'' & Hrun & Hc' & Hpos & Hcs & Hex).
  rewrite Hrun in Hrun'. injection Hrun' as ->.
  apply not_true_is_false. intros Hb.
  apply consistentb_consistent in Hb as (_ & H2 & _); [| done | done].
  destruct (wfWord_neq_unmatched guess answer Hguess Hanswer Hne) as (i & Hi & Hu).
  destruct (wfWord_lookup guess i Hguess Hi) as (g & Hg & Hlow).
  assert (fixedPosition c' i = Some g) as Hfix.
  { apply (H2 i g Hi Hg). apply (Hex i g Hlow). exists i. split_and!; [done | done |].
    unfold contained, absent. rewrite Hu. simpl.
    destruct (present guess answer i); [by left | by right]. }
  apply fixedPosition_Some in Hfix as [Hp Hnz]. rewrite (Hpos i Hi) in Hp.
  injection Hp as Hp. apply Hnz. rewrite <- Hp. by apply fixedLetter_zero.
Qed.

(** *** Further properties of the ranking functions *)

Lemma storeCell_spec t i r v :
  wfTable t → (i < 5)%nat → inRow r →
  ∃ t', storeCell t i r v = Ok t' ∧ wfTable t' ∧
        ∀ i' r', 0 ≤ r' →
          cell t' i' r' = if decide (i' = i ∧ r' = r) then v else cell t i' r'.
Proof.
  intros [Hlen Hrows] Hi Hr. unfold inRow in Hr.
  destruct (lookup_lt_is_Some_2 t i) as [row Hrow]; [lia |].
  assert (length row = 255%nat) as Hrl by (by eapply (Forall_lookup_1 _ _ _ _ Hrows)).
  unfold storeCell. rewrite (index_Ok _ _ _ Hrow). cbn [mbind result_bind].
  rewrite store_Ok by lia. cbn [mbind result_bind].
  rewrite store_Ok by lia. eexists. split; [done |]. split.
  { split; [by rewrite length_insert |].
    apply Forall_insert; [done |]. by rewrite length_insert. }
  intros i' r' Hr'. unfold cell.
  destruct (decide (i' = i)) as [-> | Hne].
  - rewrite list_lookup_insert_eq by lia. rewrite Hrow.
    destruct (decide (r' = r)) as [-> | Hner].
    + rewrite decide_True by done. by rewrite list_lookup_insert_eq by lia.
    + rewrite decide_False by (intros [_ ?]; done).
      by rewrite list_lookup_insert_ne by lia.
  - rewrite decide_False by (intros [? _]; done).
    by rewrite list_lookup_insert_ne by done.
Qed.

Lemma identityOrder_NoDup : NoDup identityOrder.
Proof.
  unfold identityOrder. apply NoDup_fmap_2; [| apply NoDup_seq].
  intros x y. lia.
Qed.

Lemma identityOrder_elem r : inRow r → r ∈ identityOrder.
Proof.
  intros Hr. unfold inRow in Hr. unfold identityOrder. apply list_elem_of_fmap.
  exists (Z.to_nat r). split; [lia |]. apply elem_of_seq. lia.
Qed.

(** The loop [posScore[i][order[j]] = j] over an order without repetition. *)
Lemma letterScoreByPosition_rank_loop (order : list Z) i posScore :
  wfTable posScore → (i < 5)%nat → NoDup order → Forall inRow order →
  ∃ t, forLoop (letterScoreByPosition_rank order i) 0 (length order) posScore = Ok t ∧
       wfTable t ∧
       (∀ i' r, i' ≠ i → cell t i' r = cell posScore i' r) ∧
       (∀ j b, order !! j = Some b → cell t i b = Z.of_nat j).
Proof.
  intros Hwf Hi Hnd Hall.
  destruct (forLoop_inv
    (λ k t, wfTable t ∧
            (∀ i' r, i' ≠ i → cell t i' r = cell posScore i' r) ∧
            (∀ j b, (j < k)%nat → order !! j = Some b → cell t i b = Z.of_nat j))
    (letterScoreByPosition_rank order i) (length order) 0%nat posScore)
    as (t & Hrun & Ht & Hother & Hrank).
  - split_and!; [done | done |]. intros j b Hj. lia.
  - intros k t Hk (Ht & Hother & Hrank).
    destruct (lookup_lt_is_Some_2 order k) as [b Hb]; [lia |].
    pose proof (Forall_lookup_1 _ _ _ _ Hall Hb) as Hbr.
    unfold letterScoreByPosition_rank. rewrite (index_Ok _ _ _ Hb).
    cbn [mbind result_bind].
    destruct (storeCell_spec t i b (Z.of_nat k) Ht Hi Hbr) as (t' & -> & Ht' & Hc).
    exists t'. split_and!; [done | done | |].
    + intros i' r Hne. unfold cell in *.
      destruct (Z_lt_le_dec r 0) as [Hneg | Hpos].
      * specialize (Hc i' 0 ltac:(lia)). rewrite decide_False in Hc by (intros [? _]; done).
        specialize (Hother i' 0 Hne). unfold cell in Hc, Hother.
        replace (Z.to_nat r) with (Z.to_nat 0) by lia. by rewrite Hc.
      * rewrite <- (Hother i' r Hne). specialize (Hc i' r Hpos).
        by rewrite decide_False in Hc by (intros [? _]; done).
    + intros j b' Hj Hb'.
      pose proof (Forall_lookup_1 _ _ _ _ Hall Hb') as Hbr'. unfold inRow in Hbr'.
      rewrite (Hc i b') by lia.
      destruct (decide (j = k)) as [-> | Hjk].
      * assert (b' = b) as -> by congruence. by rewrite decide_True.
      * rewrite decide_False.
        -- apply Hrank; [lia | done].
        -- intros [_ ->]. apply Hjk. by eapply NoDup_lookup.
  - exists t. split_and!; [done | done | done |].
    intros j b Hb. apply Hrank; [| done]. by eapply lookup_lt_Some.
Qed.

Lemma letterScoreByPosition_less_strictWeakOn row l :
  strictWeakOn (letterScoreByPosition_less row) l.
Proof.
  unfold letterScoreByPosition_less. split_and!.
  - intros a _. apply bool_decide_eq_false. lia.
  - intros a b c _ _ _. rewrite !bool_decide_eq_true. lia.
  - intros a b c _ _ _. rewrite !bool_decide_eq_false. lia.
Qed.

Lemma letterScoreByPosition_step_spec posFreq i posScore :
  wfTable posFreq → wfTable posScore → (i < 5)%nat →
  ∃ t, letterScoreByPosition_step sortSlice posFreq i posScore = Ok t ∧ wfTable t ∧
       (∀ i' r, i' ≠ i → cell t i' r = cell posScore i' r) ∧
       rankedRow posFreq t i.
Proof.
  intros Hfreq Hscore Hi.
  destruct Hfreq as [Hlen Hrows].
  destruct (lookup_lt_is_Some_2 posFreq i) as [row Hrow]; [lia |].
  assert (length row = 255%nat) as Hrl by (by eapply (Forall_lookup_1 _ _ _ _ Hrows)).
  unfold letterScoreByPosition_step.
  rewrite (index_Ok _ _ _ Hrow). cbn [mbind result_bind].
  set (order := sortSlice Z (letterScoreByPosition_less row) identityOrder).
  assert (order ≡ₚ identityOrder) as Hperm by apply sortSlice_Permutation.
  assert (Forall inRow order) as Hall.
  { rewrite Hperm. apply Forall_forall. intros b Hb.
    pose proof identityOrder_bound as Hbd. rewrite Forall_forall in Hbd. by apply Hbd. }
  assert (NoDup order) as Hnd by (rewrite Hperm; apply identityOrder_NoDup).
  assert (sortedBy (letterScoreByPosition_less row) order) as Hsorted.
  { apply sortSlice_sorted, letterScoreByPosition_less_strictWeakOn. }
  assert (length order = 255%nat) as Hol.
  { rewrite Hperm. unfold identityOrder. by rewrite length_fmap, length_seq. }
  destruct (letterScoreByPosition_rank_loop order i posScore Hscore Hi Hnd Hall)
    as (t & Hrun & Ht & Hother & Hrank).
  exists t. split_and!; [done | done | done |].
  assert (∀ r, inRow r → ∃ j, (j < 255)%nat ∧ order !! j = Some r ∧
                               cell t i r = Z.of_nat j) as Hidx.
  { intros r Hr. assert (r ∈ order) as Hin by (rewrite Hperm; by apply identityOrder_elem).
    apply list_elem_of_lookup in Hin as [j Hj]. exists j. split_and!; [| done | by apply Hrank].
    rewrite <- Hol. by eapply lookup_lt_Some. }
  assert (∀ r, inRow r → cell posFreq i r = row !!! Z.to_nat r) as Hcell.
  { intros r Hr. unfold inRow in Hr. unfold cell. rewrite Hrow.
    destruct (lookup_lt_is_Some_2 row (Z.to_nat r)) as [v Hv]; [lia |].
    by rewrite Hv, (list_lookup_total_correct _ _ _ Hv). }
  split_and!.
  - intros r Hr. destruct (Hidx r Hr) as (j & Hj & _ & ->). lia.
  - intros r r' Hr Hr' Heq.
    destruct (Hidx r Hr) as (j & _ & Hj & Hcj).
    destruct (Hidx r' Hr') as (j' & _ & Hj' & Hcj').
    assert (j = j') as -> by lia. congruence.
  - intros r r' Hr Hr' Hlt.
    destruct (Hidx r Hr) as (j & _ & Hj & ->).
    destruct (Hidx r' Hr') as (j' & _ & Hj' & ->).
    rewrite (Hcell r Hr), (Hcell r' Hr') in Hlt.
    destruct (decide (j < j')%nat) as [? | Hge]; [lia | exfalso].
    destruct (decide (j = j')) as [-> | Hne].
    + assert (r = r') as -> by congruence. lia.
    + pose proof (Hsorted j' j r' r ltac:(lia) Hj' Hj) as Hless.
      unfold letterScoreByPosition_less in Hless.
      apply bool_decide_eq_false in Hless. lia.
Qed.

Lemma rankedRow_ext posFreq t t' i :
  (∀ r, cell t' i r = cell t i r) → rankedRow posFreq t i → rankedRow posFreq t' i.
Proof.
  intros Heq (H1 & H2 & H3). split_and!.
  - intros r Hr. rewrite Heq. by apply H1.
  - intros r r' Hr Hr'. rewrite !Heq. by apply H2.
  - intros r r' Hr Hr' Hlt. rewrite !Heq. by apply H3.
Qed.

Lemma letterScoreByPosition_ranked (posFreq : list (list Z)) :
  wfTable posFreq →
  ∃ posScore, letterScoreByPosition sortSlice posFreq = Ok posScore ∧
              wfTable posScore ∧
              ∀ i, (i < 5)%nat → rankedRow posFreq posScore i.
Proof.
  intros Hfreq.
  destruct (forLoop_inv
    (λ k t, wfTable t ∧ ∀ i, (i < k)%nat → rankedRow posFreq t i)
    (letterScoreByPosition_step sortSlice posFreq) 5 0%nat zeroTable)
    as (t & Hrun & Ht & Hranked).
  - split; [apply zeroTable_wf |]. intros i Hi. lia.
  - intros k t Hk [Ht Hranked].
    destruct (letterScoreByPosition_step_spec posFreq k t Hfreq Ht)
      as (t' & -> & Ht' & Hother & Hk'); [lia |].
    exists t'. split_and!; [done | done |]. intros i Hi.
    destruct (decide (i = k)) as [-> | Hne]; [done |].
    apply (rankedRow_ext posFreq t); [| apply Hranked; lia].
    intros r. by apply Hother.
  - exists t. by split_and!.
Qed.

(** X6 — [letterScoreByPosition] turns the frequencies of each position
    into ranks: the 255 bytes get 255 different ranks from 0 to 254, and of
    two bytes the more frequent one has the higher rank. *)
Theorem letterScoreByPosition_ranks (posFreq : list (list Z)) :
  wfTable posFreq →
  ∃ posScore, letterScoreByPosition sortSlice posFreq = Ok posScore ∧
              wfTable posScore ∧
              ∀ i, (i < 5)%nat → rankedRow posFreq posScore i.
Proof. apply letterScoreByPosition_ranked. Qed.

(** *** The first sort of [sortWords] *)

Lemma fmap_insert_same {A B} (f : A → B) (l : list A) k x y :
  l !! k = Some x → f y = f x → f <$> <[k:=y]> l = f <$> l.
Proof.
  intros Hk Hf. rewrite list_fmap_insert. apply list_insert_id.
  by rewrite list_lookup_fmap, Hk, Hf.
Qed.

Lemma sortedBy_fmap {A B} (f : A → B) (less : B → B → bool) (l : list A) :
  sortedBy less (f <$> l) ↔ sortedBy (λ a b, less (f a) (f b)) l.
Proof.
  unfold sortedBy. split.
  - intros H i j a b Hij Ha Hb. apply (H i j (f a) (f b) Hij).
    + by rewrite list_lookup_fmap, Ha.
    + by rewrite list_lookup_fmap, Hb.
  - intros H i j a b Hij Ha Hb. rewrite list_lookup_fmap in Ha, Hb.
    destruct (l !! i) as [a'|] eqn:Ha'; [| done].
    destruct (l !! j) as [b'|] eqn:Hb'; [| done].
    injection Ha as <-. injection Hb as <-. by apply (H i j).
Qed.

Lemma lessByScore_scored (a b : wordF) :
  lessByScore float64 a b = lessScored (scored a) (scored b).
Proof. done. Qed.

Lemma lessByScore_strictWeakOn (l : list wordF) : strictWeakOn (lessByScore float64) l.
Proof.
  unfold lessByScore. split_and!.
  - intros a _. rewrite decide_True by done. apply bool_decide_eq_false. lia.
  - intros a b c _ _ _.
    repeat case_decide; rewrite !bool_decide_eq_true; lia.
  - intros a b c _ _ _.
    repeat case_decide; rewrite !bool_decide_eq_false; lia.
Qed.

Lemma score_from_rankSum posScore (w : list Z) :
  wfTable posScore → wfWord w → score posScore w = Ok (rankSum posScore w).
Proof.
  intros [Hlen Hrows] [Hl Hlow].
  destruct w as [|b0 [|b1 [|b2 [|b3 [|b4 [|]]]]]]; try done.
  assert (∀ i b, (i < 5)%nat → lowercase b →
            ∃ row, posScore !! i = Some row ∧
                   ∃ v, row !! Z.to_nat b = Some v ∧ cell posScore i b = v) as Hc.
  { intros i b Hi Hb. unfold lowercase, ch_a, ch_z in Hb.
    destruct (lookup_lt_is_Some_2 posScore i) as [row Hrow]; [lia |].
    assert (length row = 255%nat) as Hrl by (by eapply (Forall_lookup_1 _ _ _ _ Hrows)).
    destruct (lookup_lt_is_Some_2 row (Z.to_nat b)) as [v Hv]; [lia |].
    exists row. split; [done |]. exists v. split; [done |].
    unfold cell. by rewrite Hrow, Hv. }
  repeat (apply Forall_cons in Hlow as [? Hlow]).
  destruct (Hc 0%nat b0) as (r0 & Hr0 & v0 & Hv0 & E0); [lia | done |].
  destruct (Hc 1%nat b1) as (r1 & Hr1 & v1 & Hv1 & E1); [lia | done |].
  destruct (Hc 2%nat b2) as (r2 & Hr2 & v2 & Hv2 & E2); [lia | done |].
  destruct (Hc 3%nat b3) as (r3 & Hr3 & v3 & Hv3 & E3); [lia | done |].
  destruct (Hc 4%nat b4) as (r4 & Hr4 & v4 & Hv4 & E4); [lia | done |].
  unfold score, rankSum. cbv [runes imap compose]. cbn [score_from seq foldr].
  change ([b0; b1; b2; b3; b4] !!! 0%nat) with b0.
  change ([b0; b1; b2; b3; b4] !!! 1%nat) with b1.
  change ([b0; b1; b2; b3; b4] !!! 2%nat) with b2.
  change ([b0; b1; b2; b3; b4] !!! 3%nat) with b3.
  change ([b0; b1; b2; b3; b4] !!! 4%nat) with b4.
  rewrite E0, E1, E2, E3, E4.
  rewrite (index_Ok _ _ _ Hr0). cbn [mbind result_bind].
  rewrite (index_Ok _ _ _ Hv0). cbn [mbind result_bind].
  rewrite (index_Ok _ _ _ Hr1). cbn [mbind result_bind].
  rewrite (index_Ok _ _ _ Hv1). cbn [mbind result_bind].
  rewrite (index_Ok _ _ _ Hr2). cbn [mbind result_bind].
  rewrite (index_Ok _ _ _ Hv2). cbn [mbind result_bind].
  rewrite (index_Ok _ _ _ Hr3). cbn [mbind result_bind].
  rewrite (index_Ok _ _ _ Hv3). cbn [mbind result_bind].
  rewrite (index_Ok _ _ _ Hr4). cbn [mbind result_bind].
  rewrite (index_Ok _ _ _ Hv4). cbn [mbind result_bind].
  f_equal. lia.
Qed.

Lemma texts_of_scored {F} (ws : list (word F)) :
  texts ws = (λ s : list Z * Z * Z, s.1.1) <$> (scored <$> ws).
Proof. unfold texts. rewrite <- list_fmap_compose. done. Qed.

Lemma entry_of_scored {F} (ws : list (word F)) :
  entry <$> ws = (λ s : list Z * Z * Z, s.1) <$> (scored <$> ws).
Proof. rewrite <- list_fmap_compose. done. Qed.

Lemma texts_of_entry {F} (ws : list (word F)) :
  texts ws = (λ e : list Z * Z, e.1) <$> (entry <$> ws).
Proof. unfold texts. rewrite <- list_fmap_compose. done. Qed.

Lemma sortWords_score_loop_scored posScore (words : list wordF) :
  wfTable posScore → wfCatalog words →
  ∃ words1, forLoop (sortWords_score float64 posScore) 0 (length words) words = Ok words1 ∧
            entry <$> words1 = entry <$> words ∧
            Forall (λ w, w_score w = rankSum posScore (w_word w)) words1.
Proof.
  intros Ht Hwords.
  destruct (forLoop_inv
    (λ k ws, entry <$> ws = entry <$> words ∧
             ∀ j w, (j < k)%nat → ws !! j = Some w →
                    w_score w = rankSum posScore (w_word w))
    (sortWords_score float64 posScore) (length words) 0%nat words)
    as (ws & Hrun & Hent & Hsc).
  - split; [done |]. intros j w Hj. lia.
  - intros k ws Hk [Hent Hsc].
    assert (length ws = length words) as Hlen.
    { by rewrite <- (length_fmap entry ws), Hent, length_fmap. }
    destruct (lookup_lt_is_Some_2 ws k) as [w Hw]; [lia |].
    assert (wfWord (w_word w)) as Hwf.
    { apply wfCatalog_texts in Hwords.
      rewrite texts_of_entry, <- Hent, <- texts_of_entry in Hwords.
      apply wfCatalog_texts in Hwords. by eapply (Forall_lookup_1 _ _ _ _ Hwords). }
    unfold sortWords_score. rewrite (index_Ok _ _ _ Hw). cbn [mbind result_bind].
    rewrite (score_from_rankSum posScore (w_word w) Ht Hwf). cbn [mbind result_bind].
    rewrite store_Ok by lia. eexists. split; [done |]. split.
    + by rewrite (fmap_insert_same entry ws k w).
    + intros j w' Hj Hw'. destruct (decide (j = k)) as [-> | Hne].
      * rewrite list_lookup_insert_eq in Hw' by lia. by injection Hw' as <-.
      * rewrite list_lookup_insert_ne in Hw' by done. apply (Hsc j); [lia | done].
  - exists ws. split_and!; [done | done |]. apply Forall_lookup. intros j w Hw.
    apply (Hsc j); [| done]. apply lookup_lt_Some in Hw.
    rewrite <- (length_fmap entry ws), Hent, length_fmap in Hw. lia.
Qed.

Lemma sortWords_exp_loop_scored (words2 : list wordF) off n :
  wfCatalog words2 → Z.of_nat (length words2) ≤ maxInt → (off + n = length words2)%nat →
  ∃ words3, forLoop (sortWords_exp float64 fzero fofint fadd fsub fdiv off) 0 n words2
              = Ok words3 ∧
            scored <$> words3 = scored <$> words2.
Proof.
  intros Hwords Hmax Hlen.
  destruct (forLoop_inv (λ _ ws, scored <$> ws = scored <$> words2)
    (sortWords_exp float64 fzero fofint fadd fsub fdiv off) n 0%nat words2)
    as (ws & Hrun & Hws); [done | | by exists ws].
  intros i ws Hi Hws.
  assert (length ws = length words2) as Hwl.
  { by rewrite <- (length_fmap scored ws), Hws, length_fmap. }
  assert (wfCatalog ws) as Hwf.
  { apply wfCatalog_texts. rewrite texts_of_scored, Hws, <- texts_of_scored.
    by apply wfCatalog_texts. }
  destruct (lookup_lt_is_Some_2 ws (off + i)) as [w Hw]; [lia |].
  unfold sortWords_exp. rewrite (index_Ok _ _ _ Hw). cbn [mbind result_bind].
  destruct (expectedNextSetSize_within ws (w_word w)) as (e & -> & _).
  { intros ->. by rewrite lookup_nil in Hw. }
  { by rewrite Hwl. }
  { done. }
  { by eapply (Forall_lookup_1 _ _ _ _ Hwf). }
  cbn [mbind result_bind]. rewrite store_Ok by lia.
  eexists. split; [done |]. by rewrite (fmap_insert_same scored ws (off + i) w).
Qed.

Lemma rankSum_bounds posFreq posScore (w : list Z) :
  (∀ i, (i < 5)%nat → rankedRow posFreq posScore i) → wfWord w →
  0 ≤ rankSum posScore w ≤ 1270.
Proof.
  intros Hranked [Hl Hlow].
  destruct w as [|b0 [|b1 [|b2 [|b3 [|b4 [|]]]]]]; try done.
  repeat (apply Forall_cons in Hlow as [? Hlow]).
  assert (∀ i b, (i < 5)%nat → lowercase b → 0 ≤ cell posScore i b ≤ 254) as Hc.
  { intros i b Hi Hb. apply (Hranked i Hi). unfold lowercase, ch_a, ch_z, inRow in *. lia. }
  unfold rankSum. cbn [seq foldr].
  change ([b0; b1; b2; b3; b4] !!! 0%nat) with b0.
  change ([b0; b1; b2; b3; b4] !!! 1%nat) with b1.
  change ([b0; b1; b2; b3; b4] !!! 2%nat) with b2.
  change ([b0; b1; b2; b3; b4] !!! 3%nat) with b3.
  change ([b0; b1; b2; b3; b4] !!! 4%nat) with b4.
  pose proof (Hc 0%nat b0 ltac:(lia) ltac:(done)).
  pose proof (Hc 1%nat b1 ltac:(lia) ltac:(done)).
  pose proof (Hc 2%nat b2 ltac:(lia) ltac:(done)).
  pose proof (Hc 3%nat b3 ltac:(lia) ltac:(done)).
  pose proof (Hc 4%nat b4 ltac:(lia) ltac:(done)).
  lia.
Qed.

(** X7 — [sortWords] keeps the pairs of word and frequency of the pool,
    sets the score of every word to the sum of the ranks of its five letters
    in the tables computed from the pool, a number from 0 to 1270, and
    leaves the words in front of the shortlist in increasing order of score
    and then frequency, none of them above a later word: the shortlist
    holds the best-scoring words. *)
Theorem sortWords_scores_and_order (words : list (word float64)) :
  wfCatalog words → Z.of_nat (length words) ≤ maxInt →
  ∃ posFreq posScore sorted,
    letterFreqByPosition words = Ok posFreq ∧
    letterScoreByPosition sortSlice posFreq = Ok posScore ∧
    sortWords float64 fzero fofint fadd fsub fdiv feqb fgtb sortSlice words = Ok sorted ∧
    entry <$> sorted ≡ₚ entry <$> words ∧
    (∀ w, w ∈ sorted →
          w_score w = rankSum posScore (w_word w) ∧ 0 ≤ w_score w ≤ 1270) ∧
    (∀ i j a b,
       (i < j)%nat → (i < length words - shortlistSize (length words))%nat →
       sorted !! i = Some a → sorted !! j = Some b →
       lessByScore float64 b a = false).
Proof.
  intros Hwords Hmax.
  destruct (letterFreqByPosition_Ok words Hwords) as (posFreq & Hrun1 & Hfreq).
  destruct (letterScoreByPosition_ranked posFreq Hfreq)
    as (posScore & Hrun2 & Hscore & Hranked).
  exists posFreq, posScore. unfold sortWords. rewrite Hrun1. cbn [mbind result_bind].
  rewrite Hrun2. cbn [mbind result_bind].
  destruct (sortWords_score_loop_scored posScore words Hscore Hwords)
    as (words1 & -> & He1 & Hs1).
  cbn [mbind result_bind].
  set (words2 := sortSlice wordF (lessByScore float64) words1).
  assert (words2 ≡ₚ words1) as Hp2 by apply sortSlice_Permutation.
  assert (sortedBy (lessByScore float64) words2) as Hsorted2.
  { apply sortSlice_sorted, lessByScore_strictWeakOn. }
  assert (length words2 = length words) as Hl2.
  { rewrite Hp2. by rewrite <- (length_fmap entry words1), He1, length_fmap. }
  assert (wfCatalog words1) as Hwf1.
  { apply wfCatalog_texts. rewrite texts_of_entry, He1, <- texts_of_entry.
    by apply wfCatalog_texts. }
  assert (wfCatalog words2) as Hwf2.
  { unfold wfCatalog. by rewrite Hp2. }
  pose proof (shortlistSize_le (length words2)) as Hn.
  set (n := shortlistSize (length words2)) in *.
  set (off := (length words2 - n)%nat).
  rewrite slice_suffix by lia. cbn [mbind result_bind].
  destruct (sortWords_exp_loop_scored words2 off n Hwf2) as (words3 & -> & Hs3);
    [by rewrite Hl2 | unfold off; lia |].
  cbn [mbind result_bind].
  assert (length words3 = length words2) as Hl3.
  { by rewrite <- (length_fmap scored words3), Hs3, length_fmap. }
  rewrite slice_suffix by lia. cbn [mbind result_bind].
  set (top := drop off words3).
  set (top' := sortSlice wordF (lessByExp float64 feqb fgtb) top).
  assert (top' ≡ₚ top) as Hperm by apply sortSlice_Permutation.
  assert (sortedBy (lessByScore float64) words3) as Hsorted3.
  { apply (sortedBy_fmap scored lessScored). rewrite Hs3.
    by apply (sortedBy_fmap scored lessScored). }
  assert (take off words3 ++ top' ≡ₚ words3) as Hall.
  { rewrite Hperm. unfold top. by rewrite take_drop. }
  eexists. split_and!; [done | done | done | | |].
  - rewrite Hall, !entry_of_scored, Hs3, <- !entry_of_scored, Hp2. by rewrite He1.
  - intros w Hw. rewrite Hall in Hw.
    assert (scored w ∈ scored <$> words1) as Hin.
    { rewrite <- Hp2, <- Hs3. apply list_elem_of_fmap. by exists w. }
    apply list_elem_of_fmap in Hin as (w1 & Heq & Hw1).
    rewrite Forall_forall in Hs1. specialize (Hs1 w1 Hw1).
    injection Heq as Hword Hf Hsc. rewrite Hsc, Hword, Hs1.
    split; [done |]. apply (rankSum_bounds posFreq); [done |].
    unfold wfCatalog in Hwf1. rewrite Forall_forall in Hwf1. by apply Hwf1.
  - intros i j a b Hij Hi Ha Hb. rewrite <- Hl2 in Hi. fold n in Hi. fold off in Hi.
    assert (length (take off words3) = off) as Hlt by (rewrite length_take; lia).
    rewrite lookup_app_l in Ha by lia. rewrite lookup_take_lt in Ha by lia.
    assert (∃ j', (i < j')%nat ∧ words3 !! j' = Some b) as (j' & Hij' & Hb').
    { destruct (decide (j < off)%nat) as [Hj | Hj].
      - rewrite lookup_app_l in Hb by lia. rewrite lookup_take_lt in Hb by lia.
        by exists j.
      - rewrite lookup_app_r in Hb by lia.
        assert (b ∈ top) as Hin.
        { rewrite <- Hperm. by eapply list_elem_of_lookup_2. }
        apply list_elem_of_lookup in Hin as [k Hk]. unfold top in Hk.
        rewrite lookup_drop in Hk. exists (off + k)%nat. split; [lia | done]. }
    by apply (Hsorted3 i j').
Qed.

(** *** Lists *)

Lemma List_filter_sublist {A} (keep : A → bool) l : List.filter keep l `sublist_of` l.
Proof.
  induction l as [|x l IH]; [constructor |]. simpl.
  destruct (keep x); by constructor.
Qed.

(** *** What [sortWords] keeps *)

(** [sortWords] only reorders the words and fills in [score] and [exp]. *)
Lemma sortWords_entries (words : list wordF) :
  wfCatalog words → Z.of_nat (length words) ≤ maxInt →
  ∃ words', sortWords' words = Ok words' ∧ length words' = length words ∧
            entry <$> words' ≡ₚ entry <$> words ∧ texts words' ≡ₚ texts words ∧
            wfCatalog words'.
Proof.
  intros Hwords Hmax.
  destruct (letterFreqByPosition_Ok words Hwords) as (posFreq & Hrun1 & Hfreq).
  destruct (letterScoreByPosition_Ok posFreq Hfreq) as (posScore & Hrun2 & Hscore).
  unfold sortWords. rewrite Hrun1. cbn [mbind result_bind].
  rewrite Hrun2. cbn [mbind result_bind].
  destruct (sortWords_score_loop_scored posScore words Hscore Hwords)
    as (words1 & -> & He1 & _).
  cbn [mbind result_bind].
  set (words2 := sortSlice wordF (lessByScore float64) words1).
  assert (words2 ≡ₚ words1) as Hp2 by apply sortSlice_Permutation.
  assert (length words2 = length words) as Hl2.
  { rewrite Hp2. by rewrite <- (length_fmap entry words1), He1, length_fmap. }
  assert (wfCatalog words1) as Hwf1.
  { apply wfCatalog_texts. rewrite texts_of_entry, He1, <- texts_of_entry.
    by apply wfCatalog_texts. }
  assert (wfCatalog words2) as Hwf2.
  { unfold wfCatalog. by rewrite Hp2. }
  pose proof (shortlistSize_le (length words2)) as Hn.
  set (n := shortlistSize (length words2)) in *.
  set (off := (length words2 - n)%nat).
  rewrite slice_suffix by lia. cbn [mbind result_bind].
  destruct (sortWords_exp_loop_scored words2 off n Hwf2) as (words3 & -> & Hs3);
    [by rewrite Hl2 | unfold off; lia |].
  cbn [mbind result_bind].
  assert (length words3 = length words2) as Hl3.
  { by rewrite <- (length_fmap scored words3), Hs3, length_fmap. }
  rewrite slice_suffix by lia. cbn [mbind result_bind].
  set (top' := sortSlice wordF (lessByExp float64 feqb fgtb) (drop off words3)).
  assert (take off words3 ++ top' ≡ₚ words3) as Hall.
  { unfold top'. by rewrite sortSlice_Permutation, take_drop. }
  assert (entry <$> take off words3 ++ top' ≡ₚ entry <$> words) as Hent.
  { rewrite Hall, !entry_of_scored, Hs3, <- !entry_of_scored, Hp2. by rewrite He1. }
  eexists. split_and!; [done | | done | |].
  - by rewrite <- (length_fmap entry), Hent, length_fmap.
  - by rewrite !texts_of_entry, Hent.
  - apply wfCatalog_texts. rewrite texts_of_entry, Hent, <- texts_of_entry.
    by apply wfCatalog_texts.
Qed.

Lemma suggest_of_sortWords (words words' : list wordF) :
  sortWords' words = Ok words' →
  ∃ s, suggest' words = Ok s ∧
       printed float64 s = drop (length words' - 20 `min` length words') words' ∧
       candidates float64 s = Z.of_nat (length words').
Proof.
  intros Hsort. unfold suggest. rewrite Hsort. cbn [mbind result_bind].
  assert ((if decide (length words' ≤ 20)%nat then length words' else 20%nat)
          = (20 `min` length words')%nat) as -> by (case_decide; lia).
  rewrite slice_suffix by lia. cbn [mbind result_bind].
  eexists. by split_and!.
Qed.

(** *** The simulation *)





(** *** The interactive mode *)

Lemma wellFormedToken_cases t : wellFormedToken t ∨ ¬ wellFormedToken t.
Proof.
  destruct t as [|op [|b [|x t]]];
    try (right; intros (? & ? & ? & _); discriminate).
  destruct (decide (op = ch_plus ∨ op = ch_tilde ∨ op = ch_minus)) as [Hop | Hop].
  - destruct (decide (ch_a ≤ b ≤ ch_z)) as [Hb | Hb].
    + left. by exists op, b.
    + right. intros (? & ? & [= <- <-] & _ & ?). by apply Hb.
  - right. intros (? & ? & [= <- <-] & ? & _). by apply Hop.
Qed.

Lemma wellFormedLine_cases line : wellFormedLine line ∨ ¬ wellFormedLine line.
Proof.
  unfold wellFormedLine.
  destruct (decide (length (Fields line) = 5%nat)) as [Hl | Hl]; [| right; by intros [? _]].
  assert (∀ fields, Forall wellFormedToken fields ∨ ¬ Forall wellFormedToken fields) as Hall.
  { induction fields as [|t fields IH]; [by left |].
    destruct (wellFormedToken_cases t) as [Ht | Ht].
    - destruct IH as [IH | IH]; [left; by constructor |].
      right. intros H. apply IH. by apply Forall_cons in H as [_ ?].
    - right. intros H. apply Ht. by apply Forall_cons in H as [? _]. }
  destruct (Hall (Fields line)) as [H | H]; [by left | right; by intros [_ ?]].
Qed.

(** [inputConstraints] never panics. *)
Lemma inputConstraints_cases line :
  inputConstraints line = Ok None ∨
  ∃ c, inputConstraints line = Ok (Some c) ∧ wfConstraints c.
Proof.
  destruct (wellFormedLine_cases line) as [H | H].
  - right. by apply inputConstraints_wellFormed.
  - left. by apply inputConstraints_malformed.
Qed.

Lemma interact_spec (input : list (list Z)) :
  ∀ words : list wordF,
    wfCatalog words → Z.of_nat (length words) ≤ maxInt →
    ∃ final out,
      interact float64 fzero fofint fadd fsub fdiv feqb fgtb sortSlice input words
        = Ok (final, out) ∧
      entry <$> final ⊆+ entry <$> words ∧
      ∀ w, w ∈ texts words →
           (∀ line c, line ∈ input → inputConstraints line = Ok (Some c) →
                      satisfies c w = Ok true) →
           w ∈ texts final.
Proof.
  induction input as [|line input IH]; intros words Hwords Hmax.
  { exists words. cbn [interact]. case_decide; eexists; by split_and!. }
  cbn [interact]. destruct (decide (1 < length words)%nat) as [Hlen | Hlen].
  2: { exists words. eexists. by split_and!. }
  destruct (decide (line = bytes "quit")) as [Hquit | Hquit].
  { exists words. eexists. by split_and!. }
  destruct (inputConstraints_cases line) as [Hnil | (c & Hsome & Hc)].
  - rewrite Hnil. cbn [mbind result_bind].
    destruct (IH words Hwords Hmax) as (final & out & -> & Hsub & Hkeep).
    cbn [mbind result_bind]. exists final. eexists. split_and!; [done | done |].
    intros w Hw Hall. apply (Hkeep w Hw). intros l c Hl. apply Hall. by right.
  - rewrite Hsome. cbn [mbind result_bind].
    rewrite (filter_List_filter c words Hc Hwords). cbn [mbind result_bind].
    set (words1 := List.filter (λ w, consistentb c (w_word w)) words).
    assert (wfCatalog words1) as Hwords1 by by apply wfCatalog_filter.
    assert (length words1 ≤ length words)%nat as Hle by apply List.filter_length_le.
    destruct (sortWords_entries words1 Hwords1)
      as (words2 & Hsort & Hl2 & Hent & Hperm & Hwords2); [lia |].
    destruct (suggest_of_sortWords words1 words2 Hsort) as (s & -> & _).
    cbn [mbind result_bind]. rewrite Hsort. cbn [mbind result_bind].
    destruct (IH words2 Hwords2) as (final & out & -> & Hsub & Hkeep); [lia |].
    cbn [mbind result_bind]. exists final. eexists. split_and!; [done | |].
    + rewrite Hsub, Hent. apply sublist_submseteq, fmap_sublist, List_filter_sublist.
    + intros w Hw Hall. apply Hkeep.
      * rewrite Hperm. unfold texts in *. apply list_elem_of_fmap in Hw as (x & -> & Hx).
        apply list_elem_of_fmap. exists x. split; [done |].
        apply list_elem_of_In, List.filter_In. split; [by apply list_elem_of_In |].
        assert (wfWord (w_word x)) as Hwf.
        { unfold wfCatalog in Hwords. rewrite Forall_forall in Hwords. by apply Hwords. }
        specialize (Hall line c (list_elem_of_here _ _) Hsome).
        rewrite satisfies_consistentb in Hall by done. by injection Hall.
      * intros l c' Hl. apply Hall. by right.
Qed.

(** X9 — The interactive mode never panics on a catalog of five-letter
    words, whatever is typed: the words it is left with are words of the
    catalog with the frequencies they have there, none more often than
    there, and a word that satisfies every model the typed lines parse to
    is never dropped. *)
Theorem main_interactive_keeps_consistent_words (input : list (list Z))
    (words : list (word float64)) :
  wfCatalog words → Z.of_nat (length words) ≤ maxInt →
  ∃ final out,
    main_interactive float64 fzero fofint fadd fsub fdiv feqb fgtb sortSlice input words
      = Ok (final, out) ∧
    entry <$> final ⊆+ entry <$> words ∧
    ∀ w, w ∈ texts words →
         (∀ line c, line ∈ input → inputConstraints line = Ok (Some c) →
                    satisfies c w = Ok true) →
         w ∈ texts final.
Proof.
  intros Hwords Hmax. unfold main_interactive.
  destruct (sortWords_entries words Hwords Hmax)
    as (words' & Hsort & Hl & Hent & Hperm & Hwords').
  destruct (suggest_of_sortWords words words' Hsort) as (s & -> & _).
  cbn [mbind result_bind]. rewrite Hsort. cbn [mbind result_bind].
  destruct (interact_spec input words' Hwords') as (final & out & -> & Hsub & Hkeep);
    [lia |].
  cbn [mbind result_bind]. exists final. eexists. split_and!; [done | |].
  - by rewrite Hsub, Hent.
  - intros w Hw. apply Hkeep. by rewrite Hperm.
Qed.

End RankingProofs.

(** * The properties of the specification *)

(** Closes the decidable side conditions on concrete words, catalogs and
    models. *)
Ltac solve_wf := apply (bool_decide_unpack _); vm_compute; exact I.

(** C1 — Soundness of filtering by own feedback: for a catalog of
    five-lowercase-letter words, a five-lowercase-letter guess and an answer
    taken from the catalog, after [applyDiffConstraint] on a freshly cleared
    model and [filter] on the catalog, the answer is still among the
    surviving words. *)
Theorem filter_keeps_answer {F} (c : constraints) (words : list (word F))
    (guess : list Z) (a : word F) :
  wfConstraints c → wfCatalog words → wfWord guess → a ∈ words →
  ∃ c' out, applyDiffConstraint (clearConstraints c) guess (w_word a) = Ok c' ∧
            filter c' words = Ok out ∧ a ∈ out.
Proof.
  intros Hc Hwords Hguess Ha.
  assert (wfWord (w_word a)) as Hanswer.
  { unfold wfCatalog in Hwords. rewrite Forall_forall in Hwords. by apply Hwords. }
  destruct (applyDiffConstraint_sound (clearConstraints c) guess (w_word a))
    as (c' & Hrun & Hc' & Hcons); [done | done | by apply clearConstraints_cleared |].
  exists c', (List.filter (λ w, consistentb c' (w_word w)) words).
  split_and!; [done | by apply filter_List_filter |].
  apply list_elem_of_In, List.filter_In. split; [by apply list_elem_of_In |].
  by apply consistentb_consistent.
Qed.

Lemma filter_keeps_answer_witness :
  ∃ c' out,
    applyDiffConstraint (clearConstraints newConstraints) (bytes "sassy")
      (w_word (newWord 0%Q "glass" 50)) = Ok c' ∧
    filter c' sampleCatalog = Ok out ∧ newWord 0%Q "glass" 50 ∈ out.
Proof.
  apply (filter_keeps_answer newConstraints sampleCatalog (bytes "sassy")
           (newWord 0%Q "glass" 50)).
  - solve_wf.
  - solve_wf.
  - solve_wf.
  - apply list_elem_of_here.
Defined.

(** C4 — Filter characterization and stability: [filter c words] returns
    exactly the input words that are consistent with [c], in their original
    relative order, where consistency is the conjunction of the four
    conditions of the specification (fixed letters, letters excluded at a
    position unless fixed to that letter, required letters at a position
    that is not fixed, absent letters). *)
Theorem filter_characterization {F} (c : constraints) (words : list (word F)) :
  wfConstraints c → wfCatalog words →
  ∃ keep : word F → bool,
    (∀ w, w ∈ words → keep w = true ↔ consistent c (w_word w)) ∧
    filter c words = Ok (List.filter keep words).
Proof.
  intros Hc Hwords. exists (λ w, consistentb c (w_word w)). split.
  - intros w Hw. apply consistentb_consistent; [done |].
    unfold wfCatalog in Hwords. rewrite Forall_forall in Hwords. by apply Hwords.
  - by apply filter_List_filter.
Qed.

(** C6 — Idempotent re-filtering: filtering the result of [filter c words]
    against the same model again returns the same list. *)
Theorem filter_idempotent {F} (c : constraints) (words : list (word F)) :
  wfConstraints c → wfCatalog words →
  ∃ out, filter c words = Ok out ∧ filter c out = Ok out.
Proof.
  intros Hc Hwords. eexists. split; [by apply filter_List_filter |].
  rewrite filter_List_filter; [| done | by apply wfCatalog_filter].
  by rewrite List_filter_idem.
Qed.

(** C8 — Malformed-feedback rejection: [inputConstraints] returns [nil]
    exactly for the lines that are not five white-space-separated
    two-character tokens, each an operator [+], [~] or [-] followed by a
    lowercase letter, and it returns a model for every well-formed line,
    whatever the constraints it encodes. *)
Theorem inputConstraints_nil_iff_malformed (line : list Z) :
  (inputConstraints line = Ok None ↔ ¬ wellFormedLine line) ∧
  (wellFormedLine line → ∃ c, inputConstraints line = Ok (Some c)).
Proof.
  split; [split |].
  - intros Hnil Hwf.
    destruct (inputConstraints_wellFormed line Hwf) as (c & Hc & _). congruence.
  - apply inputConstraints_malformed.
  - intros Hwf. destruct (inputConstraints_wellFormed line Hwf) as (c & Hc & _).
    by exists c.
Qed.

(** C2 (as stated, refuted) — on guess "sassy" and answer "glass" the second
    loop takes the [found] branch at guess position 2: the model it is run
    on holds [s; a] in [contains], the model it returns holds [s; a; s],
    although the one 's' of the answer that no exact match consumed was
    already claimed by guess position 0.  The rule of the specification
    records [s; a] only. *)
Lemma sassy_glass_claims_an_occurrence_twice :
  ∃ c1 c2 c3 c,
    forLoop (applyDiffConstraint_fixed (bytes "sassy") (bytes "glass")) 0 5 newConstraints
      = Ok c1 ∧
    forLoop (applyDiffConstraint_rest (bytes "sassy") (bytes "glass")) 0 2 c1 = Ok c2 ∧
    applyDiffConstraint_rest (bytes "sassy") (bytes "glass") 2 c2 = Ok c3 ∧
    contains c2 = bytes "sa" ∧ contains c3 = bytes "sas" ∧
    spec_contained (bytes "sassy") (bytes "glass") 2 = false ∧
    applyDiffConstraint newConstraints (bytes "sassy") (bytes "glass") = Ok c ∧
    contains c = bytes "sas" ∧
    spec_containedLetters (bytes "sassy") (bytes "glass") = bytes "sa".
Proof. do 4 eexists. vm_compute. by split_and!. Qed.

(** C2 (amended) — the diff fixes the letters of the exact matches and
    no other position.  What it records for a guess letter that is not an
    exact match depends only on whether the answer has that letter at some
    position that is not an exact match: if so (and only then) the letter
    is appended to [contains] and excluded at its own position, whether or
    not an earlier guess position carried the same letter; otherwise it is
    excluded at every position that is not an exact match.  The model
    holds no other exclusion. *)
Theorem applyDiffConstraint_records_unconsumed (guess answer : list Z) :
  wfWord guess → wfWord answer →
  ∃ c, applyDiffConstraint newConstraints guess answer = Ok c ∧
       wfConstraints c ∧
       (∀ j g, guess !! j = Some g →
               position c !! j
               = Some (if decide (guess !! j = answer !! j) then g else 0)) ∧
       contains c =
         omap (λ i, if contained guess answer i then guess !! i else None) (seq 0 5) ∧
       (∀ i, contained guess answer i = true ↔
             guess !! i ≠ answer !! i ∧
             ∃ j, (j < 5)%nat ∧ guess !! j ≠ answer !! j ∧ answer !! j = guess !! i) ∧
       (∀ j b, lowercase b →
          excludedAtPosition c j b ↔
          ∃ i, (i < 5)%nat ∧ guess !! i = Some b ∧ guess !! i ≠ answer !! i ∧
               ((contained guess answer i = true ∧ j = i) ∨
                (contained guess answer i = false ∧
                 (j < 5)%nat ∧ guess !! j ≠ answer !! j))) ∧
       (∀ i g, (i < 5)%nat → guess !! i = Some g → contained guess answer i = true →
               excludedAtPosition c i g) ∧
       (∀ i g j, (i < 5)%nat → guess !! i = Some g → guess !! i ≠ answer !! i →
                 contained guess answer i = false →
                 (j < 5)%nat → guess !! j ≠ answer !! j → excludedAtPosition c j g).
Proof.
  intros Hguess Hanswer.
  destruct (applyDiffConstraint_spec guess answer Hguess Hanswer newConstraints
              newConstraints_cleared) as (c & Hrun & Hc & Hpos & Hcs & Hex).
  exists c. split_and!; [done | done | | done | | | |].
  - intros j g Hg.
    assert (j < 5)%nat as Hj.
    { apply lookup_lt_Some in Hg. destruct Hguess as [Hl _]. lia. }
    rewrite (Hpos j Hj). f_equal. unfold fixedLetter.
    rewrite (list_lookup_total_correct _ _ _ Hg).
    destruct (decide (guess !! j = answer !! j)) as [Heq | Hne].
    + by rewrite (proj2 (unmatched_false guess answer j) Heq).
    + by rewrite (proj2 (unmatched_true guess answer j) Hne).
  - intros i. unfold contained. rewrite andb_true_iff, unmatched_true, present_true.
    by setoid_rewrite unmatched_true.
  - intros j b Hb. rewrite (Hex j b Hb). unfold excludedBy. split.
    + intros (i & Hi & Hg & [[Hcont ->] | (Habs & Hj & Hu)]).
      * exists i. split_and!; [done | done | | by left].
        apply unmatched_true. unfold contained in Hcont.
        by apply andb_true_iff in Hcont as [? _].
      * unfold absent in Habs. apply andb_true_iff in Habs as [Hui Hnp].
        exists i. split_and!; [done | done | by apply unmatched_true |]. right.
        split_and!; [| done | by apply unmatched_true].
        unfold contained. rewrite Hui. simpl. by apply negb_true_iff.
    + intros (i & Hi & Hg & Hne & [[Hcont ->] | (Hcont & Hj & Hjne)]).
      * exists i. split_and!; [done | done | by left].
      * exists i. split_and!; [done | done |]. right.
        apply unmatched_true in Hne, Hjne. unfold contained, absent in *.
        rewrite Hne in *. simpl in *. by rewrite Hcont.
  - intros i g Hi Hg Hcont.
    assert (lowercase g) as Hlow.
    { destruct Hguess as [_ Hall]. by eapply Forall_lookup_1. }
    apply (Hex i g Hlow). exists i. split_and!; [done | done |]. by left.
  - intros i g j Hi Hg Hne Hcont Hj Hjne.
    assert (lowercase g) as Hlow.
    { destruct Hguess as [_ Hall]. by eapply Forall_lookup_1. }
    apply (Hex j g Hlow). exists i. split_and!; [done | done |]. right.
    apply unmatched_true in Hne, Hjne. unfold contained, absent in *.
    rewrite Hne in *. simpl in *. rewrite Hcont. done.
Qed.

Lemma applyDiffConstraint_records_unconsumed_witness :
  ∃ c, applyDiffConstraint newConstraints (bytes "sassy") (bytes "glass") = Ok c ∧
       wfConstraints c ∧
       (∀ j g, bytes "sassy" !! j = Some g →
               position c !! j
               = Some (if decide (bytes "sassy" !! j = bytes "glass" !! j)
                       then g else 0)) ∧
       contains c =
         omap (λ i, if contained (bytes "sassy") (bytes "glass") i
                    then bytes "sassy" !! i else None) (seq 0 5) ∧
       (∀ i, contained (bytes "sassy") (bytes "glass") i = true ↔
             bytes "sassy" !! i ≠ bytes "glass" !! i ∧
             ∃ j, (j < 5)%nat ∧ bytes "sassy" !! j ≠ bytes "glass" !! j ∧
                  bytes "glass" !! j = bytes "sassy" !! i) ∧
       (∀ j b, lowercase b →
          excludedAtPosition c j b ↔
          ∃ i, (i < 5)%nat ∧ bytes "sassy" !! i = Some b ∧
               bytes "sassy" !! i ≠ bytes "glass" !! i ∧
               ((contained (bytes "sassy") (bytes "glass") i = true ∧ j = i) ∨
                (contained (bytes "sassy") (bytes "glass") i = false ∧
                 (j < 5)%nat ∧ bytes "sassy" !! j ≠ bytes "glass" !! j))) ∧
       (∀ i g, (i < 5)%nat → bytes "sassy" !! i = Some g →
               contained (bytes "sassy") (bytes "glass") i = true →
               excludedAtPosition c i g) ∧
       (∀ i g j, (i < 5)%nat → bytes "sassy" !! i = Some g →
                 bytes "sassy" !! i ≠ bytes "glass" !! i →
                 contained (bytes "sassy") (bytes "glass") i = false →
                 (j < 5)%nat → bytes "sassy" !! j ≠ bytes "glass" !! j →
                 excludedAtPosition c j g).
Proof.
  apply (applyDiffConstraint_records_unconsumed (bytes "sassy") (bytes "glass")).
  - solve_wf.
  - solve_wf.
Defined.

(** The model of that diff, computed: position 3 is fixed to 's'; the
    letters required are s, a, s; 's' is excluded at positions 0 and 2,
    'a' at position 1, and 'y' at the four positions that are not
    fixed.  Nothing else is excluded. *)
Lemma sassy_glass_model :
  ∃ c, applyDiffConstraint newConstraints (bytes "sassy") (bytes "glass") = Ok c ∧
       position c = [0; 0; 0; 115; 0] ∧
       contains c = bytes "sas" ∧
       notPosition c
       = (λ j : nat, (λ k : nat,
            bool_decide ((j, k) ∈ [(0, 18); (2, 18); (1, 0);
                                    (0, 24); (1, 24); (2, 24); (4, 24)]%nat))
            <$> seq 0 26) <$> seq 0 5.
Proof. eexists. vm_compute. by split_and!. Qed.

(** C3 — The position-aware [applyDiffConstraint] and the one that ignores
    multiplicity diverge on repeated letters: for guess "sassy" (three 's')
    and answer "glass", the two models keep different words of one catalog;
    the simpler model keeps "arose", whose only 's' is the exact match. *)
Theorem variants_diverge_on_repeated_letters :
  ∃ (guess answer : list Z) (words : list (word Q)) c1 c2 out1 out2,
    wfWord guess ∧ wfWord answer ∧ wfCatalog words ∧
    ¬ NoDup guess ∧
    applyDiffConstraint newConstraints guess answer = Ok c1 ∧
    Simple.applyDiffConstraint Simple.newConstraints guess answer = Ok c2 ∧
    filter c1 words = Ok out1 ∧
    Simple.filter c2 words = Ok out2 ∧
    texts out1 = [bytes "glass"] ∧
    texts out2 = [bytes "glass"; bytes "arose"] ∧
    out1 ≠ out2.
Proof.
  exists (bytes "sassy"), (bytes "glass"), sampleCatalog.
  do 4 eexists. split_and!.
  - solve_wf.
  - solve_wf.
  - solve_wf.
  - intros Hnd. apply NoDup_cons in Hnd as [Hnot _]. apply Hnot.
    vm_compute. apply list_elem_of_further, list_elem_of_here.
  - vm_compute. reflexivity.
  - vm_compute. reflexivity.
  - vm_compute. reflexivity.
  - vm_compute. reflexivity.
  - vm_compute. reflexivity.
  - vm_compute. reflexivity.
  - discriminate.
Qed.

(** C5 — The scenario with a confirmed letter also marked absent: the line
    "+a -l -p -h -a" parses to a model that fixes position 0 to 'a'; on the
    catalog alpha, allot, apple, adieu, amber the filter keeps exactly adieu
    and amber, whose only 'a' is the fixed one; and no five-letter word with
    an 'l', a 'p' or an 'h', or with another letter than 'a' in front, is
    consistent with the model. *)
Theorem scenario_confirmed_letter_also_absent :
  ∃ c out,
    inputConstraints (bytes "+a -l -p -h -a") = Ok (Some c) ∧
    fixedPosition c 0 = Some ch_a ∧
    filter c scenarioCatalog = Ok out ∧
    texts out = [bytes "adieu"; bytes "amber"] ∧
    ∀ w b, wfWord w → consistent c w → b ∈ bytes "lph" →
           w !! 0%nat = Some ch_a ∧ b ∉ w.
Proof.
  exists scenarioModel. eexists. split_and!.
  - vm_compute. reflexivity.
  - vm_compute. reflexivity.
  - vm_compute. reflexivity.
  - vm_compute. reflexivity.
  - intros w b [Hlen Hlow] (H1 & H2 & _) Hb.
    assert (w !! 0%nat = Some ch_a) as H0 by (apply H1; [lia | by vm_compute]).
    assert (∀ i b, (1 ≤ i < 5)%nat → (b = 108 ∨ b = 112 ∨ b = 104) →
                   w !! i ≠ Some b) as Hno.
    { clear b Hb. intros i b Hi Hb Hw.
      assert (fixedPosition scenarioModel i = Some b) as Hfix.
      { apply (H2 i b); [lia | done |].
        unfold excludedAtPosition.
        destruct i as [|[|[|[|[|i]]]]]; try lia;
          destruct Hb as [-> | [-> | ->]]; eexists; split; by vm_compute. }
      destruct i as [|[|[|[|[|i]]]]]; try lia; by vm_compute in Hfix. }
    split; [done |].
    assert (b = 108 ∨ b = 112 ∨ b = 104) as Hb'.
    { vm_compute in Hb. repeat (apply elem_of_cons in Hb as [-> | Hb]; [auto |]).
      by apply elem_of_nil in Hb. }
    intros Hin. apply list_elem_of_lookup in Hin as [i Hi].
    pose proof (lookup_lt_Some _ _ _ Hi) as Hlt. rewrite Hlen in Hlt.
    destruct (decide (i = 0%nat)) as [-> | Hnz].
    + rewrite H0 in Hi. injection Hi as <-. unfold ch_a in Hb'. lia.
    + apply (Hno i b); [lia | done | done].
Qed.

(** ** Exact arithmetic and insertion sort meet what the ranking proofs ask *)

Lemma fleQ_iff x y : fleQ x y ↔ (x <= y)%Q.
Proof.
  unfold fleQ, fle, Qgtb. rewrite Qeq_bool_iff, negb_true_iff.
  rewrite <- not_true_iff_false, Qle_bool_iff. split.
  - intros [H | H]; [lra |]. destruct (Qlt_le_dec x y); [lra | done].
  - intros H. destruct (Qeq_dec x y) as [? | Hne]; [by left | right]. lra.
Qed.

Lemma withinQ_iff l h v :
  within Q inject_Z Qeq_bool Qgtb l h v ↔ (inject_Z l <= v ∧ v <= inject_Z h)%Q.
Proof. unfold within. by rewrite !(fleQ_iff). Qed.

Lemma meanQ_first (l n h : Z) :
  l ≤ n ≤ h →
  within Q inject_Z Qeq_bool Qgtb l h (meanUpdate Q inject_Z Qplus Qminus Qdiv 0%Q n 0).
Proof.
  intros [Hl Hh]. apply withinQ_iff. unfold meanUpdate.
  change (inject_Z (Z.of_nat 0 + 1)) with 1%Q.
  rewrite Zle_Qle in Hl, Hh.
  assert (0 + (inject_Z n - 0) / 1 == inject_Z n)%Q as -> by field.
  done.
Qed.

Lemma meanQ_next (l n h : Z) (avg : Q) (i : nat) :
  1 ≤ l → l ≤ n ≤ h → h ≤ maxInt → (1 ≤ i)%nat →
  within Q inject_Z Qeq_bool Qgtb l h avg →
  within Q inject_Z Qeq_bool Qgtb l h (meanUpdate Q inject_Z Qplus Qminus Qdiv avg n i).
Proof.
  intros _ [Hl Hh] _ Hi. rewrite !withinQ_iff. intros [Hal Hah].
  unfold meanUpdate. rewrite Zle_Qle in Hl, Hh.
  set (k := inject_Z (Z.of_nat i + 1)).
  assert (2 <= k)%Q as Hk.
  { unfold k. change 2%Q with (inject_Z 2). rewrite <- Zle_Qle. lia. }
  assert (0 < / k)%Q as Ht by (apply Qinv_lt_0_compat; lra).
  assert (k * / k == 1)%Q as Hkt by (apply Qmult_inv_r; lra).
  unfold Qdiv. set (t := (/ k)%Q) in *.
  assert (t <= 1)%Q as Ht1 by nra.
  split; nra.
Qed.

Lemma Qeqb_key (x y : Q) :
  Qeq_bool x y = true ↔ ∃ p q, Some x = Some p ∧ Some y = Some q ∧ (p == q)%Q.
Proof.
  rewrite Qeq_bool_iff. split.
  - intros H. by exists x, y.
  - intros (p & q & [= <-] & [= <-] & H). done.
Qed.

Lemma Qgtb_key (x y : Q) :
  Qgtb x y = true ↔ ∃ p q, Some x = Some p ∧ Some y = Some q ∧ (q < p)%Q.
Proof.
  unfold Qgtb. rewrite negb_true_iff, <- not_true_iff_false, Qle_bool_iff. split.
  - intros H. exists x, y. split_and!; [done | done |].
    destruct (Qlt_le_dec y x); [done | lra].
  - intros (p & q & [= <-] & [= <-] & H). lra.
Qed.

(** ** Instances of the theorems that carry hypotheses *)

Lemma filter_characterization_witness :
  ∃ keep : word Q → bool,
    (∀ w, w ∈ scenarioCatalog → keep w = true ↔ consistent scenarioModel (w_word w)) ∧
    filter scenarioModel scenarioCatalog = Ok (List.filter keep scenarioCatalog).
Proof.
  apply (filter_characterization scenarioModel scenarioCatalog).
  - solve_wf.
  - solve_wf.
Defined.

Lemma filter_idempotent_witness :
  ∃ out, filter scenarioModel scenarioCatalog = Ok out ∧ filter scenarioModel out = Ok out.
Proof.
  apply (filter_idempotent scenarioModel scenarioCatalog).
  - solve_wf.
  - solve_wf.
Defined.

Lemma expectedNextSetSize_between_one_and_size_witness :
  (∃ v, expectedNextSetSizeQ sampleCatalog (bytes "sassy") = Ok v ∧
        fleQ (inject_Z 1) v ∧ fleQ v (inject_Z (Z.of_nat (length sampleCatalog)))) ∧
  (∀ c0 w, wfConstraints c0 → w ∈ sampleCatalog →
     ∃ c n, applyDiffConstraint (clearConstraints c0) (bytes "sassy") (w_word w) = Ok c ∧
            forLoop (expectedNextSetSize_count Q c sampleCatalog) 0 (length sampleCatalog) 0
              = Ok n ∧
            1 ≤ n ≤ Z.of_nat (length sampleCatalog)).
Proof.
  apply (expectedNextSetSize_between_one_and_size Q 0%Q inject_Z Qplus Qminus Qdiv
           Qeq_bool Qgtb meanQ_first meanQ_next sampleCatalog (bytes "sassy")).
  - discriminate.
  - vm_compute. discriminate.
  - solve_wf.
  - solve_wf.
Defined.

Lemma suggest_empty_pool_witness :
  sortWordsQ [] = Ok [] ∧
  (∀ guess, expectedNextSetSizeQ [] guess = Ok 0%Q) ∧
  suggestQ [] = Ok {| printed := []; candidates := 0 |}.
Proof.
  apply (suggest_empty_pool Q 0%Q inject_Z Qplus Qminus Qdiv Qeq_bool Qgtb insertionSort
           (@insertionSort_Permutation)).
Defined.

Lemma sortWords_orders_shortlist_witness :
  ∃ words' s,
    sortWordsQ sampleCatalog = Ok words' ∧ suggestQ sampleCatalog = Ok s ∧
    length words' = length sampleCatalog ∧
    texts words' ≡ₚ texts sampleCatalog ∧
    (∀ i j a b,
       (length sampleCatalog - shortlistSize (length sampleCatalog) ≤ i)%nat → (i < j)%nat →
       words' !! i = Some a → words' !! j = Some b → prefers Q Qeq_bool Qgtb a b) ∧
    printed Q s = drop (length sampleCatalog - 20 `min` length sampleCatalog) words' ∧
    (20 `min` length sampleCatalog ≤ shortlistSize (length sampleCatalog))%nat ∧
    candidates Q s = Z.of_nat (length sampleCatalog).
Proof.
  apply (sortWords_orders_shortlist Q 0%Q inject_Z Qplus Qminus Qdiv Qeq_bool Qgtb
           insertionSort (@insertionSort_Permutation) (@insertionSort_sortedBy)
           meanQ_first meanQ_next Some Qeqb_key Qgtb_key sampleCatalog).
  - solve_wf.
  - vm_compute. discriminate.
Defined.

(** C7 (as stated, refuted) — on the catalog glass (50), arose (40),
    sassy (30), gloss (20), run on binary64 floats, [sortWords] leaves
    arose, gloss, sassy, glass in this order: the three words whose [exp]
    is 1 come in order of increasing [freq], and the word at the preferred
    end, the last, is glass, the most frequent of them, not gloss, the
    rarest. *)
Lemma sortWords_ties_go_to_the_frequent :
  ∃ sorted rare preferred,
    sortWords64 tieCatalog = Ok sorted ∧
    texts sorted = [bytes "arose"; bytes "gloss"; bytes "sassy"; bytes "glass"] ∧
    w_exp <$> sorted = [1.5%float; 1%float; 1%float; 1%float] ∧
    w_freq <$> sorted = [40; 20; 30; 50] ∧
    sorted !! 1%nat = Some rare ∧ last sorted = Some preferred ∧
    w_word rare = bytes "gloss" ∧ w_word preferred = bytes "glass" ∧
    PrimFloat.eqb (w_exp rare) (w_exp preferred) = true ∧
    w_freq rare < w_freq preferred.
Proof. do 3 eexists. split_and!; vm_compute; reflexivity. Qed.

(** * Further properties of the code *)

(** ** The constraint model between two guesses *)

Lemma fmap_const_replicate {A B} (x : B) (l : list A) :
  (λ _ : A, x) <$> l = replicate (length l) x.
Proof. induction l as [|a l IH]; [done |]. rewrite fmap_cons. simpl. by f_equal. Qed.

Lemma fmap_clear_rows (n : nat) (rows : list (list bool)) :
  Forall (λ row, length row = n) rows →
  (λ row : list bool, (λ _ : bool, false) <$> row) <$> rows =
    replicate (length rows) (replicate n false).
Proof.
  induction 1 as [|row rows Hrow _ IH]; [done |].
  rewrite fmap_cons. cbn [length replicate]. f_equal; [| exact IH].
  by rewrite fmap_const_replicate, Hrow.
Qed.

Lemma clearConstraints_new (c : constraints) :
  wfConstraints c → clearConstraints c = newConstraints.
Proof.
  intros (Hp & Hn & Hrows). unfold clearConstraints, newConstraints. f_equal.
  - by rewrite fmap_const_replicate, Hp.
  - by rewrite (fmap_clear_rows 26 _ Hrows), Hn.
Qed.

(** X1 — [clearConstraints] puts a model back into the state in which
    [newConstraints] creates it, whatever it held: the five positions
    zero, the 5x26 table false, no required letter. *)
Theorem clearConstraints_is_newConstraints (c : constraints) :
  wfConstraints c →
  clearConstraints c = newConstraints ∧
  position (clearConstraints c) = replicate 5 0 ∧
  notPosition (clearConstraints c) = replicate 5 (replicate 26 false) ∧
  contains (clearConstraints c) = [].
Proof. intros Hc. by rewrite (clearConstraints_new c Hc). Qed.

Lemma clearConstraints_is_newConstraints_witness :
  clearConstraints scenarioModel = newConstraints ∧
  position (clearConstraints scenarioModel) = replicate 5 0 ∧
  notPosition (clearConstraints scenarioModel) = replicate 5 (replicate 26 false) ∧
  contains (clearConstraints scenarioModel) = [].
Proof. apply (clearConstraints_is_newConstraints scenarioModel). solve_wf. Defined.

(** ** What a diff does to the guess itself *)

(** X2 — A wrong guess never survives its own feedback: if the guess is not
    the answer, the model built by diffing it against the answer rejects
    the guess, so [filter] removes every copy of it from the catalog. *)
Theorem wrong_guess_is_filtered_out {F} (c : constraints) (words : list (word F))
    (guess answer : list Z) :
  wfConstraints c → wfCatalog words → wfWord guess → wfWord answer → guess ≠ answer →
  ∃ c' out, applyDiffConstraint (clearConstraints c) guess answer = Ok c' ∧
            satisfies c' guess = Ok false ∧
            filter c' words = Ok out ∧ guess ∉ texts out.
Proof.
  intros Hc Hwords Hguess Hanswer Hne.
  destruct (applyDiffConstraint_spec guess answer Hguess Hanswer (clearConstraints c))
    as (c' & Hrun & Hc' & Hpos & Hcs & Hex); [by apply clearConstraints_cleared |].
  assert (consistentb c' guess = false) as Hb.
  { apply (applyDiffConstraint_rejects_guess (clearConstraints c) guess answer);
      [done | done | by apply clearConstraints_cleared | done | done]. }
  exists c'. eexists. split_and!; [done | | by apply filter_List_filter |].
  - by rewrite satisfies_consistentb, Hb.
  - unfold texts. intros Hin. apply list_elem_of_fmap in Hin as (w & -> & Hw).
    apply list_elem_of_In, List.filter_In in Hw as [_ Hk]. congruence.
Qed.

Lemma wrong_guess_is_filtered_out_witness :
  ∃ c' out, applyDiffConstraint (clearConstraints newConstraints) (bytes "sassy")
              (bytes "glass") = Ok c' ∧
            satisfies c' (bytes "sassy") = Ok false ∧
            filter c' sampleCatalog = Ok out ∧ bytes "sassy" ∉ texts out.
Proof.
  apply (wrong_guess_is_filtered_out newConstraints sampleCatalog (bytes "sassy")
           (bytes "glass")).
  - solve_wf.
  - solve_wf.
  - solve_wf.
  - solve_wf.
  - vm_compute. discriminate.
Defined.

(** X3 — Diffing the answer against itself fixes all five positions: the
    model accepts the answer and no other five-letter word. *)
Theorem exact_guess_admits_only_the_answer (c : constraints) (answer : list Z) :
  wfConstraints c → wfWord answer →
  ∃ c', applyDiffConstraint (clearConstraints c) answer answer = Ok c' ∧
        position c' = answer ∧ contains c' = [] ∧
        ∀ w, wfWord w → (satisfies c' w = Ok true ↔ w = answer).
Proof.
  intros Hc Hanswer.
  destruct (applyDiffConstraint_spec answer answer Hanswer Hanswer (clearConstraints c))
    as (c' & Hrun & Hc' & Hpos & Hcs & Hex); [by apply clearConstraints_cleared |].
  assert (∀ j, unmatched answer answer j = false) as Hu.
  { intros j. by apply unmatched_false. }
  assert (position c' = answer) as Hp.
  { apply list_eq. intros j. destruct (decide (j < 5)%nat) as [Hj | Hj].
    - rewrite (Hpos j Hj). unfold fixedLetter. rewrite Hu.
      destruct (wfWord_lookup answer j Hanswer Hj) as (a & Ha & _).
      by rewrite Ha, (list_lookup_total_correct _ _ _ Ha).
    - destruct Hc' as (Hl & _). destruct Hanswer as (Hl' & _).
      rewrite !lookup_ge_None_2 by lia. done. }
  exists c'. split_and!; [done | done | |].
  - rewrite Hcs. unfold containedLetters, contained.
    induction (seq 0 5) as [|k ks IH]; [done |]. simpl. by rewrite Hu.
  - intros w Hw. rewrite satisfies_consistentb by done. split.
    + intros [= Hb]. apply consistentb_consistent in Hb as (H1 & _); [| done | done].
      apply list_eq. intros j. destruct (decide (j < 5)%nat) as [Hj | Hj].
      * destruct (wfWord_lookup answer j Hanswer Hj) as (a & Ha & Hlow).
        rewrite Ha. apply (H1 j a Hj). apply fixedPosition_Some.
        split; [by rewrite Hp | by apply lowercase_nonzero].
      * destruct Hw as (Hl & _). destruct Hanswer as (Hl' & _).
        rewrite !lookup_ge_None_2 by lia. done.
    + intros ->. f_equal. apply consistentb_consistent; [done | done |].
      destruct (applyDiffConstraint_sound (clearConstraints c) answer answer)
        as (c'' & Hrun' & _ & Hcons); [done | done | by apply clearConstraints_cleared |].
      congruence.
Qed.

Lemma exact_guess_admits_only_the_answer_witness :
  ∃ c', applyDiffConstraint (clearConstraints newConstraints) (bytes "glass")
          (bytes "glass") = Ok c' ∧
        position c' = bytes "glass" ∧ contains c' = [] ∧
        ∀ w, wfWord w → (satisfies c' w = Ok true ↔ w = bytes "glass").
Proof.
  apply (exact_guess_admits_only_the_answer newConstraints (bytes "glass")).
  - solve_wf.
  - solve_wf.
Defined.

(** ** Successive filters *)

Lemma List_filter_comm {A} (f g : A → bool) l :
  List.filter f (List.filter g l) = List.filter g (List.filter f l).
Proof.
  induction l as [|x l IH]; [done |]. simpl.
  destruct (g x) eqn:Hg, (f x) eqn:Hf; simpl; rewrite ?Hg, ?Hf, ?IH; done.
Qed.

(** X4 — Filtering by one model and then by another never panics on a
    catalog of five-letter words, gives the same list in either order, only
    drops words (the result is a sublist of the catalog, in its order) and
    keeps exactly the words consistent with both models. *)
Theorem filter_twice {F} (c1 c2 : constraints) (words : list (word F)) :
  wfConstraints c1 → wfConstraints c2 → wfCatalog words →
  ∃ out, filter c1 words ≫= filter c2 = Ok out ∧
         filter c2 words ≫= filter c1 = Ok out ∧
         out `sublist_of` words ∧
         (length out ≤ length words)%nat ∧
         ∀ w, w ∈ out ↔
              w ∈ words ∧ consistent c1 (w_word w) ∧ consistent c2 (w_word w).
Proof.
  intros Hc1 Hc2 Hwords.
  set (k1 := λ w : word F, consistentb c1 (w_word w)).
  set (k2 := λ w : word F, consistentb c2 (w_word w)).
  exists (List.filter k2 (List.filter k1 words)). split_and!.
  - rewrite (filter_List_filter c1 words Hc1 Hwords). cbn [mbind result_bind].
    apply filter_List_filter; [done | by apply wfCatalog_filter].
  - rewrite (filter_List_filter c2 words Hc2 Hwords). cbn [mbind result_bind].
    rewrite filter_List_filter; [| done | by apply wfCatalog_filter].
    fold k1 k2. by rewrite List_filter_comm.
  - etrans; apply List_filter_sublist.
  - etrans; [apply List.filter_length_le |]. apply List.filter_length_le.
  - intros w. rewrite list_elem_of_In, !List.filter_In, <- list_elem_of_In.
    unfold k1, k2. split.
    + intros [[Hw H1] H2].
      assert (wfWord (w_word w)) as Hwf.
      { unfold wfCatalog in Hwords. rewrite Forall_forall in Hwords. by apply Hwords. }
      split_and!; [done | by apply consistentb_consistent..].
    + intros (Hw & H1 & H2).
      assert (wfWord (w_word w)) as Hwf.
      { unfold wfCatalog in Hwords. rewrite Forall_forall in Hwords. by apply Hwords. }
      split_and!; [done | by apply consistentb_consistent..].
Qed.

Lemma filter_twice_witness :
  ∃ out, filter scenarioModel scenarioCatalog ≫= filter newConstraints = Ok out ∧
         filter newConstraints scenarioCatalog ≫= filter scenarioModel = Ok out ∧
         out `sublist_of` scenarioCatalog ∧
         (length out ≤ length scenarioCatalog)%nat ∧
         ∀ w, w ∈ out ↔
              w ∈ scenarioCatalog ∧ consistent scenarioModel (w_word w) ∧
              consistent newConstraints (w_word w).
Proof.
  apply (filter_twice scenarioModel newConstraints scenarioCatalog).
  - solve_wf.
  - solve_wf.
  - solve_wf.
Defined.

(** ** The frequency table *)

Lemma updateCell_spec t i r f :
  wfTable t → (i < 5)%nat → 0 ≤ r < 255 →
  ∃ t', updateCell t i r f = Ok t' ∧ wfTable t' ∧
        ∀ i' r', 0 ≤ r' →
          cell t' i' r' = if decide (i' = i ∧ r' = r) then f (cell t i r) else cell t i' r'.
Proof.
  intros [Hlen Hrows] Hi Hr.
  destruct (lookup_lt_is_Some_2 t i) as [row Hrow]; [lia |].
  assert (length row = 255%nat) as Hrl by (by eapply (Forall_lookup_1 _ _ _ _ Hrows)).
  destruct (lookup_lt_is_Some_2 row (Z.to_nat r)) as [v Hv]; [lia |].
  unfold updateCell. rewrite (index_Ok _ _ _ Hrow). cbn [mbind result_bind].
  rewrite (index_Ok _ _ _ Hv). cbn [mbind result_bind].
  rewrite store_Ok by lia. cbn [mbind result_bind].
  rewrite store_Ok by lia. eexists. split; [done |]. split.
  { split; [by rewrite length_insert |].
    apply Forall_insert; [done |]. by rewrite length_insert. }
  intros i' r' Hr'. unfold cell. rewrite Hrow, Hv. cbn [default].
  destruct (decide (i' = i)) as [-> | Hne].
  - rewrite list_lookup_insert_eq by lia.
    destruct (decide (r' = r)) as [-> | Hner].
    + rewrite decide_True by done. by rewrite list_lookup_insert_eq by lia.
    + rewrite decide_False by (intros [_ ?]; done).
      rewrite list_lookup_insert_ne by lia. by rewrite Hrow.
  - rewrite decide_False by (intros [? _]; done).
    by rewrite list_lookup_insert_ne by done.
Qed.

Lemma letterFreqByPosition_word_spec (w : list Z) :
  ∀ (k : nat) (freq : list (list Z)),
    wfTable freq → (k + length w ≤ 5)%nat → Forall (λ b, 0 ≤ b < 255) w →
    ∃ freq', letterFreqByPosition_word (imap (λ j b, ((k + j)%nat, b)) w) freq = Ok freq' ∧
             wfTable freq' ∧
             ∀ i r, 0 ≤ r →
               cell freq' i r =
                 cell freq i r +
                 (if decide ((k ≤ i)%nat ∧ w !! (i - k)%nat = Some r) then 1 else 0).
Proof.
  induction w as [|b w IH]; intros k freq Hfreq Hlen Hall.
  { exists freq. split_and!; [done | done |]. intros i r _.
    rewrite decide_False by (intros [_ ?]; done). lia. }
  apply Forall_cons in Hall as [Hb Hall]. cbn [length] in Hlen.
  rewrite imap_cons. cbn [letterFreqByPosition_word]. rewrite Nat.add_0_r.
  destruct (updateCell_spec freq k b (λ v, v + 1) Hfreq) as (freq1 & -> & Hfreq1 & Hc1);
    [lia | done |].
  cbn [mbind result_bind].
  rewrite (imap_ext _ (λ j b0, ((S k + j)%nat, b0))) by (intros; simpl; f_equal; lia).
  destruct (IH (S k) freq1 Hfreq1) as (freq2 & -> & Hfreq2 & Hc2); [lia | done |].
  exists freq2. split_and!; [done | done |]. intros i r Hr.
  rewrite (Hc2 i r Hr), (Hc1 i r Hr).
  destruct (decide (i = k)) as [-> | Hne].
  - rewrite Nat.sub_diag. cbn [lookup list_lookup].
    repeat case_decide; destruct_and?; simplify_eq; try lia;
      exfalso; naive_solver lia.
  - destruct (decide (k ≤ i)%nat) as [Hle | Hgt].
    + replace (i - k)%nat with (S (i - S k)) by lia. cbn [lookup list_lookup].
      repeat case_decide; destruct_and?; simplify_eq; try lia;
        exfalso; naive_solver lia.
    + repeat case_decide; destruct_and?; simplify_eq; try lia.
Qed.

Lemma letterCount_snoc {F} (words : list (word F)) (w : word F) i r :
  letterCount (words ++ [w]) i r =
    letterCount words i r + (if decide (w_word w !! i = Some r) then 1 else 0).
Proof.
  unfold letterCount. rewrite List.filter_app, length_app. cbn [List.filter].
  destruct (decide (w_word w !! i = Some r)) as [H | H].
  - rewrite bool_decide_eq_true_2 by done. simpl. lia.
  - rewrite bool_decide_eq_false_2 by done. simpl. lia.
Qed.

(** X5 — [letterFreqByPosition] counts, for each of the five positions and
    each letter, the words of the pool that have the letter there. *)
Theorem letterFreqByPosition_counts {F} (words : list (word F)) :
  wfCatalog words →
  ∃ freq, letterFreqByPosition words = Ok freq ∧ wfTable freq ∧
          ∀ i r, (i < 5)%nat → 0 ≤ r < 255 → cell freq i r = letterCount words i r.
Proof.
  intros Hwords.
  destruct (forLoop_inv
    (λ k freq, wfTable freq ∧
               ∀ i r, 0 ≤ r → cell freq i r = letterCount (take k words) i r)
    (letterFreqByPosition_step words) (length words) 0%nat zeroTable)
    as (freq & Hrun & Hfreq & Hcount).
  - split; [apply zeroTable_wf |]. intros i r Hr. unfold cell, zeroTable.
    destruct (replicate 5 (replicate 255 0) !! i) as [row|] eqn:Hrow; [| done].
    apply lookup_replicate in Hrow as [-> _].
    destruct (replicate 255 0 !! Z.to_nat r) as [v|] eqn:Hv; [| done].
    by apply lookup_replicate in Hv as [-> _].
  - intros k freq Hk [Hfreq Hcount].
    destruct (lookup_lt_is_Some_2 words k) as [w Hw]; [lia |].
    assert (wfWord (w_word w)) as [Hlen Hlow]
      by (by eapply (Forall_lookup_1 _ _ _ _ Hwords)).
    unfold letterFreqByPosition_step. rewrite (index_Ok _ _ _ Hw).
    cbn [mbind result_bind]. unfold runes.
    destruct (letterFreqByPosition_word_spec (w_word w) 0%nat freq Hfreq)
      as (freq' & Hrun' & Hfreq' & Hc'); [lia | |].
    { eapply List.Forall_impl; [| exact Hlow]. unfold lowercase, ch_a, ch_z.
      intros b. simpl. lia. }
    cbn [Nat.add] in Hrun'. rewrite Hrun'.
    exists freq'. split_and!; [done | done |]. intros i r Hr.
    rewrite (take_S_r _ _ _ Hw), letterCount_snoc, (Hc' i r Hr), (Hcount i r Hr).
    rewrite Nat.sub_0_r. f_equal.
    destruct (decide (w_word w !! i = Some r)) as [H | H].
    + rewrite decide_True by (split; [lia | done]). done.
    + rewrite decide_False by (intros [_ ?]; done). done.
  - exists freq. split_and!; [done | done |]. intros i r _ [Hr _].
    rewrite (Hcount i r Hr). cbn [Nat.add]. by rewrite firstn_all.
Qed.

Lemma letterFreqByPosition_counts_witness :
  ∃ freq, letterFreqByPosition sampleCatalog = Ok freq ∧ wfTable freq ∧
          ∀ i r, (i < 5)%nat → 0 ≤ r < 255 →
                 cell freq i r = letterCount sampleCatalog i r.
Proof. apply (letterFreqByPosition_counts sampleCatalog). solve_wf. Defined.

(** ** Instances of the ranking theorems *)

Lemma letterScoreByPosition_ranks_witness :
  ∃ posScore, letterScoreByPosition insertionSort zeroTable = Ok posScore ∧
              wfTable posScore ∧ ∀ i, (i < 5)%nat → rankedRow zeroTable posScore i.
Proof.
  apply (letterScoreByPosition_ranks insertionSort (@insertionSort_Permutation)
           (@insertionSort_sortedBy) zeroTable).
  apply zeroTable_wf.
Defined.

Lemma sortWords_scores_and_order_witness :
  ∃ posFreq posScore sorted,
    letterFreqByPosition sampleCatalog = Ok posFreq ∧
    letterScoreByPosition insertionSort posFreq = Ok posScore ∧
    sortWordsQ sampleCatalog = Ok sorted ∧
    entry <$> sorted ≡ₚ entry <$> sampleCatalog ∧
    (∀ w, w ∈ sorted →
          w_score w = rankSum posScore (w_word w) ∧ 0 ≤ w_score w ≤ 1270) ∧
    (∀ i j a b,
       (i < j)%nat →
       (i < length sampleCatalog - shortlistSize (length sampleCatalog))%nat →
       sorted !! i = Some a → sorted !! j = Some b →
       lessByScore Q b a = false).
Proof.
  apply (sortWords_scores_and_order Q 0%Q inject_Z Qplus Qminus Qdiv Qeq_bool Qgtb
           insertionSort (@insertionSort_Permutation) (@insertionSort_sortedBy)
           meanQ_first meanQ_next sampleCatalog).
  - solve_wf.
  - vm_compute. discriminate.
Defined.

(** ** The two modes of [main], on rationals *)


Lemma main_interactive_keeps_consistent_words_witness :
  ∃ final out,
    main_interactiveQ [bytes "-g -l +a ~s -s"; bytes "help"; bytes "quit"] sampleCatalog
      = Ok (final, out) ∧
    entry <$> final ⊆+ entry <$> sampleCatalog ∧
    ∀ w, w ∈ texts sampleCatalog →
         (∀ line c, line ∈ [bytes "-g -l +a ~s -s"; bytes "help"; bytes "quit"] →
                    inputConstraints line = Ok (Some c) → satisfies c w = Ok true) →
         w ∈ texts final.
Proof.
  apply (main_interactive_keeps_consistent_words Q 0%Q inject_Z Qplus Qminus Qdiv
           Qeq_bool Qgtb insertionSort (@insertionSort_Permutation) meanQ_first
           meanQ_next [bytes "-g -l +a ~s -s"; bytes "help"; bytes "quit"] sampleCatalog).
  - solve_wf.
  - vm_compute. discriminate.
Defined.

(** ** Reading the frequency list *)

Section LoadingProofs.

Variable Atoi : list Z → option Z.
Context {F : Type}.
Variable zero : F.

Local Abbreviation mkWord w freq :=
  ({| w_word := w; w_freq := freq; w_score := 0; w_exp := zero |} : word F).
Local Abbreviation entryWords line :=
  (match lineEntry Atoi line with Some e => [mkWord e.1 e.2] | None => [] end).

Lemma IndexFunc_from_spec w i :
  0 ≤ i →
  (Forall lowercase w ∧ IndexFunc_from w i = -1) ∨
  (¬ Forall lowercase w ∧ i ≤ IndexFunc_from w i).
Proof.
  revert i. induction w as [|b w IH]; intros i Hi; [by left |].
  cbn [IndexFunc_from]. destruct (decide (b < ch_a ∨ b > ch_z)) as [Hb | Hb].
  - right. split; [| lia]. intros H. apply Forall_cons in H as [Hl _].
    unfold lowercase in Hl. lia.
  - destruct (IH (i + 1)) as [[Hw Hr] | [Hw Hr]]; [lia | |].
    + left. split; [| done]. constructor; [unfold lowercase; lia | done].
    + right. split; [| lia]. intros H. by apply Forall_cons in H as [_ ?].
Qed.

(** The test of the loop skips the words [wfWord] rejects. *)
Lemma initialCandidates_skips w :
  length w ≠ 5%nat ∨ IndexFunc_notLower w >= 0 ↔ ¬ wfWord w.
Proof.
  unfold IndexFunc_notLower, wfWord.
  destruct (IndexFunc_from_spec w 0) as [[Hw Hr] | [Hw Hr]]; [done | |].
  - rewrite Hr. split; [intros [? | ?] [? _]; [done | lia] |].
    intros H. left. intros Hl. by apply H.
  - split; [by intros _ [_ ?] | intros _; right; lia].
Qed.

Lemma initialCandidates_line_good line (words : list (word F)) :
  goodLine Atoi line →
  initialCandidates_line Atoi zero line words = Ok (Returned (words ++ entryWords line)).
Proof.
  unfold goodLine, initialCandidates_line, lineEntry.
  destruct (Fields line) as [|w [|f fields]]; [done | |].
  - intros Hw. cbn [index lookup list_lookup mbind result_bind].
    rewrite decide_True by (by apply initialCandidates_skips).
    by rewrite app_nil_r.
  - intros Hf. cbn [index lookup list_lookup mbind result_bind].
    destruct (decide (wfWord w)) as [Hw | Hw].
    + rewrite decide_False by (by rewrite initialCandidates_skips; intros ?).
      destruct (Hf Hw) as [freq ->]. done.
    + rewrite decide_True by (by apply initialCandidates_skips).
      by rewrite app_nil_r.
Qed.

(** A line that is not good ends the program: with a panic when the field
    the loop indexes is missing, with [os.Exit(1)] when [Atoi] fails. *)
Lemma initialCandidates_line_bad line (words : list (word F)) :
  ¬ goodLine Atoi line →
  initialCandidates_line Atoi zero line words =
    if decide (2 ≤ length (Fields line))%nat then Ok Exited else Panic.
Proof.
  unfold goodLine, initialCandidates_line.
  destruct (Fields line) as [|w [|f fields]]; [done | |].
  - intros Hw. apply dec_stable in Hw.
    cbn [index lookup list_lookup mbind result_bind].
    by rewrite decide_False by (by rewrite initialCandidates_skips; intros ?).
  - intros Hf. cbn [index lookup list_lookup mbind result_bind].
    destruct (decide (wfWord w)) as [Hw | Hw]; [| by destruct Hf].
    rewrite decide_False by (by rewrite initialCandidates_skips; intros ?).
    destruct (Atoi f) as [freq|] eqn:Hfreq; [destruct Hf; by eexists |].
    rewrite decide_True by (simpl; lia). done.
Qed.

Lemma entryWords_spec line :
  wfCatalog (entryWords line) ∧
  entry <$> entryWords line = option_list (lineEntry Atoi line) ∧
  Forall (λ w : word F, w_score w = 0 ∧ w_exp w = zero) (entryWords line).
Proof.
  destruct (lineEntry Atoi line) as [[w freq]|] eqn:He; simpl.
  2: { split_and!; [by apply Forall_nil | done |]. by apply Forall_nil. }
  assert (wfWord w) as Hw.
  { unfold lineEntry in He. destruct (Fields line) as [|w' [|f fields]]; [done | done |].
    destruct (decide (wfWord w')) as [Hw | Hw]; [| done].
    destruct (Atoi f); [| done]. by injection He as <- _. }
  split_and!; [| done |]; by apply Forall_singleton.
Qed.

Lemma initialCandidates_scan_good lines :
  Forall (goodLine Atoi) lines →
  ∀ words : list (word F),
    initialCandidates_scan Atoi zero lines words
      = Ok (Returned (words ++ concat ((λ line, entryWords line) <$> lines))).
Proof.
  induction 1 as [|line lines Hline _ IH]; intros words.
  { by rewrite app_nil_r. }
  cbn [initialCandidates_scan]. rewrite (initialCandidates_line_good line words Hline).
  cbn [mbind result_bind]. rewrite IH, fmap_cons. cbn [concat].
  by rewrite app_assoc.
Qed.

Lemma entryWords_concat lines :
  let words := concat ((λ line, entryWords line) <$> lines) in
  wfCatalog words ∧ entry <$> words = omap (lineEntry Atoi) lines ∧
  Forall (λ w : word F, w_score w = 0 ∧ w_exp w = zero) words.
Proof.
  cbv zeta. induction lines as [|line lines (IH1 & IH2 & IH3)].
  { split_and!; [by apply Forall_nil | done |]. by apply Forall_nil. }
  destruct (entryWords_spec line) as (H1 & H2 & H3).
  rewrite fmap_cons. cbn [concat]. split_and!.
  - unfold wfCatalog in *. by apply Forall_app.
  - rewrite fmap_app, H2, IH2. cbn [omap list_omap].
    by destruct (lineEntry Atoi line).
  - by apply Forall_app.
Qed.

(** X10 — On a frequency list in which every line starts with a field that
    is not a five-letter lowercase word or has a second field that [Atoi]
    reads, [initialCandidates] does not panic: it exits when the scanner
    reports an error, and otherwise returns, in the order of the file, the
    pairs of the lines that start with a five-letter word and a number, with
    [score] and [exp] zero; the catalog it returns holds five-letter
    lowercase words only. *)
Theorem initialCandidates_returns_wfCatalog (lines : list (list Z)) (scanErr : bool) :
  Forall (goodLine Atoi) lines →
  ∃ words : list (word F),
    initialCandidates Atoi zero (Some (lines, scanErr))
      = (if scanErr then Ok Exited else Ok (Returned words)) ∧
    wfCatalog words ∧
    entry <$> words = omap (lineEntry Atoi) lines ∧
    Forall (λ w, w_score w = 0 ∧ w_exp w = zero) words.
Proof.
  intros Hlines. exists (concat ((λ line, entryWords line) <$> lines)).
  split; [| apply entryWords_concat].
  unfold initialCandidates. rewrite (initialCandidates_scan_good lines Hlines []).
  cbn [mbind result_bind app]. by destruct scanErr.
Qed.

(** X11 — The first line of the frequency list that is not of that kind
    ends the program, whatever follows it: with an index-out-of-range
    panic when it is blank or holds nothing but a five-letter word, with
    [os.Exit(1)] when the field after the word is not a number. *)
Theorem initialCandidates_first_bad_line (pre post : list (list Z)) (line : list Z)
    (scanErr : bool) :
  Forall (goodLine Atoi) pre → ¬ goodLine Atoi line →
  initialCandidates (F := F) Atoi zero (Some (pre ++ line :: post, scanErr))
    = if decide (2 ≤ length (Fields line))%nat then Ok Exited else Panic.
Proof.
  intros Hpre Hline. unfold initialCandidates.
  assert (∀ words : list (word F),
            initialCandidates_scan Atoi zero (pre ++ line :: post) words
            = if decide (2 ≤ length (Fields line))%nat then Ok Exited else Panic) as ->.
  { induction Hpre as [|l pre Hl _ IH]; intros words.
    - cbn [app initialCandidates_scan].
      rewrite (initialCandidates_line_bad line words Hline). by case_decide.
    - cbn [app initialCandidates_scan]. rewrite (initialCandidates_line_good l words Hl).
      cbn [mbind result_bind]. apply IH. }
  by case_decide.
Qed.

End LoadingProofs.

Lemma initialCandidates_returns_wfCatalog_witness :
  ∃ words : list (word Q),
    initialCandidates readDecimal 0%Q (Some (sampleList, false))
      = (if false then Ok Exited else Ok (Returned words)) ∧
    wfCatalog words ∧
    entry <$> words = omap (lineEntry readDecimal) sampleList ∧
    Forall (λ w, w_score w = 0 ∧ w_exp w = 0%Q) words.
Proof.
  apply (initialCandidates_returns_wfCatalog readDecimal 0%Q sampleList false).
  solve_wf.
Defined.

Lemma initialCandidates_first_bad_line_witness :
  initialCandidates (F := Q) readDecimal 0%Q
    (Some (sampleList ++ bytes "sassy" :: [bytes "gloss 20"], false))
    = if decide (2 ≤ length (Fields (bytes "sassy")))%nat then Ok Exited else Panic.
Proof.
  apply (initialCandidates_first_bad_line readDecimal 0%Q sampleList [bytes "gloss 20"]
           (bytes "sassy") false).
  - solve_wf.
  - solve_wf.
Defined.

(** ** The meaning of a feedback line *)

Lemma inputConstraints_marks_spec fields :
  Forall wellFormedToken fields →
  ∀ i c, (i + length fields ≤ 5)%nat → wfConstraints c →
    ∃ c', inputConstraints_marks fields i c = Ok c' ∧ wfConstraints c' ∧
          (∀ j, (j < i)%nat → position c' !! j = position c !! j) ∧
          (∀ k op b, fields !! k = Some [op; b] →
                     position c' !! (i + k)%nat
                     = if decide (op = ch_plus) then Some b else position c !! (i + k)%nat) ∧
          contains c' = contains c ++ tildeLetters fields ∧
          ∀ j b, lowercase b →
            excludedAtPosition c' j b ↔
            excludedAtPosition c j b ∨
            ∃ k, j = (i + k)%nat ∧ fields !! k = Some [ch_tilde; b].
Proof.
  induction 1 as [|t fields (op & b & -> & Hop & Hb) _ IH]; intros i c Hi Hc.
  { exists c. split_and!; [done | done | done | | by rewrite app_nil_r |].
    - intros k op b Hk. by rewrite lookup_nil in Hk.
    - intros j b Hb. split; [by left |]. intros [? | (k & _ & Hk)]; [done |].
      by rewrite lookup_nil in Hk. }
  cbn [length] in Hi. cbn [inputConstraints_marks].
  cbn [index lookup list_lookup mbind result_bind].
  assert (ch_plus ≠ ch_tilde) as Hpt by done.
  (* the model after the field at [i] *)
  match goal with |- ∃ c', ?e ≫= _ = _ ∧ _ => set (step := e) end.
  assert (∃ c1, step = Ok c1 ∧ wfConstraints c1 ∧
               (∀ j, j ≠ i → position c1 !! j = position c !! j) ∧
               position c1 !! i = (if decide (op = ch_plus) then Some b
                                   else position c !! i) ∧
               contains c1 = contains c ++ (if decide (op = ch_tilde) then [b] else []) ∧
               ∀ j b', lowercase b' →
                 excludedAtPosition c1 j b' ↔
                 excludedAtPosition c j b' ∨ (j = i ∧ op = ch_tilde ∧ b' = b))
    as (c1 & Hrun & Hc1 & Hp1 & Hpi & Hcs1 & Hex1).
  { pose proof Hc as (Hp & Hn & Hrows). subst step.
    destruct (decide (op = ch_plus)) as [-> | Hnp].
    - rewrite store_Ok by lia. cbn [mbind result_bind]. eexists. split; [done |].
      rewrite decide_False by done. split_and!.
      + split_and!; simpl; [by rewrite length_insert | done | done].
      + intros j Hj. simpl. by rewrite list_lookup_insert_ne.
      + simpl. apply list_lookup_insert_eq. lia.
      + simpl. by rewrite app_nil_r.
      + intros j b' Hb'. unfold excludedAtPosition. simpl. split; [by left |].
        intros [? | (_ & ? & _)]; done.
    - destruct (decide (op = ch_tilde)) as [-> | Hnt].
      + destruct (exclude_spec c i b Hc ltac:(lia) Hb)
          as (c1 & -> & Hc1 & Hpos & Hcs & Hex).
        cbn [mbind result_bind]. eexists. split; [done |]. split_and!.
        * by apply set_contains_wf.
        * intros j _. simpl. by rewrite Hpos.
        * simpl. by rewrite Hpos.
        * simpl. by rewrite Hcs.
        * intros j b' Hb'. unfold excludedAtPosition in *. simpl.
          rewrite (Hex j b' Hb'). split; intros [? | ?]; try (by left); right.
          -- by destruct_and!.
          -- by destruct_and!.
      + exists c. split_and!; [done | done | done | done | by rewrite app_nil_r |].
        intros j b' Hb'. split; [by left |]. intros [? | (_ & ? & _)]; done. }
  rewrite Hrun. cbn [mbind result_bind].
  destruct (IH (S i) c1) as (c' & Hrun' & Hc' & Hlt & Hat & Hcs & Hex); [lia | done |].
  exists c'. split_and!; [done | done | | | |].
  - intros j Hj. rewrite Hlt by lia. apply Hp1. lia.
  - intros [|k] op' b' Hk.
    + injection Hk as <- <-. rewrite Nat.add_0_r, Hlt by lia. done.
    + cbn [lookup list_lookup] in Hk. replace (i + S k)%nat with (S i + k)%nat by lia.
      rewrite (Hat k op' b' Hk). rewrite Hp1 by lia. done.
  - rewrite Hcs, Hcs1, <- app_assoc. f_equal. unfold tildeLetters.
    cbn [omap list_omap]. by destruct (decide (op = ch_tilde)).
  - intros j b' Hb'. rewrite (Hex j b' Hb'), (Hex1 j b' Hb'). split.
    + intros [[? | (-> & -> & ->)] | (k & -> & Hk)].
      * by left.
      * right. exists 0%nat. split; [lia | done].
      * right. exists (S k). split; [lia | done].
    + intros [? | ([|k] & -> & Hk)].
      * by left; left.
      * injection Hk as -> ->. left. right. split_and!; [lia | done | done].
      * right. exists k. split; [lia | done].
Qed.

Lemma inputConstraints_minus_spec op b c :
  lowercase b → wfConstraints c →
  ∃ c', forLoop (inputConstraints_minus [op; b]) 0 5 c = Ok c' ∧ wfConstraints c' ∧
        position c' = position c ∧ contains c' = contains c ∧
        ∀ j b', lowercase b' →
          excludedAtPosition c' j b' ↔
          excludedAtPosition c j b' ∨ (b' = b ∧ position c !! j = Some 0).
Proof.
  intros Hb Hc.
  destruct (forLoop_inv
    (λ k c', wfConstraints c' ∧ position c' = position c ∧ contains c' = contains c ∧
             ∀ j b', lowercase b' →
               excludedAtPosition c' j b' ↔
               excludedAtPosition c j b' ∨
               (b' = b ∧ (j < k)%nat ∧ position c !! j = Some 0))
    (inputConstraints_minus [op; b]) 5 0%nat c)
    as (c' & Hrun & Hc' & Hpos & Hcs & Hex).
  - split_and!; [done | done | done |]. intros j b' Hb'. split; [by left |].
    intros [? | (_ & ? & _)]; [done | lia].
  - intros k s Hk (Hs & Hpos & Hcs & Hex). unfold inputConstraints_minus.
    destruct (wfConstraints_position s k Hs) as [p Hp]; [lia |].
    rewrite (index_Ok _ _ _ Hp). cbn [mbind result_bind]. rewrite Hpos in Hp.
    destruct (decide (p = 0)) as [-> | Hnz].
    + cbn [index lookup list_lookup mbind result_bind].
      destruct (exclude_spec s k b Hs ltac:(lia) Hb) as (s' & -> & Hs' & Hpos' & Hcs' & Hex').
      exists s'. split_and!; [done | done | congruence | congruence |].
      intros j b' Hb'. rewrite (Hex' j b' Hb'), (Hex j b' Hb'). split.
      * intros [[? | (-> & ? & ?)] | [-> ->]]; [by left | right | right].
        -- split_and!; [done | lia | done].
        -- split_and!; [done | lia | done].
      * intros [? | (-> & Hj & Hz)]; [by left; left |].
        destruct (decide (j = k)) as [-> | Hne]; [by right |].
        left. right. split_and!; [done | lia | done].
    + exists s. split_and!; [done | done | done | done |].
      intros j b' Hb'. rewrite (Hex j b' Hb'). split.
      * intros [? | (-> & ? & ?)]; [by left | right]. split_and!; [done | lia | done].
      * intros [? | (-> & Hj & Hz)]; [by left |].
        destruct (decide (j = k)) as [-> | Hne]; [congruence |].
        right. split_and!; [done | lia | done].
  - exists c'. split_and!; [done | done | done | done |].
    intros j b' Hb'. rewrite (Hex j b' Hb'). split.
    + intros [? | (-> & _ & ?)]; [by left | by right].
    + intros [? | (-> & Hz)]; [by left | right]. split_and!; [done | | done].
      apply lookup_lt_Some in Hz. destruct Hc as (Hl & _). lia.
Qed.

Lemma inputConstraints_absent_spec fields :
  Forall wellFormedToken fields →
  ∀ c, wfConstraints c →
    ∃ c', inputConstraints_absent fields c = Ok c' ∧ wfConstraints c' ∧
          position c' = position c ∧ contains c' = contains c ∧
          ∀ j b, lowercase b →
            excludedAtPosition c' j b ↔
            excludedAtPosition c j b ∨
            ([ch_minus; b] ∈ fields ∧ position c !! j = Some 0).
Proof.
  induction 1 as [|t fields (op & b & -> & Hop & Hb) _ IH]; intros c Hc.
  { exists c. split_and!; [done | done | done | done |].
    intros j b Hb. split; [by left |]. intros [? | [Hin _]]; [done |].
    by apply elem_of_nil in Hin. }
  cbn [inputConstraints_absent].
  cbn [index lookup list_lookup mbind result_bind].
  destruct (decide (op ≠ ch_minus)) as [Hnm | Hm].
  - cbn [mbind result_bind].
    destruct (IH c Hc) as (c' & -> & Hc' & Hpos & Hcs & Hex).
    exists c'. split_and!; [done | done | done | done |].
    intros j b' Hb'. rewrite (Hex j b' Hb'). split.
    + intros [? | [Hin ?]]; [by left | right]. split; [by right | done].
    + intros [? | [Hin ?]]; [by left |]. apply elem_of_cons in Hin as [[= ? ?] | Hin].
      * by destruct Hnm.
      * by right.
  - apply dec_stable in Hm as ->.
    destruct (inputConstraints_minus_spec ch_minus b c Hb Hc)
      as (c1 & -> & Hc1 & Hpos1 & Hcs1 & Hex1).
    cbn [mbind result_bind].
    destruct (IH c1 Hc1) as (c' & -> & Hc' & Hpos & Hcs & Hex).
    exists c'. split_and!; [done | done | congruence | congruence |].
    intros j b' Hb'. rewrite (Hex j b' Hb'), (Hex1 j b' Hb'), Hpos1. split.
    + intros [[? | [-> ?]] | [Hin ?]]; [by left | right | right].
      * split; [by left | done].
      * split; [by right | done].
    + intros [? | [Hin ?]]; [by left; left |].
      apply elem_of_cons in Hin as [[= ->] | Hin].
      * left. by right.
      * by right.
Qed.

(** X12 — What a well-formed feedback line means to the program: the
    model fixes at position [i] the letter of a [+] field there and nothing
    else; it requires the letters of the [~] fields, in their order; and it
    excludes a letter at position [i] exactly when field [i] is [~] with
    that letter, or when some field is [-] with that letter and field [i]
    is not a [+] field. *)
Theorem inputConstraints_reads (line : list Z) :
  wellFormedLine line →
  ∃ c, inputConstraints line = Ok (Some c) ∧ wfConstraints c ∧
       (∀ i b, fixedPosition c i = Some b ↔ tokenAt line i ch_plus b) ∧
       contains c = tildeLetters (Fields line) ∧
       ∀ i b, lowercase b →
         excludedAtPosition c i b ↔
         tokenAt line i ch_tilde b ∨
         ((∃ k, tokenAt line k ch_minus b) ∧
          ∃ op b', op ≠ ch_plus ∧ tokenAt line i op b').
Proof.
  intros [Hlen Hall]. unfold inputConstraints, tokenAt.
  rewrite decide_False by (by intros ?).
  rewrite (inputConstraints_check_true _ Hall). cbn [mbind result_bind].
  destruct (inputConstraints_marks_spec _ Hall 0%nat newConstraints)
    as (c1 & -> & Hc1 & _ & Hat & Hcs1 & Hex1); [lia | apply newConstraints_wf |].
  cbn [mbind result_bind].
  destruct (inputConstraints_absent_spec _ Hall c1 Hc1)
    as (c2 & -> & Hc2 & Hpos2 & Hcs2 & Hex2).
  destruct newConstraints_cleared as (_ & Hzero & Hnone & _).
  (* the position array, field by field *)
  assert (∀ i op b, Fields line !! i = Some [op; b] →
            lowercase b ∧
            position c1 !! i = Some (if decide (op = ch_plus) then b else 0)) as Hfield.
  { intros i op b Hi. split.
    - rewrite Forall_forall in Hall.
      destruct (Hall [op; b]) as (? & ? & [= <- <-] & _ & ?); [| done].
      by eapply list_elem_of_lookup_2.
    - specialize (Hat i op b Hi). cbn [Nat.add] in Hat. rewrite Hat.
      destruct (decide (op = ch_plus)); [done |]. apply Hzero.
      apply lookup_lt_Some in Hi. lia. }
  assert (∀ i, (i < 5)%nat → ∃ op b, Fields line !! i = Some [op; b]) as Hsome.
  { intros i Hi. destruct (lookup_lt_is_Some_2 (Fields line) i) as [t Ht]; [lia |].
    rewrite Forall_forall in Hall.
    destruct (Hall t) as (op & b & -> & _); [by eapply list_elem_of_lookup_2 |].
    by exists op, b. }
  exists c2. split_and!; [done | done | | by rewrite Hcs2, Hcs1 |].
  - intros i b. rewrite fixedPosition_Some, Hpos2. split.
    + intros [Hp Hnz]. destruct (Hsome i) as (op & b' & Hi).
      { apply lookup_lt_Some in Hp. destruct Hc1 as (Hl & _). lia. }
      destruct (Hfield i op b' Hi) as [_ Hp']. rewrite Hp in Hp'.
      destruct (decide (op = ch_plus)) as [-> |]; [| congruence].
      by injection Hp' as ->.
    + intros Hi. destruct (Hfield i ch_plus b Hi) as [Hb Hp].
      rewrite decide_True in Hp by done. split; [done | by apply lowercase_nonzero].
  - intros i b Hb. rewrite (Hex2 i b Hb), (Hex1 i b Hb). split.
    + intros [[? | (k & -> & Hk)] | [Hin Hz]].
      * by destruct (Hnone i b).
      * by left.
      * right. apply list_elem_of_lookup in Hin as [k Hk]. split; [by exists k |].
        destruct (Hsome i) as (op & b' & Hi).
        { apply lookup_lt_Some in Hz. destruct Hc1 as (Hl & _). lia. }
        exists op, b'. split; [| done]. intros ->.
        destruct (Hfield i ch_plus b' Hi) as [Hb' Hp].
        rewrite decide_True in Hp by done. rewrite Hz in Hp. injection Hp as <-.
        by apply lowercase_nonzero in Hb'.
    + intros [Hi | [[k Hk] (op & b' & Hop & Hi)]].
      * left. right. by exists i.
      * right. split; [by eapply list_elem_of_lookup_2 |].
        destruct (Hfield i op b' Hi) as [_ Hp]. by rewrite decide_False in Hp.
Qed.

Lemma inputConstraints_reads_witness :
  ∃ c, inputConstraints (bytes "-g -l +a ~s -s") = Ok (Some c) ∧ wfConstraints c ∧
       (∀ i b, fixedPosition c i = Some b ↔ tokenAt (bytes "-g -l +a ~s -s") i ch_plus b) ∧
       contains c = tildeLetters (Fields (bytes "-g -l +a ~s -s")) ∧
       ∀ i b, lowercase b →
         excludedAtPosition c i b ↔
         tokenAt (bytes "-g -l +a ~s -s") i ch_tilde b ∨
         ((∃ k, tokenAt (bytes "-g -l +a ~s -s") k ch_minus b) ∧
          ∃ op b', op ≠ ch_plus ∧ tokenAt (bytes "-g -l +a ~s -s") i op b').
Proof.
  apply (inputConstraints_reads (bytes "-g -l +a ~s -s")).
  assert (Fields (bytes "-g -l +a ~s -s") = [[45; 103]; [45; 108]; [43; 97]; [126; 115]; [45; 115]])
    as Hfields by (vm_compute; reflexivity).
  split; rewrite Hfields; [reflexivity |].
  repeat (apply Forall_cons; split;
          [eexists _, _; split; [reflexivity |];
           unfold lowercase, ch_a, ch_z, ch_plus, ch_tilde, ch_minus; lia |]).
  constructor.
Defined.

(** ** The variant that ignores multiplicity *)

Lemma Simple_satisfies_not got row : Simple.satisfies_not got row = true ↔ got ∉ row.
Proof.
  induction row as [|b row IH]; simpl.
  - split; [intros _; apply not_elem_of_nil | done].
  - rewrite not_elem_of_cons. destruct (decide (got = b)) as [-> | Hne].
    + split; [done | by intros [? _]].
    + rewrite IH. split; [done | by intros [_ ?]].
Qed.

Lemma Simple_noneIs word b n :
  ∀ i, length word = (i + n)%nat →
       Simple.noneIs word b i n = Ok (bool_decide (b ∉ drop i word)).
Proof.
  induction n as [|n IH]; intros i Hlen; cbn [Simple.noneIs].
  - rewrite drop_ge by lia.
    rewrite bool_decide_eq_true_2; [done | apply not_elem_of_nil].
  - destruct (lookup_lt_is_Some_2 word i) as [w Hw]; [lia |].
    rewrite (index_Ok _ _ _ Hw). cbn [mbind result_bind].
    rewrite (drop_S _ _ _ Hw). destruct (decide (w ≠ b)) as [Hne | Heq].
    + rewrite IH by lia. f_equal. apply bool_decide_ext.
      rewrite not_elem_of_cons. split; [by intros ? | by intros [_ ?]].
    + apply dec_stable in Heq as ->.
      rewrite bool_decide_eq_false_2; [done |]. intros H. apply H. by left.
Qed.

Lemma Simple_satisfies_contains word bs :
  length word = 5%nat →
  Simple.satisfies_contains word bs = Ok (forallb (λ b, bool_decide (b ∈ word)) bs).
Proof.
  intros Hlen. induction bs as [|b bs IH]; [done |].
  cbn [Simple.satisfies_contains forallb]. rewrite (Simple_noneIs word b 5 0) by done.
  rewrite drop_0. cbn [mbind result_bind]. rewrite IH.
  destruct (decide (b ∈ word)) as [Hin | Hin].
  - rewrite bool_decide_eq_false_2 by (by intros ?).
    by rewrite (bool_decide_eq_true_2 _ Hin).
  - rewrite (bool_decide_eq_true_2 _ Hin). by rewrite (bool_decide_eq_false_2 _ Hin).
Qed.

Lemma Simple_satisfies_notContains word bs :
  length word = 5%nat →
  Simple.satisfies_notContains word bs = Ok (forallb (λ b, bool_decide (b ∉ word)) bs).
Proof.
  intros Hlen. induction bs as [|b bs IH]; [done |].
  cbn [Simple.satisfies_notContains forallb]. rewrite (Simple_noneIs word b 5 0) by done.
  rewrite drop_0. cbn [mbind result_bind]. rewrite IH.
  by destruct (bool_decide (b ∉ word)).
Qed.

Lemma Simple_satisfies_positions c word n :
  length word = 5%nat → simpleWf c →
  ∀ i, (i + n ≤ 5)%nat →
    ∃ ok, Simple.satisfies_positions c word i n = Ok ok ∧
          (ok = true ↔
           ∀ k got want row, (i ≤ k < i + n)%nat → word !! k = Some got →
             Simple.position c !! k = Some want → Simple.notPosition c !! k = Some row →
             (want ≠ 0 → got = want) ∧ got ∉ row).
Proof.
  intros Hlen [Hp Hn]. induction n as [|n IH]; intros i Hi; cbn [Simple.satisfies_positions].
  { exists true. split; [done |]. split; [| done]. intros _ k ? ? ? ?. lia. }
  destruct (lookup_lt_is_Some_2 word i) as [got Hgot]; [lia |].
  destruct (lookup_lt_is_Some_2 (Simple.position c) i) as [want Hwant]; [lia |].
  destruct (lookup_lt_is_Some_2 (Simple.notPosition c) i) as [row Hrow]; [lia |].
  rewrite (index_Ok _ _ _ Hgot). cbn [mbind result_bind].
  rewrite (index_Ok _ _ _ Hwant). cbn [mbind result_bind].
  destruct (decide (want ≠ 0 ∧ got ≠ want)) as [[Hnz Hne] | Hok].
  { exists false. split; [done |]. split; [done |]. intros H.
    destruct (H i got want row) as [Heq _]; [lia | done | done | done |].
    by destruct Hne; apply Heq. }
  rewrite (index_Ok _ _ _ Hrow). cbn [mbind result_bind].
  destruct (Simple.satisfies_not got row) eqn:Hnot.
  - apply Simple_satisfies_not in Hnot.
    destruct (IH (S i)) as (ok & -> & Hiff); [lia |]. exists ok. split; [done |].
    rewrite Hiff. split.
    + intros H k got' want' row' Hk Hg Hw Hr.
      destruct (decide (k = i)) as [-> | Hki];
        [| apply (H k got' want' row'); [lia | done..]].
      rewrite Hgot in Hg. rewrite Hwant in Hw. rewrite Hrow in Hr.
      injection Hg as <-. injection Hw as <-. injection Hr as <-.
      split; [| done]. intros Hnz. apply dec_stable. intros Hne. by apply Hok.
    + intros H k got' want' row' Hk. apply (H k). lia.
  - exists false. split; [done |]. split; [done |]. intros H.
    destruct (H i got want row) as [_ Hrow']; [lia | done | done | done |].
    apply Simple_satisfies_not in Hrow'. congruence.
Qed.

(** [satisfies] of the variant decides [simpleConsistent] and never
    panics on a five-letter word. *)
Lemma Simple_satisfies_spec c word :
  length word = 5%nat → simpleWf c →
  ∃ ok, Simple.satisfies c word = Ok ok ∧ (ok = true ↔ simpleConsistent c word).
Proof.
  intros Hlen Hc. unfold Simple.satisfies.
  destruct (Simple_satisfies_positions c word 5 Hlen Hc 0) as (ok & -> & Hpos); [lia |].
  cbn [mbind result_bind].
  assert (ok = true ↔
          (∀ i got want, word !! i = Some got → Simple.position c !! i = Some want →
                         want ≠ 0 → got = want) ∧
          (∀ i got row, word !! i = Some got → Simple.notPosition c !! i = Some row →
                        got ∉ row)) as Hpos'.
  { destruct Hc as [Hp Hn]. rewrite Hpos. split.
    - intros H. split.
      + intros i got want Hg Hw.
        destruct (lookup_lt_is_Some_2 (Simple.notPosition c) i) as [row Hrow].
        { apply lookup_lt_Some in Hg. lia. }
        apply (H i got want row); [apply lookup_lt_Some in Hg; lia | done..].
      + intros i got row Hg Hr.
        destruct (lookup_lt_is_Some_2 (Simple.position c) i) as [want Hwant].
        { apply lookup_lt_Some in Hg. lia. }
        apply (H i got want row); [apply lookup_lt_Some in Hg; lia | done..].
    - intros [H1 H2] k got want row _ Hg Hw Hr. split; [by eapply H1 | by eapply H2]. }
  destruct ok.
  2: { exists false. split; [done |]. split; [done |]. intros (H1 & H2 & _).
       apply Hpos'. by split. }
  rewrite (Simple_satisfies_contains word _ Hlen). cbn [mbind result_bind].
  destruct (forallb _ (Simple.contains c)) eqn:Hcs.
  2: { exists false. split; [done |]. split; [done |]. intros (_ & _ & H3 & _).
       apply not_true_iff_false in Hcs. exfalso. apply Hcs, forallb_forall. intros b Hb.
       apply bool_decide_eq_true, H3. by apply list_elem_of_In. }
  rewrite (Simple_satisfies_notContains word _ Hlen).
  eexists. split; [done |]. rewrite forallb_forall. unfold simpleConsistent.
  rewrite forallb_forall in Hcs. destruct Hpos' as [[H1 H2] _]; [done |]. split.
  - intros H. split_and!; [done | done | |].
    + intros b Hb. by apply (bool_decide_eq_true _), Hcs, list_elem_of_In.
    + intros b Hb. by apply (bool_decide_eq_true _), H, list_elem_of_In.
  - intros (_ & _ & _ & H4) b Hb. by apply bool_decide_eq_true, H4, list_elem_of_In.
Qed.

(** The cases of two tests [j < k ∧ P] and [j < S k ∧ P] that disagree. *)
Ltac step_cases j k :=
  repeat case_decide; try done; exfalso; destruct_and?;
  destruct (decide (j = k)) as [-> |]; try congruence; try lia;
  match goal with
  | H : ¬ (_ ∧ _) |- _ => apply H; split; [lia | congruence]
  end.

Lemma Simple_applyDiffConstraint_lists guess answer :
  wfWord guess → wfWord answer →
  ∃ c, Simple.applyDiffConstraint Simple.newConstraints guess answer = Ok c ∧
       simpleWf c ∧
       (∀ j g, guess !! j = Some g →
               Simple.position c !! j
               = Some (if decide (guess !! j = answer !! j) then g else 0)) ∧
       (∀ j g, guess !! j = Some g →
               Simple.notPosition c !! j
               = Some (if decide (guess !! j = answer !! j) then [] else [g])) ∧
       Simple.contains c = simpleLetters true guess answer 5 ∧
       Simple.notContains c = simpleLetters false guess answer 5.
Proof.
  intros Hguess Hanswer. unfold Simple.applyDiffConstraint.
  destruct (forLoop_inv
    (λ k c,
       simpleWf c ∧
       (∀ j g, guess !! j = Some g →
               Simple.position c !! j
               = Some (if decide ((j < k)%nat ∧ guess !! j = answer !! j) then g else 0)) ∧
       (∀ j g, guess !! j = Some g →
               Simple.notPosition c !! j
               = Some (if decide ((j < k)%nat ∧ guess !! j ≠ answer !! j)
                       then [g] else [])) ∧
       Simple.contains c = simpleLetters true guess answer k ∧
       Simple.notContains c = simpleLetters false guess answer k)
    (Simple.applyDiffConstraint_step guess answer) 5 0%nat Simple.newConstraints)
    as (c & Hrun & Hc & Hpos & Hnp & Hcs & Hncs).
  - destruct Hguess as [Hl _]. split_and!; [done | | | done | done].
    + intros j g Hg. rewrite decide_False by lia.
      apply lookup_lt_Some in Hg. apply (lookup_replicate_2 5 0 j). lia.
    + intros j g Hg. rewrite decide_False by lia.
      apply lookup_lt_Some in Hg. apply (lookup_replicate_2 5 [] j). lia.
  - intros k c Hk ([Hlp Hln] & Hpos & Hnp & Hcs & Hncs).
    destruct (wfWord_lookup guess k Hguess) as (g & Hg & Hglow); [lia |].
    destruct (wfWord_lookup answer k Hanswer) as (a & Ha & Halow); [lia |].
    assert (∀ inAnswer, simpleLetters inAnswer guess answer (S k)
              = simpleLetters inAnswer guess answer k ++
                (if decide (g ≠ a ∧ bool_decide (g ∈ answer) = inAnswer)
                 then [g] else [])) as Hsnoc.
    { intros inAnswer. unfold simpleLetters.
      rewrite seq_S, omap_app. cbn [Nat.add omap list_omap]. rewrite Hg, Ha.
      f_equal. destruct (decide (g ≠ a ∧ _)) as [[Hne ?] | Hno].
      - rewrite decide_True; [done |]. split; [congruence | done].
      - rewrite decide_False; [done |]. intros [Hne ?]. apply Hno.
        split; [congruence | done]. }
    unfold Simple.applyDiffConstraint_step.
    rewrite (index_Ok _ _ _ Hg), (index_Ok _ _ _ Ha). cbn [mbind result_bind].
    destruct (decide (g = a)) as [<- | Hne].
    + rewrite store_Ok by lia. cbn [mbind result_bind].
      eexists. split; [done |]. cbn [Nat.add]. split_and!; simpl.
      * split; simpl; [by rewrite length_insert | done].
      * intros j g' Hg'. destruct (decide (j = k)) as [-> | Hjk].
        -- rewrite list_lookup_insert_eq by lia. rewrite decide_True by (split; [lia | congruence]).
           congruence.
        -- rewrite list_lookup_insert_ne by done. rewrite (Hpos j g' Hg').
           f_equal. step_cases j k.
      * intros j g' Hg'. rewrite (Hnp j g' Hg'). f_equal. step_cases j k.
      * rewrite (Hsnoc true), Hcs. rewrite decide_False by (by intros [? _]).
        by rewrite app_nil_r.
      * rewrite (Hsnoc false), Hncs. rewrite decide_False by (by intros [? _]).
        by rewrite app_nil_r.
    + destruct (lookup_lt_is_Some_2 (Simple.notPosition c) k) as [row Hrow]; [lia |].
      rewrite (index_Ok _ _ _ Hrow). cbn [mbind result_bind].
      rewrite store_Ok by lia. cbn [mbind result_bind].
      assert (row = []) as ->.
      { rewrite (Hnp k g Hg) in Hrow. rewrite decide_False in Hrow by lia. congruence. }
      assert (Simple.ContainsRune answer g = bool_decide (g ∈ answer)) as ->.
      { unfold Simple.ContainsRune. rewrite decide_True; [done |].
        unfold lowercase, ch_z in Hglow. lia. }
      assert (∀ j g', guess !! j = Some g' →
                <[k:=[] ++ [g]]> (Simple.notPosition c) !! j
                = Some (if decide ((j < S k)%nat ∧ guess !! j ≠ answer !! j)
                        then [g'] else [])) as Hnp'.
      { intros j g' Hg'. destruct (decide (j = k)) as [-> | Hjk].
        - rewrite list_lookup_insert_eq by lia.
          rewrite decide_True by (split; [lia | congruence]). simpl. congruence.
        - rewrite list_lookup_insert_ne by done. rewrite (Hnp j g' Hg'). f_equal.
          step_cases j k. }
      assert (∀ j g', guess !! j = Some g' →
                Simple.position c !! j
                = Some (if decide ((j < S k)%nat ∧ guess !! j = answer !! j)
                        then g' else 0)) as Hpos'.
      { intros j g' Hg'. rewrite (Hpos j g' Hg'). f_equal. step_cases j k. }
      destruct (bool_decide (g ∈ answer)) eqn:Hin; cbn [negb mbind result_bind];
        (eexists; split; [done |]); cbn [Nat.add]; split_and!; simpl;
        try done; try (split; simpl; [done | by rewrite length_insert]).
      * rewrite (Hsnoc true), Hcs. by rewrite decide_True.
      * rewrite (Hsnoc false), Hncs. rewrite decide_False; [by rewrite app_nil_r |].
        by intros [_ ?].
      * rewrite (Hsnoc true), Hcs. rewrite decide_False; [by rewrite app_nil_r |].
        by intros [_ ?].
      * rewrite (Hsnoc false), Hncs. by rewrite decide_True.
  - exists c. split_and!; [done | done | | | done | done].
    + intros j g Hg. rewrite (Hpos j g Hg). f_equal. apply lookup_lt_Some in Hg.
      destruct Hguess as [Hl _]. cbn [Nat.add] in *.
      repeat case_decide; try done; exfalso; destruct_and?;
        match goal with H : ¬ _ |- _ => apply H; try split; (lia || done) end.
    + intros j g Hg. rewrite (Hnp j g Hg). f_equal. apply lookup_lt_Some in Hg.
      destruct Hguess as [Hl _]. cbn [Nat.add] in *.
      repeat case_decide; try done; exfalso; destruct_and?;
        match goal with H : ¬ _ |- _ => apply H; try split; (lia || done) end.
Qed.

Lemma Simple_applyDiffConstraint_spec guess answer :
  wfWord guess → wfWord answer →
  ∃ c, Simple.applyDiffConstraint Simple.newConstraints guess answer = Ok c ∧
       simpleWf c ∧
       (∀ j g, guess !! j = Some g →
               Simple.position c !! j
               = Some (if decide (guess !! j = answer !! j) then g else 0)) ∧
       (∀ j g, guess !! j = Some g →
               Simple.notPosition c !! j
               = Some (if decide (guess !! j = answer !! j) then [] else [g])) ∧
       (∀ b, b ∈ Simple.contains c ↔
             ∃ j, guess !! j = Some b ∧ guess !! j ≠ answer !! j ∧ b ∈ answer) ∧
       (∀ b, b ∈ Simple.notContains c ↔
             ∃ j, guess !! j = Some b ∧ guess !! j ≠ answer !! j ∧ b ∉ answer).
Proof.
  intros Hguess Hanswer.
  destruct (Simple_applyDiffConstraint_lists guess answer Hguess Hanswer)
    as (c & Hrun & Hc & Hpos & Hnp & Hcs & Hncs).
  exists c. split_and!; [done | done | done | done | |].
  - intros b. rewrite Hcs. unfold simpleLetters. rewrite list_elem_of_omap. split.
    + intros (j & _ & Hj). destruct (guess !! j) as [g|] eqn:Hg; [| done].
      destruct (decide _) as [[Hne Hin] |]; [| done]. injection Hj as ->.
      exists j. split_and!; [done | by rewrite Hg | by apply bool_decide_eq_true in Hin].
    + intros (j & Hg & Hne & Hin). exists j. split.
      { apply elem_of_seq. apply lookup_lt_Some in Hg. destruct Hguess as [Hl _]. lia. }
      rewrite Hg. rewrite decide_True; [done |]. split; [by rewrite <- Hg |].
      by apply bool_decide_eq_true.
  - intros b. rewrite Hncs. unfold simpleLetters. rewrite list_elem_of_omap. split.
    + intros (j & _ & Hj). destruct (guess !! j) as [g|] eqn:Hg; [| done].
      destruct (decide _) as [[Hne Hin] |]; [| done]. injection Hj as ->.
      exists j. split_and!; [done | by rewrite Hg | by apply bool_decide_eq_false in Hin].
    + intros (j & Hg & Hne & Hin). exists j. split.
      { apply elem_of_seq. apply lookup_lt_Some in Hg. destruct Hguess as [Hl _]. lia. }
      rewrite Hg. rewrite decide_True; [done |]. split; [by rewrite <- Hg |].
      by apply bool_decide_eq_false.
Qed.

Lemma Simple_clearConstraints_new c :
  simpleWf c → Simple.clearConstraints c = Simple.newConstraints.
Proof.
  intros [Hp Hn]. unfold Simple.clearConstraints, Simple.newConstraints. f_equal.
  - by rewrite fmap_const_replicate, Hp.
  - change (λ row : list Z, take 0 row) with (λ _ : list Z, @nil Z).
    by rewrite fmap_const_replicate, Hn.
Qed.

(** The in-place loop of the variant keeps, in order, the words its
    [satisfies] accepts. *)
Lemma Simple_filter_List_filter {F} c (words : list (word F)) :
  simpleWf c → wfCatalog words →
  Simple.filter c words = Ok (List.filter (simpleKeeps c) words).
Proof.
  intros Hc Hwords.
  destruct (forLoop_inv
    (λ k (st : list (word F) * nat),
       (st.2 ≤ k)%nat ∧ length st.1 = length words ∧
       take st.2 st.1 = List.filter (simpleKeeps c) (take k words) ∧
       drop k st.1 = drop k words)
    (Simple.filter_step c) (length words) 0%nat (words, 0%nat)) as (st & Hrun & HI).
  - by split_and!.
  - intros k [arr i] Hk (Hik & Hlen & Htake & Hdrop). simpl in *.
    destruct (lookup_lt_is_Some_2 words k) as [w Hw]; [lia |].
    assert (arr !! k = Some w) as Harr.
    { rewrite <- (Nat.add_0_r k), <- lookup_drop, Hdrop, lookup_drop.
      by rewrite Nat.add_0_r. }
    assert (wfWord (w_word w)) as [Hwl _].
    { by eapply (Forall_lookup_1 _ _ _ _ Hwords). }
    unfold Simple.filter_step. simpl.
    rewrite (index_Ok _ _ _ Harr). cbn [mbind result_bind].
    destruct (Simple_satisfies_spec c (w_word w) Hwl Hc) as (ok & Hok & _).
    rewrite (take_S_r _ _ _ Hw), List.filter_app. cbn [List.filter].
    unfold simpleKeeps at 2. rewrite Hok. cbn [mbind result_bind].
    destruct ok.
    + rewrite store_Ok by lia. cbn [mbind result_bind].
      eexists. split; [done |]. simpl. split_and!.
      * lia.
      * by rewrite length_insert.
      * rewrite <- Htake.
        rewrite (take_S_r _ _ w) by (apply list_lookup_insert_eq; lia).
        by rewrite take_insert_ge by lia.
      * rewrite drop_insert_lt by lia.
        replace (S k) with (k + 1)%nat by lia.
        by rewrite <- !(drop_drop _ 1 k), Hdrop.
    + exists (arr, i). split; [done |]. simpl. split_and!.
      * lia.
      * done.
      * by rewrite app_nil_r.
      * replace (S k) with (k + 1)%nat by lia.
        by rewrite <- !(drop_drop _ 1 k), Hdrop.
  - destruct st as [arr i]. destruct HI as (Hik & Hlen & Htake & _). simpl in *.
    unfold Simple.filter. rewrite Hrun. cbn [mbind result_bind]. simpl.
    rewrite slice_prefix by lia. rewrite Htake.
    by rewrite firstn_all.
Qed.

Lemma List_filter_sublist_impl {A} (f g : A → bool) l :
  (∀ x, x ∈ l → f x = true → g x = true) →
  List.filter f l `sublist_of` List.filter g l.
Proof.
  induction l as [|x l IH]; intros H; [constructor |]. simpl.
  assert (List.filter f l `sublist_of` List.filter g l) as IH'.
  { apply IH. intros y Hy. apply H. by right. }
  destruct (f x) eqn:Hf.
  - rewrite (H x (list_elem_of_here _ _) Hf). by constructor.
  - destruct (g x); [by constructor | done].
Qed.

(** The answer agrees with the model the variant builds from its diff. *)
Lemma Simple_diff_consistent guess answer c :
  wfWord guess → wfWord answer →
  Simple.applyDiffConstraint Simple.newConstraints guess answer = Ok c →
  simpleWf c ∧ simpleConsistent c answer ∧ (guess ≠ answer → ¬ simpleConsistent c guess).
Proof.
  intros Hguess Hanswer Hrun.
  destruct (Simple_applyDiffConstraint_spec guess answer Hguess Hanswer)
    as (c' & Hrun' & Hc & Hpos & Hnp & Hcs & Hncs).
  rewrite Hrun in Hrun'. injection Hrun' as <-.
  split; [done |]. split.
  - split_and!.
    + intros i got want Hgot Hwant Hnz.
      destruct (wfWord_lookup guess i Hguess) as (g & Hg & _).
      { apply lookup_lt_Some in Hgot. destruct Hanswer as [Hl _]. lia. }
      rewrite (Hpos i g Hg) in Hwant. destruct (decide _) as [Heq |]; [| congruence].
      congruence.
    + intros i got row Hgot Hrow.
      destruct (wfWord_lookup guess i Hguess) as (g & Hg & _).
      { apply lookup_lt_Some in Hgot. destruct Hanswer as [Hl _]. lia. }
      rewrite (Hnp i g Hg) in Hrow. destruct (decide _) as [Heq | Hne].
      * injection Hrow as <-. apply not_elem_of_nil.
      * injection Hrow as <-. intros ->%list_elem_of_singleton. congruence.
    + intros b Hb. by apply Hcs in Hb as (_ & _ & _ & ?).
    + intros b Hb. by apply Hncs in Hb as (_ & _ & _ & ?).
  - intros Hne (_ & H2 & _).
    destruct (wfWord_neq_unmatched guess answer Hguess Hanswer Hne) as (i & Hi & Hu).
    apply unmatched_true in Hu.
    destruct (wfWord_lookup guess i Hguess Hi) as (g & Hg & _).
    apply (H2 i g [g] Hg); [| by apply list_elem_of_singleton].
    rewrite (Hnp i g Hg). by rewrite decide_False.
Qed.

(** X13 — The variant that ignores multiplicity is sound in the same way:
    after [clearConstraints] its diff of a guess against the answer gives a
    model that [satisfies] accepts the answer with and, for a wrong guess,
    rejects the guess with; its [filter] keeps every copy of the answer
    and drops the wrong guess. *)
Theorem Simple_filter_keeps_answer {F} (c0 : Simple.constraints) (words : list (word F))
    (guess answer : list Z) :
  simpleWf c0 → wfCatalog words → wfWord guess → wfWord answer →
  ∃ c out,
    Simple.applyDiffConstraint (Simple.clearConstraints c0) guess answer = Ok c ∧
    Simple.satisfies c answer = Ok true ∧
    Simple.filter c words = Ok out ∧
    out `sublist_of` words ∧
    (∀ w, w ∈ words → w_word w = answer → w ∈ out) ∧
    (guess ≠ answer → Simple.satisfies c guess = Ok false ∧ guess ∉ texts out).
Proof.
  intros Hc0 Hwords Hguess Hanswer. rewrite (Simple_clearConstraints_new c0 Hc0).
  destruct (Simple_applyDiffConstraint_spec guess answer Hguess Hanswer)
    as (c & Hrun & _).
  destruct (Simple_diff_consistent guess answer c Hguess Hanswer Hrun)
    as (Hc & Hans & Hrej).
  assert (Simple.satisfies c answer = Ok true) as Hsat.
  { destruct (Simple_satisfies_spec c answer) as (ok & -> & Hok);
      [by destruct Hanswer | done |]. f_equal. by apply Hok. }
  exists c, (List.filter (simpleKeeps c) words).
  split_and!; [done | done | by apply Simple_filter_List_filter
               | apply List_filter_sublist | |].
  - intros w Hw Heq. apply list_elem_of_In, List.filter_In.
    split; [by apply list_elem_of_In |]. unfold simpleKeeps. by rewrite Heq, Hsat.
  - intros Hne.
    assert (Simple.satisfies c guess = Ok false) as Hno.
    { destruct (Simple_satisfies_spec c guess) as (ok & -> & Hok);
        [by destruct Hguess | done |].
      f_equal. apply not_true_is_false. intros Ht. by apply (Hrej Hne), Hok. }
    split; [done |]. unfold texts. intros Hin.
    apply list_elem_of_fmap in Hin as (w & Heq & Hw).
    apply list_elem_of_In, List.filter_In in Hw as [_ Hk].
    unfold simpleKeeps in Hk. by rewrite <- Heq, Hno in Hk.
Qed.

Lemma Simple_filter_keeps_answer_witness :
  ∃ c out,
    Simple.applyDiffConstraint (Simple.clearConstraints Simple.newConstraints)
      (bytes "sassy") (bytes "glass") = Ok c ∧
    Simple.satisfies c (bytes "glass") = Ok true ∧
    Simple.filter c sampleCatalog = Ok out ∧
    out `sublist_of` sampleCatalog ∧
    (∀ w, w ∈ sampleCatalog → w_word w = bytes "glass" → w ∈ out) ∧
    (bytes "sassy" ≠ bytes "glass" →
     Simple.satisfies c (bytes "sassy") = Ok false ∧ bytes "sassy" ∉ texts out).
Proof.
  apply (Simple_filter_keeps_answer Simple.newConstraints sampleCatalog (bytes "sassy")
           (bytes "glass")).
  - split; reflexivity.
  - solve_wf.
  - solve_wf.
  - solve_wf.
Defined.

(** A word the position-aware model of a diff accepts agrees with the
    model the variant builds from the same diff. *)
Lemma consistent_simpleConsistent guess answer c cs w :
  wfWord guess → wfWord answer → wfWord w →
  applyDiffConstraint newConstraints guess answer = Ok c →
  Simple.applyDiffConstraint Simple.newConstraints guess answer = Ok cs →
  consistent c w → simpleConsistent cs w.
Proof.
  intros Hguess Hanswer Hw Hrun Hruns (H1 & H2 & H3 & _).
  destruct (applyDiffConstraint_spec guess answer Hguess Hanswer newConstraints
              newConstraints_cleared) as (c' & Hrun' & Hc & Hpos & Hcs & Hex).
  rewrite Hrun in Hrun'. injection Hrun' as <-.
  destruct (Simple_applyDiffConstraint_spec guess answer Hguess Hanswer)
    as (cs' & Hruns' & Hcs' & Hposs & Hnps & Hcss & Hncss).
  rewrite Hruns in Hruns'. injection Hruns' as <-.
  (* what the position-aware model knows about a position *)
  assert (∀ j g, (j < 5)%nat → guess !! j = Some g → guess !! j = answer !! j →
                 fixedPosition c j = Some g) as Hmatched.
  { intros j g Hj Hg Heq. apply fixedPosition_Some.
    destruct (wfWord_lookup guess j Hguess Hj) as (g' & Hg' & Hlow).
    rewrite Hg in Hg'. injection Hg' as <-.
    rewrite (Hpos j Hj). unfold fixedLetter.
    rewrite (proj2 (unmatched_false guess answer j) Heq).
    rewrite (list_lookup_total_correct _ _ _ Hg). split; [done | by apply lowercase_nonzero]. }
  assert (∀ j, (j < 5)%nat → guess !! j ≠ answer !! j → fixedPosition c j = None)
    as Hunmatched.
  { intros j Hj Hne. apply (fixedPosition_None c j 0); [| done].
    rewrite (Hpos j Hj). unfold fixedLetter.
    by rewrite (proj2 (unmatched_true guess answer j) Hne). }
  assert (∀ i, is_Some (w !! i) → (i < 5)%nat) as Hlt.
  { intros i [? Hi]. apply lookup_lt_Some in Hi. destruct Hw as [Hl _]. lia. }
  split_and!.
  - intros i got want Hgot Hwant Hnz.
    assert (i < 5)%nat as Hi by (apply Hlt; by eexists).
    destruct (wfWord_lookup guess i Hguess Hi) as (g & Hg & _).
    rewrite (Hposs i g Hg) in Hwant. destruct (decide _) as [Heq |]; [| congruence].
    injection Hwant as <-.
    pose proof (H1 i g Hi (Hmatched i g Hi Hg Heq)) as Hwi. congruence.
  - intros i got row Hgot Hrow Hin.
    assert (i < 5)%nat as Hi by (apply Hlt; by eexists).
    destruct (wfWord_lookup guess i Hguess Hi) as (g & Hg & Hlow).
    rewrite (Hnps i g Hg) in Hrow. destruct (decide _) as [Heq | Hne].
    { injection Hrow as <-. by apply elem_of_nil in Hin. }
    injection Hrow as <-. apply list_elem_of_singleton in Hin as ->.
    assert (excludedAtPosition c i g) as Hexcl.
    { apply (Hex i g Hlow). exists i. split_and!; [lia | done |].
      unfold contained, absent. rewrite (proj2 (unmatched_true guess answer i) Hne).
      simpl. destruct (present guess answer i); [by left | by right]. }
    pose proof (H2 i g Hi Hgot Hexcl) as Hfix.
    rewrite (Hunmatched i Hi Hne) in Hfix. done.
  - intros b Hb. apply Hcss in Hb as (j & Hg & Hne & Hin).
    assert (j < 5)%nat as Hj.
    { apply lookup_lt_Some in Hg. destruct Hguess as [Hl _]. lia. }
    destruct (present guess answer j) eqn:Hp.
    + destruct (H3 b) as (i & _ & Hi & _); [| by eapply list_elem_of_lookup_2].
      unfold mustContain. rewrite Hcs. apply elem_of_containedLetters.
      exists j. split_and!; [lia | | done]. unfold contained.
      by rewrite (proj2 (unmatched_true guess answer j) Hne), Hp.
    + apply list_elem_of_lookup in Hin as [k Hk].
      assert (k < 5)%nat as Hk5.
      { apply lookup_lt_Some in Hk. destruct Hanswer as [Hl _]. lia. }
      destruct (decide (guess !! k = answer !! k)) as [Heq | Hnek].
      * rewrite Hk in Heq.
        pose proof (H1 k b Hk5 (Hmatched k b Hk5 Heq ltac:(by rewrite Heq, Hk))).
        by eapply list_elem_of_lookup_2.
      * exfalso. apply not_true_iff_false in Hp. apply Hp, present_true.
        exists k. split_and!; [done | by apply unmatched_true | by rewrite Hk, Hg].
  - intros b Hb Hin. apply Hncss in Hb as (j & Hg & Hne & Hnot).
    assert (j < 5)%nat as Hj.
    { apply lookup_lt_Some in Hg. destruct Hguess as [Hl _]. lia. }
    apply list_elem_of_lookup in Hin as [i Hi].
    assert (i < 5)%nat as Hi5 by (apply Hlt; by eexists).
    destruct (wfWord_lookup guess j Hguess Hj) as (g & Hg' & Hlow).
    rewrite Hg in Hg'. injection Hg' as <-.
    assert (present guess answer j = false) as Hp.
    { apply not_true_is_false. intros Hp. apply present_true in Hp as (k & _ & _ & Hk).
      apply Hnot. rewrite Hg in Hk. by eapply list_elem_of_lookup_2. }
    destruct (decide (guess !! i = answer !! i)) as [Heq | Hnei].
    + destruct (wfWord_lookup guess i Hguess Hi5) as (g & Hgi & _).
      pose proof (H1 i g Hi5 (Hmatched i g Hi5 Hgi Heq)) as Hwi.
      apply Hnot. rewrite Hi in Hwi. injection Hwi as ->.
      rewrite Hgi in Heq. by eapply list_elem_of_lookup_2.
    + assert (excludedAtPosition c i b) as Hexcl.
      { apply (Hex i b Hlow). exists j. split_and!; [lia | done |]. right.
        unfold absent. rewrite (proj2 (unmatched_true guess answer j) Hne), Hp.
        split_and!; [done | done | by apply unmatched_true]. }
      pose proof (H2 i b Hi5 Hi Hexcl) as Hfix.
      rewrite (Hunmatched i Hi5 Hnei) in Hfix. done.
Qed.

(** X14 — The position-aware program refines the variant that ignores
    multiplicity: from the same guess and answer, every five-letter word
    its model accepts the model of the variant accepts too, so what its
    [filter] keeps of a catalog is a sublist of what the other keeps. *)
Theorem position_aware_filter_refines_simple {F} (c0 : constraints)
    (cs0 : Simple.constraints) (words : list (word F)) (guess answer : list Z) :
  wfConstraints c0 → simpleWf cs0 → wfCatalog words → wfWord guess → wfWord answer →
  ∃ c cs out outs,
    applyDiffConstraint (clearConstraints c0) guess answer = Ok c ∧
    Simple.applyDiffConstraint (Simple.clearConstraints cs0) guess answer = Ok cs ∧
    (∀ w, wfWord w → satisfies c w = Ok true → Simple.satisfies cs w = Ok true) ∧
    filter c words = Ok out ∧ Simple.filter cs words = Ok outs ∧
    out `sublist_of` outs.
Proof.
  intros Hc0 Hcs0 Hwords Hguess Hanswer.
  rewrite (Simple_clearConstraints_new cs0 Hcs0).
  rewrite (clearConstraints_new c0 Hc0).
  destruct (applyDiffConstraint_spec guess answer Hguess Hanswer newConstraints
              newConstraints_cleared) as (c & Hrun & Hc & _).
  destruct (Simple_applyDiffConstraint_spec guess answer Hguess Hanswer)
    as (cs & Hruns & Hcs & _).
  assert (∀ w, wfWord w → satisfies c w = Ok true → Simple.satisfies cs w = Ok true)
    as Himpl.
  { intros w Hw Hsat. rewrite satisfies_consistentb in Hsat by done.
    injection Hsat as Hsat. apply consistentb_consistent in Hsat; [| done | done].
    destruct (Simple_satisfies_spec cs w) as (ok & -> & Hok); [by destruct Hw | done |].
    f_equal. apply Hok.
    by apply (consistent_simpleConsistent guess answer c cs w). }
  exists c, cs. eexists. eexists.
  split_and!; [done | done | done | by apply filter_List_filter
               | by apply Simple_filter_List_filter |].
  apply List_filter_sublist_impl. intros w Hin Hk.
  assert (wfWord (w_word w)) as Hw.
  { unfold wfCatalog in Hwords. rewrite Forall_forall in Hwords. by apply Hwords. }
  unfold simpleKeeps. rewrite (Himpl (w_word w) Hw); [done |].
  by rewrite satisfies_consistentb, Hk.
Qed.

Lemma position_aware_filter_refines_simple_witness :
  ∃ c cs out outs,
    applyDiffConstraint (clearConstraints newConstraints) (bytes "sassy") (bytes "glass")
      = Ok c ∧
    Simple.applyDiffConstraint (Simple.clearConstraints Simple.newConstraints)
      (bytes "sassy") (bytes "glass") = Ok cs ∧
    (∀ w, wfWord w → satisfies c w = Ok true → Simple.satisfies cs w = Ok true) ∧
    filter c sampleCatalog = Ok out ∧ Simple.filter cs sampleCatalog = Ok outs ∧
    out `sublist_of` outs.
Proof.
  apply (position_aware_filter_refines_simple newConstraints Simple.newConstraints
           sampleCatalog (bytes "sassy") (bytes "glass")).
  - solve_wf.
  - split; reflexivity.
  - solve_wf.
  - solve_wf.
  - solve_wf.
Defined.

(** ** The mean that [expectedNextSetSize] estimates *)

Lemma foldr_add_snoc (l : list Z) (x : Z) :
  foldr Z.add 0 (l ++ [x]) = foldr Z.add 0 l + x.
Proof. induction l as [|y l IH]; simpl; lia. Qed.

Lemma survivors_spec {F} (words : list (word F)) guess answer c :
  wfCatalog words → wfWord guess → wfWord answer → wfConstraints c →
  ∃ c', applyDiffConstraint (clearConstraints c) guess answer = Ok c' ∧
        wfConstraints c' ∧
        survivors words guess answer
        = Z.of_nat (length (List.filter (λ w, consistentb c' (w_word w)) words)).
Proof.
  intros Hwords Hguess Hanswer Hc. rewrite (clearConstraints_new c Hc).
  destruct (applyDiffConstraint_sound newConstraints guess answer Hguess Hanswer
              newConstraints_cleared) as (c' & Hrun & Hc' & _).
  exists c'. split_and!; [done | done |]. unfold survivors. rewrite Hrun.
  cbn [mbind result_bind]. by rewrite (filter_List_filter c' words Hc' Hwords).
Qed.

(** X15 — Run on exact rationals in the place of [float64], the running
    update of [expectedNextSetSize] computes the arithmetic mean it is
    named after: the number of words of the pool that survive the feedback
    to the guess, averaged over the words of the pool taken as the
    answer. *)
Theorem expectedNextSetSizeQ_is_mean (words : list (word Q)) (guess : list Z) :
  words ≠ [] → Z.of_nat (length words) ≤ maxInt → wfCatalog words → wfWord guess →
  ∃ v, expectedNextSetSizeQ words guess = Ok v ∧
       (v == inject_Z (totalSurvivors words words guess)
             / inject_Z (Z.of_nat (length words)))%Q.
Proof.
  intros Hne Hmax Hwords Hguess. unfold expectedNextSetSizeQ.
  destruct (forLoop_inv
    (λ i (st : constraints * Q),
       wfConstraints st.1 ∧
       (st.2 * inject_Z (Z.of_nat i)
        == inject_Z (totalSurvivors words (take i words) guess))%Q)
    (expectedNextSetSize_step Q inject_Z Qplus Qminus Qdiv words guess)
    (length words) 0%nat (newConstraints, 0%Q)) as (st & Hrun & Hc & Hsum).
  - split; [apply newConstraints_wf | done].
  - intros i [c avg] Hi [Hc Hsum]. simpl in *.
    destruct (lookup_lt_is_Some_2 words i) as [w Hw]; [lia |].
    assert (wfWord (w_word w)) as Hwf by (by eapply (Forall_lookup_1 _ _ _ _ Hwords)).
    unfold expectedNextSetSize_step. simpl.
    rewrite (index_Ok _ _ _ Hw). cbn [mbind result_bind].
    destruct (survivors_spec words guess (w_word w) c Hwords Hguess Hwf Hc)
      as (c' & -> & Hc' & Hn).
    cbn [mbind result_bind].
    rewrite (expectedNextSetSize_count_spec Q c' words Hc' Hwords).
    cbn [mbind result_bind]. rewrite <- Hn.
    eexists. split; [done |]. simpl. split; [done |].
    unfold totalSurvivors in *. rewrite (take_S_r _ _ _ Hw), fmap_app.
    change ((λ w0 : word Q, survivors words guess (w_word w0)) <$> [w])
      with [survivors words guess (w_word w)].
    rewrite foldr_add_snoc, inject_Z_plus, <- Hsum. unfold meanUpdate.
    rewrite Nat2Z.inj_succ, <- Z.add_1_r, inject_Z_plus.
    set (x := inject_Z (Z.of_nat i)). set (n := inject_Z (survivors words guess (w_word w))).
    assert (0 <= x)%Q as Hx.
    { unfold x. change 0%Q with (inject_Z 0). rewrite <- Zle_Qle. lia. }
    change (inject_Z 1) with 1%Q. field. lra.
  - destruct st as [c v]. simpl in *. exists v. split.
    + unfold expectedNextSetSize. by rewrite Hrun.
    + cbn [Nat.add] in Hsum. rewrite firstn_all in Hsum. rewrite <- Hsum.
      assert (0 < inject_Z (Z.of_nat (length words)))%Q as Hpos.
      { change 0%Q with (inject_Z 0). rewrite <- Zlt_Qlt.
        destruct words; [done | simpl; lia]. }
      field. lra.
Qed.

Lemma expectedNextSetSizeQ_is_mean_witness :
  ∃ v, expectedNextSetSizeQ sampleCatalog (bytes "sassy") = Ok v ∧
       (v == inject_Z (totalSurvivors sampleCatalog sampleCatalog (bytes "sassy"))
             / inject_Z (Z.of_nat (length sampleCatalog)))%Q.
Proof.
  apply (expectedNextSetSizeQ_is_mean sampleCatalog (bytes "sassy")).
  - discriminate.
  - vm_compute. discriminate.
  - solve_wf.
  - solve_wf.
Defined.

(** ** The simulation of the variant that ignores multiplicity *)







Section VariantProofs.

Variable float64 : Type.
Variable fzero : float64.
Variable fofint : Z → float64.
Variables fadd fsub fdiv : float64 → float64 → float64.
Variables feqb fgtb : float64 → float64 → bool.
Variable sortSlice : ∀ A : Type, (A → A → bool) → list A → list A.

Local Abbreviation wordF := (word float64).
Local Abbreviation expectedNextSetSize' :=
  (SimpleRanking.expectedNextSetSize float64 fzero fofint fadd fsub fdiv).
Local Abbreviation sortWords' :=
  (SimpleRanking.sortWords float64 fzero fofint fadd fsub fdiv feqb fgtb sortSlice).
Local Abbreviation simulate' :=
  (SimpleRanking.simulate float64 fzero fofint fadd fsub fdiv feqb fgtb sortSlice).

(** [sort.Slice] only swaps elements. *)
Hypothesis sortSlice_Permutation :
  ∀ (A : Type) (less : A → A → bool) (l : list A), sortSlice A less l ≡ₚ l.








End VariantProofs.



(** ** Typed feedback and simulated feedback *)

(** Two well-formed models with the same fixed letters, the same required
    letters and the same exclusions are the same model. *)
Lemma constraints_ext c1 c2 :
  wfConstraints c1 → wfConstraints c2 →
  position c1 = position c2 → contains c1 = contains c2 →
  (∀ j b, lowercase b → excludedAtPosition c1 j b ↔ excludedAtPosition c2 j b) →
  c1 = c2.
Proof.
  intros (Hp1 & Hn1 & Hr1) (Hp2 & Hn2 & Hr2) Hpos Hcs Hex.
  destruct c1 as [p1 np1 cs1], c2 as [p2 np2 cs2]. simpl in *. subst p2 cs2.
  f_equal. apply list_eq. intros j.
  destruct (decide (j < 5)%nat) as [Hj | Hj]; [| by rewrite !lookup_ge_None_2 by lia].
  destruct (lookup_lt_is_Some_2 np1 j) as [row1 Hrow1]; [lia |].
  destruct (lookup_lt_is_Some_2 np2 j) as [row2 Hrow2]; [lia |].
  rewrite Hrow1, Hrow2. f_equal.
  assert (length row1 = 26%nat) as Hl1 by (by eapply (Forall_lookup_1 _ _ _ _ Hr1)).
  assert (length row2 = 26%nat) as Hl2 by (by eapply (Forall_lookup_1 _ _ _ _ Hr2)).
  apply list_eq. intros k.
  destruct (decide (k < 26)%nat) as [Hk | Hk]; [| by rewrite !lookup_ge_None_2 by lia].
  destruct (lookup_lt_is_Some_2 row1 k) as [x1 Hx1]; [lia |].
  destruct (lookup_lt_is_Some_2 row2 k) as [x2 Hx2]; [lia |].
  rewrite Hx1, Hx2. f_equal.
  set (b := ch_a + Z.of_nat k).
  assert (lowercase b) as Hb by (unfold b, lowercase, ch_a, ch_z; lia).
  assert (Z.to_nat (byte_sub b ch_a) = k) as Hoff.
  { unfold b, byte_sub, ch_a. rewrite Z.mod_small by lia. lia. }
  specialize (Hex j b Hb). unfold excludedAtPosition in Hex. simpl in Hex.
  rewrite Hoff in Hex. destruct x1, x2; try done.
  - destruct Hex as [Hex _]. destruct Hex as (row & Hrow & Ht); [by exists row1 |].
    congruence.
  - destruct Hex as [_ Hex]. destruct Hex as (row & Hrow & Ht); [by exists row2 |].
    congruence.
Qed.

Lemma diffOp_plus guess answer i :
  diffOp guess answer i = ch_plus ↔ unmatched guess answer i = false.
Proof.
  unfold diffOp. destruct (unmatched guess answer i); [| done].
  by destruct (present guess answer i).
Qed.

Lemma diffOp_tilde guess answer i :
  diffOp guess answer i = ch_tilde ↔ contained guess answer i = true.
Proof.
  unfold diffOp, contained. destruct (unmatched guess answer i); [| done].
  by destruct (present guess answer i).
Qed.

Lemma diffOp_minus guess answer i :
  diffOp guess answer i = ch_minus ↔ absent guess answer i = true.
Proof.
  unfold diffOp, absent. destruct (unmatched guess answer i); [| done].
  by destruct (present guess answer i).
Qed.

Lemma inputConstraints_spells_diff (line guess answer : list Z) :
  wfWord guess → wfWord answer → wellFormedLine line → spellsDiff line guess answer →
  ∃ c, inputConstraints line = Ok (Some c) ∧
       applyDiffConstraint newConstraints guess answer = Ok c.
Proof.
  intros Hguess Hanswer Hline Hspell.
  destruct (inputConstraints_wellFormed line Hline) as (c & Hrun & Hc).
  exists c. split; [done |].
  destruct (applyDiffConstraint_spec guess answer Hguess Hanswer newConstraints
              newConstraints_cleared) as (c' & -> & Hc' & Hpos' & Hcs' & Hex').
  f_equal. symmetry.
  (* what the line is, field by field *)
  assert (∀ i, (i < 5)%nat → ∃ g, guess !! i = Some g ∧ lowercase g ∧
                                  Fields line !! i = Some [diffOp guess answer i; g])
    as Hfield.
  { intros i Hi. destruct (wfWord_lookup guess i Hguess Hi) as (g & Hg & Hlow).
    exists g. split_and!; [done | done | by apply Hspell]. }
  assert (∀ i op b, Fields line !! i = Some [op; b] →
                    (i < 5)%nat ∧ op = diffOp guess answer i ∧ guess !! i = Some b)
    as Htoken.
  { intros i op b Hi. destruct Hline as [Hlen _].
    assert (i < 5)%nat as Hi5 by (apply lookup_lt_Some in Hi; lia).
    destruct (Hfield i Hi5) as (g & Hg & _ & Hi'). rewrite Hi in Hi'.
    injection Hi' as -> ->. done. }
  (* the model read from the line *)
  unfold inputConstraints in Hrun. destruct Hline as [Hlen Hall].
  rewrite decide_False in Hrun by (by intros ?).
  rewrite (inputConstraints_check_true _ Hall) in Hrun. cbn [mbind result_bind] in Hrun.
  destruct (inputConstraints_marks_spec _ Hall 0%nat newConstraints)
    as (c1 & Hrun1 & Hc1 & _ & Hat & Hcs1 & Hex1); [lia | apply newConstraints_wf |].
  rewrite Hrun1 in Hrun. cbn [mbind result_bind] in Hrun.
  destruct (inputConstraints_absent_spec _ Hall c1 Hc1)
    as (c2 & Hrun2 & Hc2 & Hpos2 & Hcs2 & Hex2).
  rewrite Hrun2 in Hrun. injection Hrun as <-.
  destruct newConstraints_cleared as (_ & Hzero & Hnone & _).
  assert (∀ i, (i < 5)%nat → position c1 !! i = Some (fixedLetter guess answer i))
    as Hpos1.
  { intros i Hi. destruct (Hfield i Hi) as (g & Hg & Hlow & Hi').
    specialize (Hat i _ g Hi'). cbn [Nat.add] in Hat. rewrite Hat.
    unfold fixedLetter, diffOp. destruct (unmatched guess answer i).
    - rewrite decide_False by (by destruct (present guess answer i)). by apply Hzero.
    - rewrite decide_True by done. by rewrite (list_lookup_total_correct _ _ _ Hg). }
  apply constraints_ext; [done | done | | |].
  - rewrite Hpos2. apply list_eq. intros j.
    destruct (decide (j < 5)%nat) as [Hj | Hj].
    + by rewrite (Hpos1 j Hj), (Hpos' j Hj).
    + destruct Hc1 as (Hl1 & _). destruct Hc' as (Hl' & _).
      by rewrite !lookup_ge_None_2 by lia.
  - rewrite Hcs2, Hcs1, Hcs'. cbn [contains newConstraints app].
    unfold containedLetters.
    destruct (Hfield 0%nat ltac:(lia)) as (g0 & Hg0 & _ & H0).
    destruct (Hfield 1%nat ltac:(lia)) as (g1 & Hg1 & _ & H1).
    destruct (Hfield 2%nat ltac:(lia)) as (g2 & Hg2 & _ & H2).
    destruct (Hfield 3%nat ltac:(lia)) as (g3 & Hg3 & _ & H3).
    destruct (Hfield 4%nat ltac:(lia)) as (g4 & Hg4 & _ & H4).
    destruct (Fields line) as [|t0 [|t1 [|t2 [|t3 [|t4 [|]]]]]]; try done.
    cbn [lookup list_lookup] in H0, H1, H2, H3, H4.
    injection H0 as ->. injection H1 as ->. injection H2 as ->.
    injection H3 as ->. injection H4 as ->.
    cbn [tildeLetters seq omap list_omap]. rewrite Hg0, Hg1, Hg2, Hg3, Hg4.
    assert (∀ i (g : Z),
              (if decide (diffOp guess answer i = ch_tilde) then Some g else None)
              = (if contained guess answer i then Some g else None)) as Hsame.
    { intros i g. destruct (contained guess answer i) eqn:Hci.
      - by rewrite decide_True by (by apply diffOp_tilde).
      - rewrite decide_False; [done |]. intros Ht%diffOp_tilde. congruence. }
    by rewrite !Hsame.
  - intros j b Hb. rewrite (Hex2 j b Hb), (Hex1 j b Hb), (Hex' j b Hb). split.
    + intros [[? | (k & -> & Hk)] | [Hin Hz]].
      * by destruct (Hnone j b).
      * cbn [Nat.add] in *. destruct (Htoken k _ _ Hk) as (Hk5 & Hop & Hg).
        exists k. split_and!; [done | done |]. left. split; [| done].
        by apply diffOp_tilde.
      * apply list_elem_of_lookup in Hin as [i Hi].
        destruct (Htoken i _ _ Hi) as (Hi5 & Hop & Hg).
        assert (j < 5)%nat as Hj.
        { apply lookup_lt_Some in Hz. destruct Hc1 as (Hl & _). lia. }
        exists i. split_and!; [done | done |]. right. split_and!; [| done |].
        -- by apply diffOp_minus.
        -- apply (fixedLetter_zero guess answer Hguess j Hj).
           rewrite (Hpos1 j Hj) in Hz. by injection Hz.
    + intros (i & Hi & Hg & [[Hci ->] | (Hai & Hj & Hu)]).
      * left. right. exists i. split; [done |].
        destruct (Hfield i Hi) as (g & Hg' & _ & Hi'). rewrite Hg in Hg'.
        injection Hg' as <-. by rewrite (proj2 (diffOp_tilde guess answer i) Hci) in Hi'.
      * right. split.
        -- destruct (Hfield i Hi) as (g & Hg' & _ & Hi'). rewrite Hg in Hg'.
           injection Hg' as <-.
           rewrite (proj2 (diffOp_minus guess answer i) Hai) in Hi'.
           by eapply list_elem_of_lookup_2.
        -- rewrite (Hpos1 j Hj). f_equal.
           by apply (fixedLetter_zero guess answer Hguess j Hj).
Qed.

(** X18 — Typing the feedback gives the model the simulation builds: on a
    well-formed line that spells the diff of a guess and an answer, field
    by field with the operator of the branch [applyDiffConstraint] takes,
    [inputConstraints] returns exactly the model that
    [applyDiffConstraint] leaves in a new one; the answer satisfies it,
    and the guess does not unless it is the answer. *)
Theorem inputConstraints_of_diff (line guess answer : list Z) :
  wfWord guess → wfWord answer → wellFormedLine line → spellsDiff line guess answer →
  ∃ c, inputConstraints line = Ok (Some c) ∧
       applyDiffConstraint newConstraints guess answer = Ok c ∧
       satisfies c answer = Ok true ∧
       (guess ≠ answer → satisfies c guess = Ok false).
Proof.
  intros Hguess Hanswer Hline Hspell.
  destruct (inputConstraints_spells_diff line guess answer Hguess Hanswer Hline Hspell)
    as (c & Hparse & Hdiff).
  destruct (applyDiffConstraint_sound newConstraints guess answer Hguess Hanswer
              newConstraints_cleared) as (c' & Hdiff' & Hc & Hcons).
  rewrite Hdiff in Hdiff'. injection Hdiff' as <-.
  exists c. split_and!; [done | done | |].
  - rewrite satisfies_consistentb by done. f_equal. by apply consistentb_consistent.
  - intros Hne. rewrite satisfies_consistentb by done. f_equal.
    by apply (applyDiffConstraint_rejects_guess newConstraints guess answer c Hguess
                Hanswer newConstraints_cleared Hne).
Qed.

Lemma inputConstraints_of_diff_witness :
  ∃ c, inputConstraints (bytes "~s ~a ~s +s -y") = Ok (Some c) ∧
       applyDiffConstraint newConstraints (bytes "sassy") (bytes "glass") = Ok c ∧
       satisfies c (bytes "glass") = Ok true ∧
       (bytes "sassy" ≠ bytes "glass" → satisfies c (bytes "sassy") = Ok false).
Proof.
  assert (Fields (bytes "~s ~a ~s +s -y")
          = [[126; 115]; [126; 97]; [126; 115]; [43; 115]; [45; 121]])
    as Hfields by (vm_compute; reflexivity).
  apply (inputConstraints_of_diff (bytes "~s ~a ~s +s -y") (bytes "sassy") (bytes "glass")).
  - solve_wf.
  - solve_wf.
  - split; rewrite Hfields; [reflexivity |].
    repeat (apply Forall_cons; split;
            [eexists _, _; split; [reflexivity |];
             unfold lowercase, ch_a, ch_z, ch_plus, ch_tilde, ch_minus; lia |]).
    constructor.
  - intros i g Hg. unfold tokenAt. rewrite Hfields.
    destruct i as [|[|[|[|[|i]]]]]; vm_compute in Hg; injection Hg as <- || discriminate;
      reflexivity.
Defined.

(** ** Honest feedback in the interactive mode *)

Section PlayProofs.

Variable float64 : Type.
Variable fzero : float64.
Variable fofint : Z → float64.
Variables fadd fsub fdiv : float64 → float64 → float64.
Variables feqb fgtb : float64 → float64 → bool.
Variable sortSlice : ∀ A : Type, (A → A → bool) → list A → list A.

Hypothesis sortSlice_Permutation :
  ∀ (A : Type) (less : A → A → bool) (l : list A), sortSlice A less l ≡ₚ l.
Hypothesis mean_first :
  ∀ l n h : Z, l ≤ n ≤ h →
    within float64 fofint feqb fgtb l h
      (meanUpdate float64 fofint fadd fsub fdiv fzero n 0).
Hypothesis mean_next :
  ∀ (l n h : Z) (avg : float64) (i : nat),
    1 ≤ l → l ≤ n ≤ h → h ≤ maxInt → (1 ≤ i)%nat →
    within float64 fofint feqb fgtb l h avg →
    within float64 fofint feqb fgtb l h
      (meanUpdate float64 fofint fadd fsub fdiv avg n i).

(** X19 — Honest feedback never loses the answer: when every well-formed
    line typed spells the diff of some guess against a word of the
    catalog, the interactive mode ends with that word still among the
    candidates, whatever else is typed. *)
Theorem main_interactive_keeps_answer (input : list (list Z))
    (words : list (word float64)) (answer : list Z) :
  wfCatalog words → Z.of_nat (length words) ≤ maxInt → answer ∈ texts words →
  (∀ line, line ∈ input → wellFormedLine line →
           ∃ guess, wfWord guess ∧ spellsDiff line guess answer) →
  ∃ final out,
    main_interactive float64 fzero fofint fadd fsub fdiv feqb fgtb sortSlice input words
      = Ok (final, out) ∧
    answer ∈ texts final.
Proof.
  intros Hwords Hmax Hin Hhonest.
  assert (wfWord answer) as Hanswer.
  { apply wfCatalog_texts in Hwords. rewrite Forall_forall in Hwords. by apply Hwords. }
  unfold main_interactive.
  destruct (sortWords_entries float64 fzero fofint fadd fsub fdiv feqb fgtb sortSlice
              sortSlice_Permutation mean_first mean_next words Hwords Hmax)
    as (words' & Hsort & Hl & _ & Hperm & Hwords').
  destruct (suggest_of_sortWords float64 fzero fofint fadd fsub fdiv feqb fgtb sortSlice
              words words' Hsort) as (s & -> & _).
  cbn [mbind result_bind]. rewrite Hsort. cbn [mbind result_bind].
  destruct (interact_spec float64 fzero fofint fadd fsub fdiv feqb fgtb sortSlice
              sortSlice_Permutation mean_first mean_next input words' Hwords')
    as (final & out & -> & _ & Hkeep); [lia |].
  cbn [mbind result_bind]. exists final. eexists. split; [done |].
  apply Hkeep; [by rewrite Hperm |].
  intros line c Hline Hparse.
  destruct (wellFormedLine_cases line) as [Hwf | Hwf].
  2: { rewrite (inputConstraints_malformed line Hwf) in Hparse. done. }
  destruct (Hhonest line Hline Hwf) as (guess & Hguess & Hspell).
  destruct (inputConstraints_spells_diff line guess answer Hguess Hanswer Hwf Hspell)
    as (c' & Hparse' & Hdiff).
  rewrite Hparse in Hparse'. injection Hparse' as <-.
  destruct (applyDiffConstraint_sound newConstraints guess answer Hguess Hanswer
              newConstraints_cleared) as (c' & Hdiff' & Hc & Hcons).
  rewrite Hdiff in Hdiff'. injection Hdiff' as <-.
  rewrite satisfies_consistentb by done. f_equal. by apply consistentb_consistent.
Qed.

End PlayProofs.

Lemma main_interactive_keeps_answer_witness :
  ∃ final out,
    main_interactiveQ [bytes "~s ~a ~s +s -y"; bytes "?"] sampleCatalog = Ok (final, out) ∧
    bytes "glass" ∈ texts final.
Proof.
  assert (Fields (bytes "~s ~a ~s +s -y")
          = [[126; 115]; [126; 97]; [126; 115]; [43; 115]; [45; 121]])
    as Hfields by (vm_compute; reflexivity).
  apply (main_interactive_keeps_answer Q 0%Q inject_Z Qplus Qminus Qdiv Qeq_bool Qgtb
           insertionSort (@insertionSort_Permutation) meanQ_first meanQ_next
           [bytes "~s ~a ~s +s -y"; bytes "?"] sampleCatalog (bytes "glass")).
  - solve_wf.
  - vm_compute. discriminate.
  - apply (bool_decide_unpack _). vm_compute. exact I.
  - intros line Hline Hwf.
    apply elem_of_cons in Hline as [-> | Hline].
    + exists (bytes "sassy"). split; [solve_wf |].
      intros i g Hg. unfold tokenAt. rewrite Hfields.
      destruct i as [|[|[|[|[|i]]]]]; vm_compute in Hg;
        injection Hg as <- || discriminate; reflexivity.
    + apply list_elem_of_singleton in Hline as ->. destruct Hwf as [Hlen _].
      vm_compute in Hlen. discriminate.
Defined.

(** ** Words that do not have five bytes *)

Lemma index_take {A} (l : list A) (n i : nat) :
  (i < n)%nat → index (take n l) i = index l i.
Proof. intros Hi. unfold index. by rewrite lookup_take_lt. Qed.

Lemma index_short {A} (l : list A) (i : nat) : (length l ≤ i)%nat → index l i = Panic.
Proof. intros Hi. unfold index. by rewrite lookup_ge_None_2. Qed.

Lemma forLoop_ext {St} (body1 body2 : nat → St → result St) n :
  ∀ lo s, (∀ k s', (lo ≤ k < lo + n)%nat → body1 k s' = body2 k s') →
          forLoop body1 lo n s = forLoop body2 lo n s.
Proof.
  induction n as [|n IH]; intros lo s Hext; [done |]. cbn [forLoop].
  rewrite (Hext lo s) by lia. destruct (body2 lo s) as [s'|]; [| done].
  cbn [mbind result_bind]. apply IH. intros k s'' Hk. apply Hext. lia.
Qed.

(** A loop that reaches an iteration that panics panics. *)
Lemma forLoop_panics {St} (body : nat → St → result St) n k :
  (∀ s, body k s = Panic) →
  ∀ lo s, (lo ≤ k < lo + n)%nat → forLoop body lo n s = Panic.
Proof.
  intros Hk. induction n as [|n IH]; intros lo s Hlo; [lia |]. cbn [forLoop].
  destruct (decide (lo = k)) as [-> | Hne]; [by rewrite Hk |].
  destruct (body lo s) as [s'|]; [| done]. cbn [mbind result_bind]. apply IH. lia.
Qed.

Lemma satisfies_positions_take c w n :
  ∀ i, (i + n ≤ 5)%nat →
       satisfies_positions c (take 5 w) i n = satisfies_positions c w i n.
Proof.
  induction n as [|n IH]; intros i Hi; [done |]. cbn [satisfies_positions].
  rewrite index_take by lia. destruct (index w i) as [got|]; [| done].
  cbn [mbind result_bind]. destruct (index (position c) i) as [want|]; [| done].
  cbn [mbind result_bind]. rewrite IH by lia. done.
Qed.

Lemma satisfies_found_take c w b n :
  ∀ i, (i + n ≤ 5)%nat →
       satisfies_found c (take 5 w) b i n = satisfies_found c w b i n.
Proof.
  induction n as [|n IH]; intros i Hi; [done |]. cbn [satisfies_found].
  rewrite index_take by lia. rewrite IH by lia. done.
Qed.

Lemma satisfies_contains_take c w bs :
  satisfies_contains c (take 5 w) bs = satisfies_contains c w bs.
Proof.
  induction bs as [|b bs IH]; [done |]. cbn [satisfies_contains].
  rewrite satisfies_found_take by lia. by rewrite IH.
Qed.

(** The first loop of [satisfies] runs to its end on words of five bytes
    or more only. *)
Lemma satisfies_positions_true c w n :
  ∀ i, satisfies_positions c w i n = Ok true → (i + n ≤ length w)%nat ∨ n = 0%nat.
Proof.
  induction n as [|n IH]; intros i Hrun; [by right |]. left.
  cbn [satisfies_positions] in Hrun.
  destruct (w !! i) as [got|] eqn:Hgot.
  2: { unfold index in Hrun. by rewrite Hgot in Hrun. }
  rewrite (index_Ok _ _ _ Hgot) in Hrun. cbn [mbind result_bind] in Hrun.
  destruct (index (position c) i) as [want|]; [| done]. cbn [mbind result_bind] in Hrun.
  assert (satisfies_positions c w (S i) n = Ok true) as Hnext.
  { destruct (decide (want ≠ 0)).
    - by destruct (decide (got ≠ want)).
    - destruct (excluded c i got) as [[|]|]; done. }
  apply lookup_lt_Some in Hgot. destruct (IH (S i) Hnext); lia.
Qed.

(** X20 — [satisfies] reads the first five bytes of the word and no
    other; it never accepts a word of fewer than five bytes, for which it
    panics or returns false, and on the empty word it panics. *)
Theorem satisfies_reads_five_bytes (c : constraints) (w : list Z) :
  satisfies c w = satisfies c (take 5 w) ∧
  ((length w < 5)%nat → satisfies c w = Panic ∨ satisfies c w = Ok false) ∧
  (w = [] → satisfies c w = Panic).
Proof.
  split_and!.
  - unfold satisfies. rewrite satisfies_positions_take by lia.
    by rewrite satisfies_contains_take.
  - intros Hlen. unfold satisfies.
    destruct (satisfies_positions c w 0 5) as [[|]|] eqn:Hpos; [| by right | by left].
    apply satisfies_positions_true in Hpos. lia.
  - intros ->. done.
Qed.

Lemma applyDiffConstraint_fixed_take guess answer k c :
  (k < 5)%nat →
  applyDiffConstraint_fixed (take 5 guess) (take 5 answer) k c
  = applyDiffConstraint_fixed guess answer k c.
Proof. intros Hk. unfold applyDiffConstraint_fixed. by rewrite !index_take by lia. Qed.

Lemma applyDiffConstraint_rest_take guess answer k c :
  (k < 5)%nat →
  applyDiffConstraint_rest (take 5 guess) (take 5 answer) k c
  = applyDiffConstraint_rest guess answer k c.
Proof.
  intros Hk. unfold applyDiffConstraint_rest.
  rewrite !index_take by lia.
  rewrite (forLoop_ext (applyDiffConstraint_found c (take 5 guess) (take 5 answer) k)
             (applyDiffConstraint_found c guess answer k) 5 0 false).
  2: { intros j found Hj. unfold applyDiffConstraint_found. by rewrite !index_take by lia. }
  rewrite (forLoop_ext (applyDiffConstraint_absent (take 5 guess) k)
             (applyDiffConstraint_absent guess k) 5 0 c).
  2: { intros j c' Hj. unfold applyDiffConstraint_absent. by rewrite !index_take by lia. }
  done.
Qed.

(** X21 — [applyDiffConstraint] reads the first five bytes of the guess
    and of the answer and no other, and it panics whenever one of the two
    has fewer than five bytes, whatever the model. *)
Theorem applyDiffConstraint_reads_five_bytes (c : constraints) (guess answer : list Z) :
  applyDiffConstraint c guess answer
    = applyDiffConstraint c (take 5 guess) (take 5 answer) ∧
  ((length guess < 5)%nat ∨ (length answer < 5)%nat →
   applyDiffConstraint c guess answer = Panic).
Proof.
  split.
  - unfold applyDiffConstraint.
    rewrite (forLoop_ext (applyDiffConstraint_fixed (take 5 guess) (take 5 answer))
               (applyDiffConstraint_fixed guess answer) 5 0 c).
    2: { intros k s Hk. apply applyDiffConstraint_fixed_take. lia. }
    destruct (forLoop (applyDiffConstraint_fixed guess answer) 0 5 c) as [c1|]; [| done].
    cbn [mbind result_bind]. symmetry. apply forLoop_ext.
    intros k s Hk. apply applyDiffConstraint_rest_take. lia.
  - intros Hshort. unfold applyDiffConstraint.
    rewrite (forLoop_panics (applyDiffConstraint_fixed guess answer) 5
               (length guess `min` length answer)); [done | | lia].
    intros s. unfold applyDiffConstraint_fixed.
    destruct (decide (length guess ≤ length answer)%nat) as [Hle | Hgt].
    + by rewrite (index_short guess) by lia.
    + destruct (index guess _); [| done]. cbn [mbind result_bind].
      by rewrite (index_short answer) by lia.
Qed.

(** ** Typed and simulated feedback in the variant that ignores multiplicity *)

Lemma SimpleInput_fields_spec fields :
  Forall wellFormedToken fields →
  ∀ i c, (i + length fields ≤ 5)%nat → simpleWf c →
    ∃ c', SimpleInput.inputConstraints_fields fields i c = Ok c' ∧ simpleWf c' ∧
          (∀ j, (j < i)%nat →
                Simple.position c' !! j = Simple.position c !! j ∧
                Simple.notPosition c' !! j = Simple.notPosition c !! j) ∧
          (∀ k op b, fields !! k = Some [op; b] →
             Simple.position c' !! (i + k)%nat
             = (if decide (op = ch_plus) then Some b
                else Simple.position c !! (i + k)%nat) ∧
             Simple.notPosition c' !! (i + k)%nat
             = (if decide (op = ch_tilde)
                then (λ row, row ++ [b]) <$> Simple.notPosition c !! (i + k)%nat
                else Simple.notPosition c !! (i + k)%nat)) ∧
          Simple.contains c' = Simple.contains c ++ tildeLetters fields ∧
          Simple.notContains c' = Simple.notContains c ++ minusLetters fields.
Proof.
  induction 1 as [|t fields (op & b & -> & Hop & Hb) _ IH]; intros i c Hi Hc.
  { exists c. split_and!; [done | done | done | | by rewrite app_nil_r..].
    intros k op b Hk. by rewrite lookup_nil in Hk. }
  cbn [length] in Hi. cbn [SimpleInput.inputConstraints_fields].
  cbn [index lookup list_lookup mbind result_bind].
  assert (ch_minus ≠ ch_plus ∧ ch_minus ≠ ch_tilde ∧ ch_plus ≠ ch_tilde)
    as (Hmp & Hmt & Hpt) by done.
  match goal with |- ∃ c', ?e ≫= _ = _ ∧ _ => set (step := e) end.
  assert (∃ c1, step = Ok c1 ∧ simpleWf c1 ∧
               (∀ j, j ≠ i → Simple.position c1 !! j = Simple.position c !! j ∧
                             Simple.notPosition c1 !! j = Simple.notPosition c !! j) ∧
               Simple.position c1 !! i
               = (if decide (op = ch_plus) then Some b else Simple.position c !! i) ∧
               Simple.notPosition c1 !! i
               = (if decide (op = ch_tilde)
                  then (λ row, row ++ [b]) <$> Simple.notPosition c !! i
                  else Simple.notPosition c !! i) ∧
               Simple.contains c1
               = Simple.contains c ++ (if decide (op = ch_tilde) then [b] else []) ∧
               Simple.notContains c1
               = Simple.notContains c ++ (if decide (op = ch_minus) then [b] else []))
    as (c1 & Hrun & Hc1 & Hother & Hpi & Hni & Hcs1 & Hncs1).
  { pose proof Hc as (Hp & Hn). subst step.
    destruct (decide (op = ch_minus)) as [-> | Hnm].
    - eexists. split; [done |]. rewrite !decide_False by done.
      split_and!; simpl; [done | done | done | done | by rewrite app_nil_r | done].
    - destruct (decide (op = ch_plus)) as [-> | Hnp].
      + rewrite store_Ok by lia. cbn [mbind result_bind].
        eexists. split; [done |]. rewrite !decide_False by done.
        split_and!; simpl; [| | | done | by rewrite app_nil_r..].
        * split; simpl; [by rewrite length_insert | done].
        * intros j Hj. by rewrite list_lookup_insert_ne.
        * apply list_lookup_insert_eq. lia.
      + destruct (decide (op = ch_tilde)) as [-> | Hnt]; [| by destruct Hop as [? | [? | ?]]].
        destruct (lookup_lt_is_Some_2 (Simple.notPosition c) i) as [row Hrow]; [lia |].
        rewrite (index_Ok _ _ _ Hrow). cbn [mbind result_bind].
        rewrite store_Ok by lia. cbn [mbind result_bind].
        eexists. split; [done |].
        split_and!; simpl; [| | done | | done | by rewrite app_nil_r].
        * split; simpl; [done | by rewrite length_insert].
        * intros j Hj. by rewrite list_lookup_insert_ne.
        * rewrite Hrow. simpl. apply list_lookup_insert_eq. lia. }
  rewrite Hrun. cbn [mbind result_bind].
  destruct (IH (S i) c1) as (c' & Hrun' & Hc' & Hlt & Hat & Hcs & Hncs); [lia | done |].
  exists c'. split_and!; [done | done | | | |].
  - intros j Hj. destruct (Hlt j) as [H1 H2]; [lia |]. destruct (Hother j) as [H3 H4]; [lia |].
    split; congruence.
  - intros [|k] op' b' Hk.
    + injection Hk as <- <-. rewrite Nat.add_0_r. destruct (Hlt i) as [H1 H2]; [lia |].
      split; congruence.
    + cbn [lookup list_lookup] in Hk. replace (i + S k)%nat with (S i + k)%nat by lia.
      destruct (Hat k op' b' Hk) as [H1 H2]. destruct (Hother (S i + k)%nat) as [H3 H4]; [lia |].
      rewrite H1, H2, H3, H4. done.
  - rewrite Hcs, Hcs1, <- app_assoc. f_equal. unfold tildeLetters.
    cbn [omap list_omap]. by destruct (decide (op = ch_tilde)).
  - rewrite Hncs, Hncs1, <- app_assoc. f_equal. unfold minusLetters.
    cbn [omap list_omap]. by destruct (decide (op = ch_minus)).
Qed.

Lemma simpleDiffOp_cases guess answer i g :
  guess !! i = Some g → g < 128 →
  (simpleDiffOp guess answer i = ch_plus ↔ guess !! i = answer !! i) ∧
  (simpleDiffOp guess answer i = ch_tilde ↔ guess !! i ≠ answer !! i ∧ g ∈ answer) ∧
  (simpleDiffOp guess answer i = ch_minus ↔ guess !! i ≠ answer !! i ∧ g ∉ answer).
Proof.
  intros Hg Hlt. unfold simpleDiffOp, Simple.ContainsRune.
  rewrite (list_lookup_total_correct _ _ _ Hg). rewrite (decide_True _ _ Hlt).
  destruct (decide (guess !! i = answer !! i)) as [Heq | Hne].
  - split_and!; split; try done; by intros [? _].
  - destruct (decide (g ∈ answer)) as [Hin | Hin].
    + rewrite (bool_decide_eq_true_2 _ Hin).
      split_and!; split; try done; by intros [_ ?].
    + rewrite (bool_decide_eq_false_2 _ Hin).
      split_and!; split; try done; by intros [_ ?].
Qed.

(** X22 — In the second document typed feedback and simulated feedback
    give models that accept the same words, but not the same model: on a
    well-formed line that spells the diff of a guess and an answer,
    [inputConstraints] and [applyDiffConstraint] agree on [position],
    [contains] and [notContains], while [notPosition] holds the guessed
    letter for a [~] field only in the first and for every position
    that is not an exact match in the second. *)
Theorem Simple_inputConstraints_of_diff (line guess answer : list Z) :
  wfWord guess → wfWord answer → wellFormedLine line →
  simpleSpellsDiff line guess answer →
  ∃ cp cd,
    SimpleInput.inputConstraints line = Ok (Some cp) ∧
    Simple.applyDiffConstraint Simple.newConstraints guess answer = Ok cd ∧
    Simple.position cp = Simple.position cd ∧
    Simple.contains cp = Simple.contains cd ∧
    Simple.notContains cp = Simple.notContains cd ∧
    (∀ i g, guess !! i = Some g →
       Simple.notPosition cp !! i
       = Some (if decide (simpleDiffOp guess answer i = ch_tilde) then [g] else []) ∧
       Simple.notPosition cd !! i
       = Some (if decide (simpleDiffOp guess answer i = ch_plus) then [] else [g])) ∧
    (∀ w, length w = 5%nat → Simple.satisfies cp w = Simple.satisfies cd w).
Proof.
  intros Hguess Hanswer [Hlen Hall] Hspell.
  destruct (Simple_applyDiffConstraint_lists guess answer Hguess Hanswer)
    as (cd & Hrund & Hcd & Hposd & Hnpd & Hcsd & Hncsd).
  unfold SimpleInput.inputConstraints. rewrite decide_False by (by intros ?).
  rewrite (inputConstraints_check_true _ Hall). cbn [mbind result_bind].
  destruct (SimpleInput_fields_spec _ Hall 0%nat Simple.newConstraints)
    as (cp & -> & Hcp & _ & Hat & Hcsp & Hncsp); [lia | by split |].
  cbn [mbind result_bind]. exists cp, cd. split; [done |]. split; [done |].
  (* the line, field by field *)
  assert (∀ i, (i < 5)%nat → ∃ g, guess !! i = Some g ∧ lowercase g ∧
                                  Fields line !! i = Some [simpleDiffOp guess answer i; g])
    as Hfield.
  { intros i Hi. destruct (wfWord_lookup guess i Hguess Hi) as (g & Hg & Hlow).
    exists g. split_and!; [done | done | by apply Hspell]. }
  assert (∀ g, lowercase g → g < 128) as Hascii.
  { intros g. unfold lowercase, ch_z. lia. }
  assert (∀ i g, guess !! i = Some g →
            Simple.position cp !! i
            = Some (if decide (guess !! i = answer !! i) then g else 0) ∧
            Simple.notPosition cp !! i
            = Some (if decide (simpleDiffOp guess answer i = ch_tilde) then [g] else []))
    as Hrows.
  { intros i g Hg. assert (i < 5)%nat as Hi.
    { apply lookup_lt_Some in Hg. destruct Hguess as [Hl _]. lia. }
    destruct (Hfield i Hi) as (g' & Hg' & Hlow & Hi'). rewrite Hg in Hg'.
    injection Hg' as <-. destruct (Hat i _ g Hi') as [H1 H2]. cbn [Nat.add] in H1, H2.
    destruct (simpleDiffOp_cases guess answer i g Hg (Hascii g Hlow)) as (Hp & Ht & Hm).
    split.
    - rewrite H1. destruct (decide (guess !! i = answer !! i)) as [Heq | Hne].
      + by rewrite decide_True by (by apply Hp).
      + rewrite decide_False by (by rewrite Hp). apply (lookup_replicate_2 5 0 i Hi).
    - rewrite H2. change (Simple.notPosition Simple.newConstraints) with (replicate 5 (@nil Z)).
      rewrite (lookup_replicate_2 5 [] i Hi).
      destruct (decide (simpleDiffOp guess answer i = ch_tilde)); reflexivity. }
  assert (Simple.position cp = Simple.position cd) as Hpos.
  { apply list_eq. intros j. destruct (decide (j < 5)%nat) as [Hj | Hj].
    - destruct (wfWord_lookup guess j Hguess Hj) as (g & Hg & _).
      destruct (Hrows j g Hg) as [-> _]. by rewrite (Hposd j g Hg).
    - destruct Hcp as [Hl _]. destruct Hcd as [Hl' _]. by rewrite !lookup_ge_None_2 by lia. }
  (* the lists of letters *)
  assert (Simple.contains cp = Simple.contains cd ∧
          Simple.notContains cp = Simple.notContains cd) as [Hcs Hncs].
  { rewrite Hcsp, Hncsp, Hcsd, Hncsd. cbn [Simple.contains Simple.notContains
      Simple.newConstraints app].
    destruct (Hfield 0%nat ltac:(lia)) as (g0 & Hg0 & Hl0 & H0).
    destruct (Hfield 1%nat ltac:(lia)) as (g1 & Hg1 & Hl1 & H1).
    destruct (Hfield 2%nat ltac:(lia)) as (g2 & Hg2 & Hl2 & H2).
    destruct (Hfield 3%nat ltac:(lia)) as (g3 & Hg3 & Hl3 & H3).
    destruct (Hfield 4%nat ltac:(lia)) as (g4 & Hg4 & Hl4 & H4).
    destruct (Fields line) as [|t0 [|t1 [|t2 [|t3 [|t4 [|]]]]]]; try done.
    cbn [lookup list_lookup] in H0, H1, H2, H3, H4.
    injection H0 as ->. injection H1 as ->. injection H2 as ->.
    injection H3 as ->. injection H4 as ->.
    unfold simpleLetters. cbn [tildeLetters minusLetters seq omap list_omap].
    rewrite Hg0, Hg1, Hg2, Hg3, Hg4.
    assert (∀ i (g : Z) (inAnswer : bool), guess !! i = Some g → lowercase g →
              (if decide (simpleDiffOp guess answer i
                          = if inAnswer then ch_tilde else ch_minus)
               then Some g else None)
              = (if decide (Some g ≠ answer !! i ∧ bool_decide (g ∈ answer) = inAnswer)
                 then Some g else None)) as Hsame.
    { intros i g inAnswer Hg Hlow.
      destruct (simpleDiffOp_cases guess answer i g Hg (Hascii g Hlow)) as (_ & Ht & Hm).
      rewrite Hg in Ht, Hm. destruct inAnswer.
      - destruct (decide (simpleDiffOp guess answer i = ch_tilde)) as [Hop | Hop].
        + apply Ht in Hop as [? ?]. by rewrite decide_True by (by rewrite bool_decide_eq_true).
        + rewrite decide_False; [done |]. intros [? Hin%bool_decide_eq_true]. by apply Hop, Ht.
      - destruct (decide (simpleDiffOp guess answer i = ch_minus)) as [Hop | Hop].
        + apply Hm in Hop as [? ?]. by rewrite decide_True by (by rewrite bool_decide_eq_false).
        + rewrite decide_False; [done |]. intros [? Hin%bool_decide_eq_false].
          by apply Hop, Hm. }
    split.
    - by rewrite <- !(Hsame _ _ true) by done.
    - by rewrite <- !(Hsame _ _ false) by done. }
  split_and!; [done | done | done | |].
  - intros i g Hg. destruct (Hrows i g Hg) as [_ Hnp]. split; [done |].
    rewrite (Hnpd i g Hg). f_equal.
    assert (i < 5)%nat as Hi.
    { apply lookup_lt_Some in Hg. destruct Hguess as [Hl _]. lia. }
    destruct (Hfield i Hi) as (g' & Hg' & Hlow & _). rewrite Hg in Hg'. injection Hg' as <-.
    destruct (simpleDiffOp_cases guess answer i g Hg (Hascii g Hlow)) as (Hp & _).
    destruct (decide (guess !! i = answer !! i)) as [Heq | Hne].
    + by rewrite decide_True by (by apply Hp).
    + by rewrite decide_False by (by rewrite Hp).
  - intros w Hw.
    destruct (Simple_satisfies_spec cp w Hw Hcp) as (okp & -> & Hokp).
    destruct (Simple_satisfies_spec cd w Hw Hcd) as (okd & -> & Hokd).
    f_equal. apply eq_true_iff_eq. rewrite Hokp, Hokd.
    unfold simpleConsistent. rewrite Hpos, Hcs, Hncs.
    assert (∀ i, is_Some (w !! i) → (i < 5)%nat) as Hlt.
    { intros i [? Hi]. apply lookup_lt_Some in Hi. lia. }
    split; intros (H1 & H2 & H3 & H4); (split_and!; [done | | done | done]).
    + intros i got row Hgot Hrow Hin.
      assert (i < 5)%nat as Hi by (apply Hlt; by eexists).
      destruct (Hfield i Hi) as (g & Hg & Hlow & Hi').
      destruct (Hrows i g Hg) as [_ Hnp]. rewrite (Hnpd i g Hg) in Hrow.
      destruct (simpleDiffOp_cases guess answer i g Hg (Hascii g Hlow)) as (_ & Ht & Hm).
      destruct (decide (guess !! i = answer !! i)) as [Heq | Hne].
      { injection Hrow as <-. by apply elem_of_nil in Hin. }
      injection Hrow as <-. apply list_elem_of_singleton in Hin as ->.
      destruct (decide (g ∈ answer)) as [Hinans | Hnot].
      * apply (H2 i g [g] Hgot); [| by apply list_elem_of_singleton].
        rewrite Hnp. by rewrite decide_True by (by apply Ht).
      * apply (H4 g); [| by eapply list_elem_of_lookup_2].
        rewrite <- Hncs, Hncsp. cbn [Simple.notContains Simple.newConstraints app].
        unfold minusLetters. apply list_elem_of_omap.
        exists [simpleDiffOp guess answer i; g].
        split; [by eapply list_elem_of_lookup_2 |].
        by rewrite decide_True by (by apply Hm).
    + intros i got row Hgot Hrow Hin.
      assert (i < 5)%nat as Hi by (apply Hlt; by eexists).
      destruct (Hfield i Hi) as (g & Hg & Hlow & Hi').
      destruct (Hrows i g Hg) as [_ Hnp]. rewrite Hnp in Hrow.
      destruct (simpleDiffOp_cases guess answer i g Hg (Hascii g Hlow)) as (_ & Ht & _).
      destruct (decide (simpleDiffOp guess answer i = ch_tilde)) as [Hop | Hop].
      2: { injection Hrow as <-. by apply elem_of_nil in Hin. }
      injection Hrow as <-. apply Ht in Hop as [Hne _].
      apply (H2 i got [g] Hgot); [| done].
      rewrite (Hnpd i g Hg). by rewrite decide_False.
Qed.

Lemma Simple_inputConstraints_of_diff_witness :
  ∃ cp cd,
    SimpleInput.inputConstraints (bytes "~s ~a ~s +s -y") = Ok (Some cp) ∧
    Simple.applyDiffConstraint Simple.newConstraints (bytes "sassy") (bytes "glass")
      = Ok cd ∧
    Simple.position cp = Simple.position cd ∧
    Simple.contains cp = Simple.contains cd ∧
    Simple.notContains cp = Simple.notContains cd ∧
    (∀ i g, bytes "sassy" !! i = Some g →
       Simple.notPosition cp !! i
       = Some (if decide (simpleDiffOp (bytes "sassy") (bytes "glass") i = ch_tilde)
               then [g] else []) ∧
       Simple.notPosition cd !! i
       = Some (if decide (simpleDiffOp (bytes "sassy") (bytes "glass") i = ch_plus)
               then [] else [g])) ∧
    (∀ w, length w = 5%nat → Simple.satisfies cp w = Simple.satisfies cd w).
Proof.
  assert (Fields (bytes "~s ~a ~s +s -y")
          = [[126; 115]; [126; 97]; [126; 115]; [43; 115]; [45; 121]])
    as Hfields by (vm_compute; reflexivity).
  apply (Simple_inputConstraints_of_diff (bytes "~s ~a ~s +s -y") (bytes "sassy")
           (bytes "glass")).
  - solve_wf.
  - solve_wf.
  - split; rewrite Hfields; [reflexivity |].
    repeat (apply Forall_cons; split;
            [eexists _, _; split; [reflexivity |];
             unfold lowercase, ch_a, ch_z, ch_plus, ch_tilde, ch_minus; lia |]).
    constructor.
  - intros i g Hg. unfold tokenAt. rewrite Hfields.
    destruct i as [|[|[|[|[|i]]]]]; vm_compute in Hg; injection Hg as <- || discriminate;
      reflexivity.
Defined.

(** ** The program on the words of its list *)

Section ProgramProofs.

Variable float64 : Type.
Variable fzero : float64.
Variable fofint : Z → float64.
Variables fadd fsub fdiv : float64 → float64 → float64.
Variables feqb fgtb : float64 → float64 → bool.
Variable sortSlice : ∀ A : Type, (A → A → bool) → list A → list A.
Variable Atoi : list Z → option Z.

Hypothesis sortSlice_Permutation :
  ∀ (A : Type) (less : A → A → bool) (l : list A), sortSlice A less l ≡ₚ l.
Hypothesis mean_first :
  ∀ l n h : Z, l ≤ n ≤ h →
    within float64 fofint feqb fgtb l h
      (meanUpdate float64 fofint fadd fsub fdiv fzero n 0).
Hypothesis mean_next :
  ∀ (l n h : Z) (avg : float64) (i : nat),
    1 ≤ l → l ≤ n ≤ h → h ≤ maxInt → (1 ≤ i)%nat →
    within float64 fofint feqb fgtb l h avg →
    within float64 fofint feqb fgtb l h
      (meanUpdate float64 fofint fadd fsub fdiv avg n i).



End ProgramProofs.

